(** * pf runner: execution engine

    A shallow embedding of the command parser and secure executor
    ([pf_shell.py]), the polyglot builder ([pf_polyglot.py]) and the
    parallel task executor ([pf_task_executor.py]), with the properties
    the specification states about them.

    Python [str] values are modelled by [string]; a character is a code
    point below 256, which covers every character class the code tests
    (the shell lexer's whitespace, quotes and escape, the ASCII-only
    classes of [shlex.quote] and of the identifier pattern) and makes
    [str.lower] and [str.strip] finite tables.  Python [dict]s, whose
    iteration order is insertion order, are association lists updated in
    place. *)

From Stdlib Require Import Bool Arith NArith ZArith Lia List Ascii String.
From Stdlib Require Import Permutation Sorted.
Import ListNotations.

Local Open Scope string_scope.
Local Open Scope bool_scope.

(** ** Outcomes of fallible code *)

Inductive result (E A : Type) : Type :=
| Ok (a : A)
| Raise (e : E).
Arguments Ok {E A} a.
Arguments Raise {E A} e.

Definition bind {E A B} (r : result E A) (k : A -> result E B) : result E B :=
  match r with
  | Ok a => k a
  | Raise e => Raise e
  end.

Notation "x <- r ;; k" := (bind r (fun x => k))
  (at level 61, r at next level, right associativity).

(** ** Python built-ins used by the runner *)

Module Py.

Definition chr (n : nat) : ascii := ascii_of_nat n.
Definition str1 (c : ascii) : string := String c EmptyString.

Definition nl : string := str1 (chr 10).
Definition dq : string := str1 (chr 34).
Definition sq : string := str1 (chr 39).

Definition code (c : ascii) : N := N_of_ascii c.
Definition in_range (lo hi : N) (c : ascii) : bool :=
  (lo <=? code c)%N && (code c <=? hi)%N.

Definition is_upper (c : ascii) : bool := in_range 65 90 c.
Definition is_lower (c : ascii) : bool := in_range 97 122 c.
Definition is_digit (c : ascii) : bool := in_range 48 57 c.

(** [x in s] for a one-character [x]. *)
Fixpoint mem_char (c : ascii) (s : string) : bool :=
  match s with
  | EmptyString => false
  | String d r => Ascii.eqb c d || mem_char c r
  end.

(** [sub in s]: substring test. *)
Fixpoint contains (sub s : string) : bool :=
  prefix sub s ||
  match s with
  | EmptyString => false
  | String _ r => contains sub r
  end.

Definition startswith (s p : string) : bool := prefix p s.

Fixpoint endswith_nl (s : string) : bool :=
  match s with
  | EmptyString => false
  | String c EmptyString => Ascii.eqb c (chr 10)
  | String _ r => endswith_nl r
  end.

Definition is_empty (s : string) : bool :=
  match s with EmptyString => true | _ => false end.

(** [sep.join(parts)]. *)
Definition join (sep : string) (parts : list string) : string :=
  String.concat sep parts.

(** [s.split(sep, 1)] for a one-character [sep] that occurs in [s]:
    the text before the first occurrence and the text after it. *)
Fixpoint split_once (sep : ascii) (s : string) : string * string :=
  match s with
  | EmptyString => (EmptyString, EmptyString)
  | String c r =>
      if Ascii.eqb c sep then (EmptyString, r)
      else let (k, v) := split_once sep r in (String c k, v)
  end.

(** [s.replace(old, new)] for a one-character [old]. *)
Fixpoint replace_char (old : ascii) (new : string) (s : string) : string :=
  match s with
  | EmptyString => EmptyString
  | String c r =>
      if Ascii.eqb c old then new ++ replace_char old new r
      else String c (replace_char old new r)
  end.

(** [s[n:]]. *)
Fixpoint drop (n : nat) (s : string) : string :=
  match n, s with
  | O, _ => s
  | S _, EmptyString => EmptyString
  | S m, String _ r => drop m r
  end.

(** [str.lower] on code points below 256: the ASCII capitals and the
    Latin-1 capitals U+00C0..U+00DE except the multiplication sign. *)
Definition lower_char (c : ascii) : ascii :=
  if is_upper c
     || (in_range 192 222 c && negb (N.eqb (code c) 215))
  then ascii_of_N (code c + 32)
  else c.

Fixpoint lower (s : string) : string :=
  match s with
  | EmptyString => EmptyString
  | String c r => String (lower_char c) (lower r)
  end.

(** [str.isspace] on code points below 256. *)
Definition is_space (c : ascii) : bool :=
  in_range 9 13 c || in_range 28 32 c
  || N.eqb (code c) 133 || N.eqb (code c) 160.

Fixpoint lstrip (s : string) : string :=
  match s with
  | EmptyString => EmptyString
  | String c r => if is_space c then lstrip r else s
  end.

Fixpoint rstrip (s : string) : string :=
  match s with
  | EmptyString => EmptyString
  | String c r =>
      match rstrip r with
      | EmptyString => if is_space c then EmptyString else str1 c
      | r' => String c r'
      end
  end.

Definition strip (s : string) : string := rstrip (lstrip s).

(** *** Insertion-ordered dictionaries with string keys *)

Definition dict (V : Type) : Type := list (string * V).

Fixpoint dict_get {V} (k : string) (d : dict V) : option V :=
  match d with
  | [] => None
  | (k', v) :: r => if String.eqb k k' then Some v else dict_get k r
  end.

Definition dict_mem {V} (k : string) (d : dict V) : bool :=
  match dict_get k d with Some _ => true | None => false end.

(** [d[k] = v]: an existing key keeps its position, a new key goes last. *)
Fixpoint dict_set {V} (k : string) (v : V) (d : dict V) : dict V :=
  match d with
  | [] => [(k, v)]
  | (k', v') :: r =>
      if String.eqb k k' then (k, v) :: r
      else (k', v') :: dict_set k v r
  end.

(** [d.update(other)]. *)
Definition dict_update {V} (d other : dict V) : dict V :=
  fold_left (fun acc kv => dict_set (fst kv) (snd kv) acc) other d.

Definition keys {V} (d : dict V) : list string := map fst d.

Definition is_nil {A} (l : list A) : bool :=
  match l with [] => true | _ => false end.

(** [sorted(xs)] on strings: a stable sort by code-point order. *)
Fixpoint insert_sorted (x : string) (l : list string) : list string :=
  match l with
  | [] => [x]
  | y :: r => if String.ltb x y then x :: l else y :: insert_sorted x r
  end.

Definition sorted (l : list string) : list string :=
  fold_right insert_sorted [] (rev l).

(** [s.split('\n')]: the pieces between newlines, at least one. *)
Fixpoint split_nl (s : string) : list string :=
  match s with
  | EmptyString => [EmptyString]
  | String c r =>
      if Ascii.eqb c (chr 10) then EmptyString :: split_nl r
      else match split_nl r with
           | piece :: pieces => String c piece :: pieces
           | [] => [str1 c]
           end
  end.

(** [s.endswith(c)] for a one-character [c]. *)
Fixpoint endswith_char (s : string) (c : ascii) : bool :=
  match s with
  | EmptyString => false
  | String d EmptyString => Ascii.eqb d c
  | String _ r => endswith_char r c
  end.

(** [s[:-1]]. *)
Fixpoint drop_last (s : string) : string :=
  match s with
  | EmptyString => EmptyString
  | String _ EmptyString => EmptyString
  | String c r => String c (drop_last r)
  end.

(** [s[:n]]. *)
Fixpoint take (n : nat) (s : string) : string :=
  match n, s with
  | O, _ => EmptyString
  | S _, EmptyString => EmptyString
  | S m, String c r => String c (take m r)
  end.

End Py.

(** ** The standard library's [shlex] *)

Module Shlex.
Import Py.

(** The lexer of [shlex.split(s)]: POSIX mode, [whitespace_split] on,
    no comment characters, no punctuation characters. *)
Inductive state : Type :=
| InWhitespace                (* [' '] *)
| InWord                      (* ['a'] *)
| InQuote (q : ascii)         (* the opening quote *)
| InEscape (back : option ascii).
    (* state is the escape character; [escapedstate] is ['a'] ([None])
       or the enclosing quote *)

Definition is_whitespace (c : ascii) : bool := mem_char c (" " ++ str1 (chr 9) ++ str1 (chr 13) ++ nl).
Definition is_escape (c : ascii) : bool := Ascii.eqb c "\"%char.
Definition is_quote (c : ascii) : bool := Ascii.eqb c "'"%char || Ascii.eqb c (chr 34).
Definition is_escapedquote (c : ascii) : bool := Ascii.eqb c (chr 34).

Definition push (tok : string) (c : ascii) : string := tok ++ str1 c.

Definition no_closing_quotation : string := "No closing quotation".
Definition no_escaped_character : string := "No escaped character".

(** One run over the input.  [tok] is the token being read, [quoted]
    whether a quote was seen while reading it, [acc] the tokens already
    emitted, most recent first.  A [Raise] is the [ValueError]. *)
Fixpoint lex (s : string) (st : state) (tok : string) (quoted : bool)
         (acc : list string) : result string (list string) :=
  match s with
  | EmptyString =>
      match st with
      | InWhitespace => Ok (rev acc)
      | InWord =>
          if negb (is_empty tok) || quoted then Ok (rev (tok :: acc))
          else Ok (rev acc)
      | InQuote _ => Raise no_closing_quotation
      | InEscape _ => Raise no_escaped_character
      end
  | String c r =>
      match st with
      | InWhitespace =>
          if is_whitespace c then lex r InWhitespace tok quoted acc
          else if is_escape c then lex r (InEscape None) tok quoted acc
          else if is_quote c then lex r (InQuote c) tok quoted acc
          else lex r InWord (str1 c) quoted acc
      | InQuote q =>
          if Ascii.eqb c q then lex r InWord tok true acc
          else if is_escape c && is_escapedquote q
               then lex r (InEscape (Some q)) tok true acc
          else lex r (InQuote q) (push tok c) true acc
      | InEscape back =>
          match back with
          | Some q =>
              let tok' :=
                if negb (is_escape c) && negb (Ascii.eqb c q)
                then push tok "\"%char else tok in
              lex r (InQuote q) (push tok' c) quoted acc
          | None => lex r InWord (push tok c) quoted acc
          end
      | InWord =>
          if is_whitespace c then
            if negb (is_empty tok) || quoted
            then lex r InWhitespace EmptyString false (tok :: acc)
            else lex r InWhitespace tok quoted acc
          else if is_quote c then lex r (InQuote c) tok quoted acc
          else if is_escape c then lex r (InEscape None) tok quoted acc
          else lex r InWord (push tok c) quoted acc
      end
  end.

Definition split (s : string) : result string (list string) :=
  lex s InWhitespace EmptyString false [].

(** [shlex.quote]: the characters that need no quoting are
    [[A-Za-z0-9_@%+=:,./-]]. *)
Definition is_safe (c : ascii) : bool :=
  is_upper c || is_lower c || is_digit c || mem_char c "_@%+=:,./-".

Fixpoint all_safe (s : string) : bool :=
  match s with
  | EmptyString => true
  | String c r => is_safe c && all_safe r
  end.

Definition quote (s : string) : string :=
  if is_empty s then sq ++ sq
  else if all_safe s then s
  else sq ++ replace_char "'"%char (sq ++ dq ++ sq ++ dq ++ sq) s ++ sq.

End Shlex.

(** ** Regular expressions

    The fragment of Python's [re] that the runner's one pattern uses,
    matched the way [re.match] does it: by backtracking, each alternation
    tried left to right and each repetition greedy.  A continuation stands
    for the rest of the pattern; it receives what is left of the subject
    and the text of group 1 so far. *)

Module Re.
Import Py.

Inductive regex : Type :=
| Eps                                   (* the empty pattern *)
| Lit (c : ascii)                       (* a lower-case letter under IGNORECASE *)
| Class (p : ascii -> bool)             (* a set, [\s] or [.] *)
| Star (p : ascii -> bool)              (* a starred set *)
| Seq (r1 r2 : regex)
| Alt (r1 r2 : regex)
| Group (r : regex)                     (* the capturing group *)
| Eol.                                  (* [$] without MULTILINE *)

Definition cont : Type := string -> option string -> option (option string).

Fixpoint star (p : ascii -> bool) (s : string) (g : option string)
         (k : cont) : option (option string) :=
  match s with
  | EmptyString => k s g
  | String c r =>
      if p c then
        match star p r g k with
        | Some m => Some m
        | None => k s g
        end
      else k s g
  end.

Fixpoint run (r : regex) (s : string) (g : option string) (k : cont)
  : option (option string) :=
  match r with
  | Eps => k s g
  | Lit c =>
      match s with
      | String d s' => if Ascii.eqb (lower_char d) c then k s' g else None
      | EmptyString => None
      end
  | Class p =>
      match s with
      | String d s' => if p d then k s' g else None
      | EmptyString => None
      end
  | Star p => star p s g k
  | Seq r1 r2 => run r1 s g (fun s' g' => run r2 s' g' k)
  | Alt r1 r2 =>
      match run r1 s g k with
      | Some m => Some m
      | None => run r2 s g k
      end
  | Group r1 =>
      run r1 s g
          (fun s' _ =>
             k s' (Some (take (String.length s - String.length s') s)))
  | Eol => if is_empty s || String.eqb s nl then k s g else None
  end.

(** A word of literals, and [p+]. *)
Fixpoint word (w : string) : regex :=
  match w with
  | EmptyString => Eps
  | String c r => Seq (Lit c) (word r)
  end.

Definition plus (p : ascii -> bool) : regex := Seq (Class p) (Star p).

(** [re.match(r, s)]: [None] when nothing matches, else group 1. *)
Definition match_ (r : regex) (s : string) : option (option string) :=
  run r s None (fun _ g => Some g).

End Re.

(** ** Exceptions of the runner ([pf_exceptions]) and of the library *)

Record PFExecutionError : Type := {
  exec_message : string;
  exec_command : option string;
  exec_environment : option (Py.dict string);
  exec_suggestion : option string
}.

Record PFSyntaxError : Type := {
  syn_message : string;
  syn_file_path : option string;
  syn_suggestion : option string
}.

Inductive exn : Type :=
| ExecutionError (e : PFExecutionError)
| SyntaxError (e : PFSyntaxError)
| ValueError (msg : string)          (* [shlex.split], [str.format] *)
| KeyError (key : string)            (* [str.format] *)
| IndexError (msg : string)          (* [str.format] *)
| OSError (msg : string)             (* [open], [Popen] *)
| NotModelled (what : string).       (* library behaviour left out *)

(** ** [pf_shell.py] *)

Module PfShell.
Import Py.

Definition env := dict string.

(** [re.match(r'^[A-Za-z_][A-Za-z0-9_]*$', key)]: without [re.MULTILINE]
    the [$] matches at the end of the string and also just before a
    newline that ends the string. *)
Definition is_name_start (c : ascii) : bool :=
  is_upper c || is_lower c || Ascii.eqb c "_"%char.
Definition is_name_char (c : ascii) : bool :=
  is_name_start c || is_digit c.

Fixpoint name_tail (s : string) : bool :=
  match s with
  | EmptyString => true
  | String c r =>
      if is_name_char c then name_tail r
      else Ascii.eqb c (chr 10) && is_empty r
  end.

Definition env_name_match (key : string) : bool :=
  match key with
  | EmptyString => false
  | String c r => is_name_start c && name_tail r
  end.

(** The test of the scanning loop (lines 55-59): the token is stored as
    an assignment and the loop continues. *)
Definition is_assignment (token : string) : bool :=
  contains "=" token && negb (startswith token "-")
  && env_name_match (fst (split_once "="%char token)).

(** The [for] loop of lines 54-65. *)
Fixpoint scan_env (tokens : list string) (env_vars : env)
  : env * list string :=
  match tokens with
  | [] => (env_vars, [])
  | token :: rest =>
      if contains "=" token && negb (startswith token "-") then
        let (key, value) := split_once "="%char token in
        if env_name_match key
        then scan_env rest (dict_set key value env_vars)
        else (env_vars, tokens)
      else (env_vars, tokens)
  end.

Definition parse_error (cmd_line e : string) : exn :=
  ExecutionError
    {| exec_message := "Failed to parse shell command: " ++ e;
       exec_command := Some cmd_line;
       exec_environment := None;
       exec_suggestion :=
         Some "Check for unclosed quotes or invalid escape sequences" |}.

Definition parse_shell_command (cmd_line : string)
  : result exn (env * string) :=
  match Shlex.split cmd_line with
  | Raise e => Raise (parse_error cmd_line e)
  | Ok tokens =>
      let (env_vars, remaining_tokens) := scan_env tokens [] in
      let remaining_cmd :=
        match remaining_tokens with
        | [] => EmptyString
        | _ => join " " (map Shlex.quote remaining_tokens)
        end in
      Ok (env_vars, remaining_cmd)
  end.

(** [if task_env: all_env.update(task_env)] then
    [all_env.update(env_vars)], starting from [base]. *)
Definition merge_env (base : env) (task_env : option env) (env_vars : env)
  : env :=
  let with_task :=
    match task_env with
    | Some te => if is_nil te then base else dict_update base te
    | None => base
    end in
  dict_update with_task env_vars.

Definition export_line (kv : string * string) : string :=
  "export " ++ fst kv ++ "=" ++ Shlex.quote (snd kv).

(** A given, non-empty [sudo_user]. *)
Definition user_given (sudo_user : option string) : option string :=
  match sudo_user with
  | Some u => if is_empty u then None else Some u
  | None => None
  end.

Definition build_shell_command (env_vars : env) (command : string)
           (task_env : option env) (sudo : bool)
           (sudo_user : option string) : string :=
  let all_env := merge_env [] task_env env_vars in
  let env_exports := map export_line all_env in
  let full_command :=
    match env_exports with
    | [] => command
    | _ => join "; " env_exports ++ "; " ++ command
    end in
  if sudo then
    match user_given sudo_user with
    | Some u =>
        "sudo -u " ++ Shlex.quote u ++ " -H bash -lc "
          ++ Shlex.quote full_command
    | None => "sudo bash -lc " ++ Shlex.quote full_command
    end
  else full_command.

Definition shell_chars : list string :=
  [ "|"; ">"; "<"; "&"; ";"; "`"; "$";
    "&&"; "||"; ">>"; "<<"; "2>"; "2>&1";
    "*"; "?"; "["; "]"; "{"; "}";
    "~"; "("; ")";
    nl ].

Definition _has_shell_metacharacters (cmd : string) : bool :=
  existsb (fun char => contains char cmd) shell_chars.

Definition sudo_parse_error (command e : string) : exn :=
  ExecutionError
    {| exec_message := "Failed to parse sudo command arguments: " ++ e;
       exec_command := Some command;
       exec_environment := None;
       exec_suggestion :=
         Some "Check for unclosed quotes or invalid escape sequences" |}.

Definition _build_secure_command_args (command : string) (env_vars : env)
           (task_env : option env) (sudo : bool)
           (sudo_user : option string) : result exn (list string) :=
  let needs_shell_features := _has_shell_metacharacters command in
  if sudo then
    let sudo_args :=
      (["sudo"]
         ++ match user_given sudo_user with
            | Some u => ["-u"; u]
            | None => []
            end
         ++ ["-H"])%list in
    if needs_shell_features then
      let all_env := merge_env [] task_env env_vars in
      let full_command :=
        match all_env with
        | [] => command
        | _ => join "; " (map export_line all_env) ++ "; " ++ command
        end in
      Ok (sudo_args ++ ["bash"; "-c"; full_command])%list
    else
      match Shlex.split command with
      | Ok cmd_args => Ok (sudo_args ++ cmd_args)%list
      | Raise e => Raise (sudo_parse_error command e)
      end
  else if needs_shell_features then Ok ["bash"; "-c"; command]
  else
    match Shlex.split command with
    | Ok cmd_args => Ok cmd_args
    | Raise _ => Ok ["bash"; "-c"; command]
    end.

(** *** Running a command *)

(** What [subprocess.Popen(...)] followed by [wait()] does. *)
Inductive popen_outcome : Type :=
| Exited (rc : Z)
| SubprocessError (msg : string)
| SpawnOSError (msg : string).

(** What [connection.run(...)] does. *)
Inductive remote_outcome : Type :=
| RemoteExited (rc : Z)
| RemoteException (msg : string).

(** What the executor does to the outside world, in order. *)
Inductive event : Type :=
| Printed (line : string)
| Spawned (argv : list string) (proc_env : env)
| RemoteRun (command : string).

Definition is_spawn (e : event) : bool :=
  match e with
  | Printed _ => false
  | Spawned _ _ | RemoteRun _ => true
  end.

Section Execute.
Variable os_environ : env.
Variable popen : list string -> env -> popen_outcome.

Definition display_item (kv : string * string) : string :=
  fst kv ++ "=" ++ Shlex.quote (snd kv).

Definition execute_shell_command (cmd_line : string)
           (task_env : option env) (sudo : bool)
           (sudo_user : option string)
           (connection : option (string -> remote_outcome))
           (prefix : string) : list event * result exn Z :=
  match parse_shell_command cmd_line with
  | Raise e => ([], Raise e)
  | Ok (env_vars, command) =>
      if is_empty command then
        ([Printed (prefix ++
            "[warn] Empty command after parsing environment variables")],
         Ok 0%Z)
      else
        let display_env := merge_env [] task_env env_vars in
        let display_cmd :=
          match display_env with
          | [] => command
          | _ => join " " (map display_item display_env) ++ " " ++ command
          end in
        let display_cmd :=
          if sudo then "(sudo) " ++ display_cmd else display_cmd in
        let echo := Printed (prefix ++ "$ " ++ display_cmd) in
        match connection with
        | None =>
            let proc_env := merge_env os_environ task_env env_vars in
            match _build_secure_command_args
                    command env_vars task_env sudo sudo_user with
            | Raise e => ([echo], Raise e)
            | Ok cmd_args =>
                match popen cmd_args proc_env with
                | Exited exit_code =>
                    ([echo; Spawned cmd_args proc_env], Ok exit_code)
                | SubprocessError e =>
                    ([echo; Spawned cmd_args proc_env],
                     Raise (ExecutionError
                       {| exec_message :=
                            "Failed to execute subprocess: " ++ e;
                          exec_command := Some display_cmd;
                          exec_environment := Some display_env;
                          exec_suggestion := Some
                            "Check that the command exists and is executable" |}))
                | SpawnOSError e =>
                    ([echo; Spawned cmd_args proc_env], Raise (OSError e))
                end
            end
        | Some run =>
            let full_command :=
              build_shell_command env_vars command task_env sudo sudo_user in
            match run full_command with
            | RemoteExited exit_code =>
                ([echo; RemoteRun full_command], Ok exit_code)
            | RemoteException e =>
                ([echo; RemoteRun full_command],
                 Raise (ExecutionError
                   {| exec_message :=
                        "Remote command execution failed: " ++ e;
                      exec_command := Some display_cmd;
                      exec_environment := Some display_env;
                      exec_suggestion := Some
                        "Check network connectivity and remote host accessibility" |}))
            end
        end
  end.
End Execute.

(** [str(e)] of an exception that is not a [PFExecutionError]. *)
Definition exn_text (e : exn) : string :=
  match e with
  | ExecutionError e => exec_message e
  | SyntaxError e => syn_message e
  | ValueError msg => msg
  | KeyError key => sq ++ key ++ sq
  | IndexError msg => msg
  | OSError msg => msg
  | NotModelled what => what
  end.

(** [validate_shell_syntax]; the [PFExecutionError] keeps the message it
    was built with in its [message] attribute. *)
Definition validate_shell_syntax (cmd_line : string) : bool * option string :=
  match parse_shell_command cmd_line with
  | Ok (env_vars, command) =>
      if is_empty (strip command)
      then (false, Some "Empty command after environment variable parsing")
      else
        match find (fun key => negb (env_name_match key)) (keys env_vars) with
        | Some key =>
            (false, Some ("Invalid environment variable name: " ++ key))
        | None => (true, None)
        end
  | Raise (ExecutionError e) => (false, Some (exec_message e))
  | Raise e => (false, Some ("Shell syntax error: " ++ exn_text e))
  end.

End PfShell.

(** ** [pf_polyglot.py] *)

Module PfPolyglot.
Import Py.

Definition _POLY_DELIM : string := "__PFY_LANG__".

(** A double-quoted shell word. *)
Definition qt (s : string) : string := dq ++ s ++ dq.

(** Every line followed by a newline. *)
Definition lines (ls : list string) : string :=
  fold_right (fun l rest => l ++ nl ++ rest) EmptyString ls.

Definition _cmd_str (parts : list string) : string :=
  join " " (map Shlex.quote parts).

Definition _poly_args (args : list string) : string :=
  let cleaned := filter (fun a => negb (is_empty a)) args in
  join " " (map Shlex.quote cleaned).

Definition _ensure_newline (src : string) : string :=
  if endswith_nl src then src else src ++ nl.

(** The argument string preceded by a space, or nothing when it is empty. *)
Definition spaced (arg_str : string) : string :=
  if is_empty arg_str then EmptyString else " " ++ arg_str.

Definition _build_script_command (interpreter_cmd ext code : string)
           (args : list string) (basename : string) : string :=
  let code := _ensure_newline code in
  let arg_str := _poly_args args in
  "tmpdir=$(mktemp -d)" ++ nl
  ++ "src=" ++ qt ("$tmpdir/" ++ basename ++ ext) ++ nl
  ++ "cat <<'" ++ _POLY_DELIM ++ "' > " ++ qt "$src" ++ nl
  ++ code
  ++ _POLY_DELIM
  ++ nl ++ "chmod +x " ++ qt "$src" ++ " 2>/dev/null || true" ++ nl
  ++ interpreter_cmd ++ " " ++ qt "$src"
  ++ spaced arg_str
  ++ nl ++ "rc=$?" ++ nl ++ "rm -rf " ++ qt "$tmpdir" ++ nl
  ++ "exit $rc" ++ nl.

(** *** [str.format] with a mapping of string values

    Replacement fields are plain names; [{{] and [}}] are literal
    braces.  A field with a conversion, a format specification, an
    attribute or an index is outside this model. *)
Definition is_field_special (c : ascii) : bool := mem_char c "!:.[".

Fixpoint all_digits (s : string) : bool :=
  match s with
  | EmptyString => true
  | String c r => is_digit c && all_digits r
  end.

Definition field_value (mapping : dict string) (name : string)
  : result exn string :=
  if all_digits name
  then Raise (IndexError "Replacement index out of range for positional args tuple")
  else match dict_get name mapping with
       | Some v => Ok v
       | None => Raise (KeyError name)
       end.

Fixpoint format_from (mapping : dict string) (s : string)
         (field : option string) (out : string) : result exn string :=
  match s with
  | EmptyString =>
      match field with
      | None => Ok out
      | Some _ => Raise (ValueError "expected '}' before end of string")
      end
  | String c r =>
      match field with
      | Some name =>
          if Ascii.eqb c "}"%char then
            match field_value mapping name with
            | Ok v => format_from mapping r None (out ++ v)
            | Raise e => Raise e
            end
          else if Ascii.eqb c "{"%char
          then Raise (ValueError "unexpected '{' in field name")
          else if is_field_special c
          then Raise (NotModelled "format field with conversion, spec, attribute or index")
          else format_from mapping r (Some (name ++ str1 c)) out
      | None =>
          if Ascii.eqb c "{"%char then
            match r with
            | EmptyString =>
                Raise (ValueError "Single '{' encountered in format string")
            | String d r' =>
                if Ascii.eqb d "{"%char
                then format_from mapping r' None (out ++ "{")
                else format_from mapping r (Some EmptyString) out
            end
          else if Ascii.eqb c "}"%char then
            match r with
            | String d r' =>
                if Ascii.eqb d "}"%char
                then format_from mapping r' None (out ++ "}")
                else Raise (ValueError "Single '}' encountered in format string")
            | EmptyString =>
                Raise (ValueError "Single '}' encountered in format string")
            end
          else format_from mapping r None (out ++ str1 c)
      end
  end.

Definition format (template : string) (mapping : dict string)
  : result exn string :=
  format_from mapping template None EmptyString.

Definition mapping : dict string :=
  [ ("src", qt "$src");
    ("bin", qt "$bin");
    ("dir", qt "$tmpdir");
    ("classes", qt "$classes");
    ("jar", qt "$jar") ].

Definition _build_compile_command (ext code compiler_cmd run_cmd : string)
           (args : list string) (setup_lines : list string)
           (basename : string) (append_args : bool) : result exn string :=
  let code := _ensure_newline code in
  let arg_str := _poly_args args in
  let setup := join nl setup_lines in
  let setup := if is_empty setup then setup else setup ++ nl in
  compiler <- format compiler_cmd mapping ;;
  let run_mapping := dict_set "args" arg_str mapping in
  runner <- format run_cmd run_mapping ;;
  let runner :=
    if append_args && negb (is_empty arg_str)
    then runner ++ " " ++ arg_str else runner in
  Ok ("tmpdir=$(mktemp -d)" ++ nl
      ++ "src=" ++ qt ("$tmpdir/" ++ basename ++ ext) ++ nl
      ++ "bin=" ++ qt "$tmpdir/pf_poly_bin" ++ nl
      ++ setup
      ++ "cat <<'" ++ _POLY_DELIM ++ "' > " ++ qt "$src" ++ nl
      ++ code
      ++ _POLY_DELIM
      ++ nl
      ++ compiler
      ++ nl ++ "rc=$?" ++ nl
      ++ "if [ $rc -eq 0 ]; then" ++ nl
      ++ "  " ++ runner ++ nl
      ++ "  rc=$?" ++ nl
      ++ "fi" ++ nl
      ++ "rm -rf " ++ qt "$tmpdir" ++ nl ++ "exit $rc" ++ nl).

(** *** Builder factories *)

Definition builder : Type := string -> list string -> result exn string.

Definition pf_poly : string := "pf_poly".

Definition _script_profile (parts : list string) (ext basename : string)
  : builder :=
  let cmd := _cmd_str parts in
  fun code args => Ok (_build_script_command cmd ext code args basename).

Definition _compile_profile (ext compiler_cmd run_cmd : string)
           (setup_lines : list string) (basename : string)
           (append_args : bool) : builder :=
  fun code args =>
    _build_compile_command ext code compiler_cmd run_cmd args
                           setup_lines basename append_args.

Definition _java_openjdk_builder : builder :=
  _compile_profile
    ".java"
    "javac -d {classes} {src}"
    "(cd {classes} && java Main{args})"
    [ "classes=" ++ qt "$tmpdir/classes"; "mkdir -p " ++ qt "$classes" ]
    "Main"
    false.

Definition _java_android_builder : builder :=
  fun code args =>
    let code := _ensure_newline code in
    let arg_str := _poly_args args in
    let arg_suffix := spaced arg_str in
    Ok (lines
      [ "tmpdir=$(mktemp -d)";
        "src=" ++ qt "$tmpdir/Main.java";
        "classes=" ++ qt "$tmpdir/classes";
        "dexdir=" ++ qt "$tmpdir/dex";
        "mkdir -p " ++ qt "$classes" ++ " " ++ qt "$dexdir";
        "cat <<'" ++ _POLY_DELIM ++ "' > " ++ qt "$src" ]
      ++ code ++ _POLY_DELIM ++ nl
      ++ lines
      [ EmptyString;
        "ANDROID_SDK=" ++ qt "${ANDROID_SDK_ROOT:-${ANDROID_HOME:-}}";
        "platform_jar=" ++ qt "${ANDROID_PLATFORM_JAR:-}";
        "if [ -z " ++ qt "$platform_jar" ++ " ] && [ -n " ++ qt "$ANDROID_SDK" ++ " ]; then";
        "  latest_platform=$(ls -1 " ++ qt "$ANDROID_SDK/platforms" ++ " 2>/dev/null | sort -V | tail -1)";
        "  if [ -n " ++ qt "$latest_platform" ++ " ] && [ -f " ++ qt "$ANDROID_SDK/platforms/$latest_platform/android.jar" ++ " ]; then";
        "    platform_jar=" ++ qt "$ANDROID_SDK/platforms/$latest_platform/android.jar";
        "  fi";
        "fi";
        "javac_cp=" ++ dq ++ dq;
        "if [ -n " ++ qt "$platform_jar" ++ " ] && [ -f " ++ qt "$platform_jar" ++ " ]; then";
        "  javac_cp=" ++ qt "-classpath $platform_jar";
        "fi";
        "javac $javac_cp -d " ++ qt "$classes" ++ " " ++ qt "$src";
        "rc=$?";
        "if [ $rc -ne 0 ]; then";
        "  rm -rf " ++ qt "$tmpdir";
        "  exit $rc";
        "fi";
        EmptyString;
        "d8_bin=" ++ qt "${ANDROID_D8:-}";
        "if [ -z " ++ qt "$d8_bin" ++ " ] && [ -n " ++ qt "$ANDROID_SDK" ++ " ]; then";
        "  latest_bt=$(ls -1 " ++ qt "$ANDROID_SDK/build-tools" ++ " 2>/dev/null | sort -V | tail -1)";
        "  if [ -n " ++ qt "$latest_bt" ++ " ] && [ -x " ++ qt "$ANDROID_SDK/build-tools/$latest_bt/d8" ++ " ]; then";
        "    d8_bin=" ++ qt "$ANDROID_SDK/build-tools/$latest_bt/d8";
        "  fi";
        "fi";
        EmptyString;
        "if [ -n " ++ qt "$d8_bin" ++ " ] && command -v dalvikvm >/dev/null 2>&1; then";
        "  " ++ qt "$d8_bin" ++ " --output " ++ qt "$dexdir" ++ " " ++ qt "$classes" ++ " >/dev/null";
        "  rc=$?";
        "  if [ $rc -eq 0 ]; then";
        "    dalvikvm -cp " ++ qt "$dexdir/classes.dex" ++ " Main" ++ arg_suffix;
        "    rc=$?";
        "    rm -rf " ++ qt "$tmpdir";
        "    exit $rc";
        "  fi";
        "fi";
        EmptyString;
        "(cd " ++ qt "$classes" ++ " && java Main" ++ arg_suffix ++ ")";
        "rc=$?";
        "rm -rf " ++ qt "$tmpdir";
        "exit $rc" ]).

(** *** The language registry *)

Definition script (parts : list string) (ext : string) : builder :=
  _script_profile parts ext pf_poly.

Definition compiled (ext compiler_cmd run_cmd : string) : builder :=
  _compile_profile ext compiler_cmd run_cmd [] pf_poly true.

Definition llvm_ir_note : string :=
  "echo '(LLVM IR generated with O3 optimization)'".
Definition llvm_bc_note : string :=
  "echo '(LLVM bitcode generated with O3 optimization)'".

Definition POLYGLOT_LANGS : dict builder :=
  [ ("bash", script ["bash"] ".sh");
    ("sh", script ["sh"] ".sh");
    ("dash", script ["dash"] ".sh");
    ("zsh", script ["zsh"] ".sh");
    ("fish", script ["fish"] ".fish");
    ("ksh", script ["ksh"] ".sh");
    ("tcsh", script ["tcsh"] ".csh");
    ("pwsh", script ["pwsh"; "-NoLogo"; "-NonInteractive"; "-File"] ".ps1");
    ("python", script ["python3"] ".py");
    ("node", script ["node"] ".js");
    ("deno", script ["deno"; "run"] ".ts");
    ("ts-node", script ["ts-node"] ".ts");
    ("perl", script ["perl"] ".pl");
    ("php", script ["php"] ".php");
    ("ruby", script ["ruby"] ".rb");
    ("r", script ["Rscript"] ".R");
    ("julia", script ["julia"] ".jl");
    ("haskell", script ["runghc"] ".hs");
    ("ocaml", script ["ocaml"] ".ml");
    ("elixir", script ["elixir"] ".exs");
    ("dart", script ["dart"; "run"] ".dart");
    ("lua", script ["lua"] ".lua");
    ("go", script ["go"; "run"] ".go");
    ("rust", compiled ".rs" "rustc {src} -o {bin}" "{bin}");
    ("c", compiled ".c" "clang -x c {src} -o {bin}" "{bin}");
    ("cpp", compiled ".cc" "clang++ {src} -o {bin}" "{bin}");
    ("c-llvm", compiled ".c"
       "clang -x c -O3 -S -emit-llvm {src} -o {bin}.ll && cat {bin}.ll"
       llvm_ir_note);
    ("cpp-llvm", compiled ".cc"
       "clang++ -O3 -S -emit-llvm {src} -o {bin}.ll && cat {bin}.ll"
       llvm_ir_note);
    ("c-llvm-bc", compiled ".c"
       "clang -x c -O3 -c -emit-llvm {src} -o {bin}.bc && llvm-dis {bin}.bc -o {bin}.ll && cat {bin}.ll"
       llvm_bc_note);
    ("cpp-llvm-bc", compiled ".cc"
       "clang++ -O3 -c -emit-llvm {src} -o {bin}.bc && llvm-dis {bin}.bc -o {bin}.ll && cat {bin}.ll"
       llvm_bc_note);
    ("fortran", compiled ".f90" "gfortran {src} -o {bin}" "{bin}");
    ("fortran-llvm", compiled ".f90"
       "flang -O3 {src} -S -emit-llvm -o {bin}.ll && cat {bin}.ll"
       llvm_ir_note);
    ("asm", compiled ".s" "clang -x assembler {src} -o {bin}" "{bin}");
    ("zig", compiled ".zig"
       "zig build-exe -O Debug -femit-bin={bin} {src}" "{bin}");
    ("nim", compiled ".nim" "nim c -o:{bin} {src}" "{bin}");
    ("crystal", compiled ".cr" "crystal build -o {bin} {src}" "{bin}");
    ("haskell-compile", compiled ".hs" "ghc -o {bin} {src}" "{bin}");
    ("ocamlc", compiled ".ml" "ocamlc -o {bin} {src}" "{bin}");
    ("java-openjdk", _java_openjdk_builder);
    ("java-android", _java_android_builder) ].

Definition POLYGLOT_ALIASES : dict string :=
  [ ("shell", "bash");
    ("sh", "sh");
    ("zshell", "zsh");
    ("powershell", "pwsh");
    ("ps1", "pwsh");
    ("py", "python");
    ("python3", "python");
    ("ipython", "python");
    ("javascript", "node");
    ("js", "node");
    ("nodejs", "node");
    ("ts", "deno");
    ("typescript", "deno");
    ("tsnode", "ts-node");
    ("c++", "cpp");
    ("cxx", "cpp");
    ("clang", "c");
    ("clang++", "cpp");
    ("g++", "cpp");
    ("gcc", "c");
    ("c-ir", "c-llvm");
    ("c-ll", "c-llvm");
    ("cpp-ir", "cpp-llvm");
    ("cpp-ll", "cpp-llvm");
    ("c-bc", "c-llvm-bc");
    ("cpp-bc", "cpp-llvm-bc");
    ("fortran-ll", "fortran-llvm");
    ("fortran-ir", "fortran-llvm");
    ("golang", "go");
    ("rb", "ruby");
    ("pl", "perl");
    ("ml", "ocaml");
    ("hs", "haskell");
    ("fortran90", "fortran");
    ("gfortran", "fortran");
    ("java", "java-openjdk");
    ("java-openjdk", "java-openjdk");
    ("java-android-google", "java-android");
    ("java-android", "java-android");
    ("android-java", "java-android");
    ("fishshell", "fish");
    ("shellscript", "bash");
    ("dashshell", "dash");
    ("asm86", "asm") ].

(** *** Language processing *)

(** [.] without DOTALL, and the set [[:=]]. *)
Definition any (c : ascii) : bool := negb (Ascii.eqb c (chr 10)).
Definition colon_or_equals (c : ascii) : bool :=
  Ascii.eqb c ":"%char || Ascii.eqb c "="%char.

(** [^(?:lang|language|polyglot)\s*(?:[:=]|\s+)\s*(.+)$] with
    [re.IGNORECASE]. *)
Definition template_re : Re.regex :=
  Re.Seq (Re.Alt (Re.word "lang")
                 (Re.Alt (Re.word "language") (Re.word "polyglot")))
 (Re.Seq (Re.Star is_space)
 (Re.Seq (Re.Alt (Re.Class colon_or_equals) (Re.plus is_space))
 (Re.Seq (Re.Star is_space)
 (Re.Seq (Re.Group (Re.plus any)) Re.Eol)))).

Definition _parse_polyglot_template (template : string) : option string :=
  let stripped := strip template in
  match Re.match_ template_re stripped with
  | Some (Some g) => Some (lower (strip g))
  | _ => None
  end.

Definition _canonical_lang (lang_hint : string) : string :=
  let lang_key := lower (strip lang_hint) in
  match dict_get lang_key POLYGLOT_ALIASES with
  | Some k => k
  | None => lang_key
  end.

(** The files the builder can see: a path leads to a regular file with
    its text, to something that exists but cannot be opened as a file,
    or to nothing. *)
Inductive node : Type :=
| File (content : string)
| Directory.

Definition filesystem : Type := string -> option node.

Definition isabs (path : string) : bool := startswith path "/".

(** [os.path.join(a, b)] on POSIX. *)
Definition path_join (a b : string) : string :=
  if isabs b then b
  else if is_empty a || Ascii.eqb (last (list_ascii_of_string a) "x"%char) "/"%char
       then a ++ b
       else a ++ "/" ++ b.

Definition no_base_dir : PFSyntaxError :=
  {| syn_message :=
       "Cannot resolve polyglot source file: no base directory available";
     syn_file_path := None;
     syn_suggestion := Some "Ensure the Pfyfile is in a valid directory" |}.

Definition file_not_found (full_path : string) : PFSyntaxError :=
  {| syn_message := "Polyglot source file not found: " ++ full_path;
     syn_file_path := Some full_path;
     syn_suggestion :=
       Some "Check that the file path is correct and the file exists" |}.

(** [if not x] on an optional string. *)
Definition falsy (x : option string) : bool :=
  match x with
  | None => true
  | Some s => is_empty s
  end.

Section Files.
Variable fs : filesystem.

Definition _extract_polyglot_source (cmd : string)
           (base_dir : option string)
  : result exn (string * list string * option string) :=
  match Shlex.split cmd with
  | Raise e => Raise (ValueError e)
  | Ok [] => Ok (cmd, [], None)
  | Ok (source_token :: tokens) =>
      if startswith source_token "@" || startswith source_token "file:"
      then
        match base_dir with
        | None => Raise (SyntaxError no_base_dir)
        | Some base =>
            if is_empty base then Raise (SyntaxError no_base_dir)
            else
              let rel_path :=
                if startswith source_token "@"
                then drop 1 source_token else drop 5 source_token in
              let full_path :=
                if isabs rel_path then rel_path
                else path_join base rel_path in
              match fs full_path with
              | None => Raise (SyntaxError (file_not_found full_path))
              | Some Directory =>
                  Raise (OSError ("Is a directory: " ++ full_path))
              | Some (File code) =>
                  let tokens :=
                    match tokens with
                    | t :: rest => if String.eqb t "--" then rest else tokens
                    | [] => tokens
                    end in
                  Ok (code, tokens, Some full_path)
              end
        end
      else Ok (cmd, [], None)
  end.

Definition get_supported_languages : list string :=
  sorted (keys POLYGLOT_LANGS).

Definition unknown_language (lang_key lang_hint : string)
  : PFExecutionError :=
  {| exec_message :=
       "Language '" ++ lang_key ++ "' (from '" ++ lang_hint
         ++ "') has no builder registered";
     exec_command := None;
     exec_environment := None;
     exec_suggestion :=
       Some ("Supported languages: "
               ++ join ", " (sorted (keys POLYGLOT_LANGS))) |}.

Definition render_polyglot_command (lang_hint : option string)
           (cmd : string) (working_dir : option string)
  : result exn (option string * option string) :=
  match lang_hint with
  | None => Ok (None, None)
  | Some hint =>
      if is_empty hint then Ok (None, None)
      else
        let lang_key := _canonical_lang hint in
        match dict_get lang_key POLYGLOT_LANGS with
        | None => Raise (ExecutionError (unknown_language lang_key hint))
        | Some build =>
            src <- _extract_polyglot_source cmd working_dir ;;
            let '(snippet, lang_args, _) := src in
            rendered <- build snippet lang_args ;;
            Ok (Some rendered, Some lang_key)
        end
  end.
End Files.

Definition is_supported_language (lang_hint : string) : bool :=
  dict_mem (_canonical_lang lang_hint) POLYGLOT_LANGS.

End PfPolyglot.

(** ** [pf_task_executor.py] *)

Module PfTaskExecutor.
Import Py.

(** The dictionary handed to [_execute_single_task]. *)
Record task_info : Type := {
  task_name : string;
  file_arg : option string;
  hosts_arg : option string;
  env_arg : list string;
  dry_run : bool;
  debug : bool;
  parallel : bool;
  task_args : list string
}.

(** What [future.result()] gives for a submitted task. *)
Inductive task_outcome : Type :=
| Returned (rc : Z)
| RaisedPFException (e : string)
| RaisedException (e : string).

Record batch_report : Type := {
  submitted : list task_info;      (* every call of [executor.submit] *)
  collected : list task_info;      (* [future_to_task[future]] of every
                                      turn of the collecting loop *)
  printed : list string;           (* lines written to [sys.stderr] *)
  rc_total : Z
}.

(** [a or b] on integers. *)
Definition py_or (a b : Z) : Z := if Z.eqb a 0 then b else a.

Section Executor.
(** [run_task_by_name] with the arguments of [_execute_single_task]. *)
Variable run_task_by_name : task_info -> task_outcome.
(** [format_exception_for_user(e, include_traceback=True)]. *)
Variable format_exception_for_user : string -> string.
(** The order in which [as_completed] yields the futures. *)
Variable as_completed :
  list (task_info * task_outcome) -> list (task_info * task_outcome).

Definition _execute_single_task (t : task_info) : task_outcome :=
  run_task_by_name t.

(** One turn of the collecting loop (lines 81-93): the task of the
    future is looked up, its result is read, an exception is printed and
    counts as 1, and the total is or-ed. *)
Definition collect (st : list task_info * list string * Z)
           (future : task_info * task_outcome)
  : list task_info * list string * Z :=
  let '(seen, out, total) := st in
  let task_info := fst future in
  match snd future with
  | Returned rc => ((seen ++ [task_info])%list, out, py_or total rc)
  | RaisedPFException e =>
      ((seen ++ [task_info])%list,
       (out ++ [format_exception_for_user e])%list, py_or total 1%Z)
  | RaisedException e =>
      ((seen ++ [task_info])%list,
       (out ++ [format_exception_for_user e])%list, py_or total 1%Z)
  end.

(** [ThreadPoolExecutor(max_workers=max_workers)] refuses a pool without
    workers before anything is submitted. *)
Definition no_workers : exn :=
  ValueError "max_workers must be greater than 0".

Definition execute_parallel_tasks (tasks : list task_info)
           (max_workers : Z) : result exn batch_report :=
  match tasks with
  | [] =>
      Ok {| submitted := []; collected := []; printed := [];
            rc_total := 0%Z |}
  | _ =>
      if (max_workers <=? 0)%Z then Raise no_workers
      else
        let future_to_task :=
          map (fun t => (t, _execute_single_task t)) tasks in
        let '(seen, out, total) :=
          fold_left collect (as_completed future_to_task) ([], [], 0%Z) in
        Ok {| submitted := map fst future_to_task;
              collected := seen;
              printed := out;
              rc_total := total |}
  end.

(** The exit code a task contributes to the batch. *)
Definition outcome_code (o : task_outcome) : Z :=
  match o with
  | Returned rc => rc
  | RaisedPFException _ | RaisedException _ => 1%Z
  end.
End Executor.

End PfTaskExecutor.

(** ** [pf_builtin_commands.py] *)

Module PfBuiltinCommands.
Import Py.

(** One turn of the loop that builds [reverse_aliases] in
    [handle_list_command] (lines 91-94). *)
Definition reverse_step (reverse_aliases : dict (list string))
           (item : string * string) : dict (list string) :=
  let (alias, task) := item in
  let reverse_aliases :=
    if negb (dict_mem task reverse_aliases)
    then dict_set task [] reverse_aliases
    else reverse_aliases in
  match dict_get task reverse_aliases with
  | Some aliases => dict_set task (aliases ++ [alias])%list reverse_aliases
  | None => reverse_aliases
  end.

Definition reverse_aliases (alias_map : dict string) : dict (list string) :=
  fold_left reverse_step alias_map [].

End PfBuiltinCommands.

(** ** [pf_main.py] *)

Module PfMain.
Import Py.

Definition builtins : list string :=
  ["list"; "help"; "run"; "prune"; "debug-on"; "debug-off"].

Definition is_builtin (arg : string) : bool :=
  existsb (String.eqb arg) builtins.

Section Aliases.
(** [get_alias_map(file_arg=...)] of [pf_parser]: the alias map, or an
    exception. *)
Variable get_alias_map : option string -> result exn (dict string).

(** The [while] loop of [_resolve_aliases] (lines 83-108): [seen] is
    [args[:i]] and [rest] is [args_copy[i:]]. *)
Fixpoint scan_aliases (args seen rest : list string)
         (file_arg : option string) : list string :=
  match rest with
  | [] => args
  | arg :: rest' =>
      if (String.eqb arg "-f" || String.eqb arg "--file")
         && negb (is_nil rest')
      then
        match rest' with
        | value :: rest'' =>
            scan_aliases args (seen ++ [arg; value]) rest'' (Some value)
        | [] => args
        end
      else if startswith arg "--file=" then
        scan_aliases args (seen ++ [arg]) rest'
                     (Some (snd (split_once "="%char arg)))
      else if negb (startswith arg "-") then
        if is_builtin arg then args
        else
          match get_alias_map file_arg with
          | Ok alias_map =>
              match dict_get arg alias_map with
              | Some task_name => seen ++ ["run"; task_name] ++ rest'
              | None => args
              end
          | Raise _ => args
          end
      else scan_aliases args (seen ++ [arg]) rest' file_arg
  end.

Definition _resolve_aliases (args : list string) : list string :=
  scan_aliases args [] args None.

End Aliases.

End PfMain.

(** ** [pf_subcommand_manager.py] *)

Module PfSubcommandManager.
Import Py.

(** Removing one pair of surrounding quotes (lines 90-93). *)
Definition unquote (include_path : string) : string :=
  if startswith include_path dq && endswith_char include_path (chr 34)
  then drop_last (drop 1 include_path)
  else if startswith include_path sq && endswith_char include_path (chr 39)
  then drop_last (drop 1 include_path)
  else include_path.

(** One turn of the loop of [_extract_include_files]. *)
Definition include_step (include_files : list string) (line : string)
  : list string :=
  let line := strip line in
  if startswith line "include "
  then include_files ++ [unquote (strip (drop 8 line))]
  else include_files.

Definition _extract_include_files (dsl_src : string) : list string :=
  fold_left include_step (split_nl dsl_src) [].

(** What loading or parsing a file can raise. *)
Inductive load_error : Type :=
| FileNotFoundError (path : string)
| UnboundLocalError (name : string)
| OtherError (msg : string).

Definition error_text (e : load_error) : string :=
  match e with
  | FileNotFoundError path => "[Errno 2] No such file or directory: '" ++ path ++ "'"
  | UnboundLocalError name =>
      "cannot access local variable '" ++ name
        ++ "' where it is not associated with a value"
  | OtherError msg => msg
  end.

Section Files.
(** [os.path.abspath], [os.path.dirname], [os.getcwd()] and the files. *)
Variable abspath : string -> string.
Variable dirname : string -> string.
Variable cwd : string.
Variable fs : string -> option (option string).
  (* nothing; something that [open] cannot read, with its error; a file *)

Definition exists_path (path : string) : bool :=
  match fs path with Some _ => true | None => false end.

Definition open_read (path : string) : result load_error string :=
  match fs path with
  | None => Raise (FileNotFoundError path)
  | Some None => Raise (OtherError ("cannot read " ++ path))
  | Some (Some content) => Ok content
  end.

Definition isabs (path : string) : bool := startswith path "/".

(** [os.path.join(a, b)] on POSIX. *)
Definition path_join (a b : string) : string :=
  if isabs b then b
  else if is_empty a || endswith_char a "/"%char then a ++ b
  else a ++ "/" ++ b.

Definition given (pfyfile : option string) : option string :=
  match pfyfile with
  | Some p => if is_empty p then None else Some p
  | None => None
  end.

Definition _load_include_file (include_path : string)
           (pfyfile : option string) : result load_error string :=
  (* lines 101-112: [base_dir] is bound only on the relative branch *)
  let base_dir :=
    if negb (isabs include_path) then
      Some match given pfyfile with
           | Some p => dirname (abspath p)
           | None => cwd
           end
    else None in
  let full_path :=
    match base_dir with
    | Some base => path_join base include_path
    | None => include_path
    end in
  (* lines 114-119 *)
  full_path <-
    match given pfyfile with
    | Some p =>
        if negb (exists_path full_path) then
          let pfy_resolved := abspath p in
          let base_dir :=
            if exists_path pfy_resolved
            then Some (dirname (abspath pfy_resolved)) else base_dir in
          match base_dir with
          | Some base => Ok (path_join base include_path)
          | None => Raise (UnboundLocalError "base_dir")
          end
        else Ok full_path
    | None => Ok full_path
    end ;;
  open_read full_path.

(** [_load_pfy_source_with_includes] and [parse_pfyfile_text] of
    [pf_parser]; of the loaded pair only the source text is used, of the
    parsed tasks only the names. *)
Variable load_pfy_source : option string -> result load_error string.
Variable parse_task_names : string -> result load_error (list string).

Record discovery : Type := {
  subcommands : dict (list string);
  warnings : list string               (* lines written to [sys.stderr] *)
}.

(** One turn of the loop of [discover_subcommands] (lines 40-58). *)
Definition discover_step (pfyfile : option string) (st : discovery)
           (include_file : string) : discovery :=
  let outcome :=
    include_src <- _load_include_file include_file pfyfile ;;
    parse_task_names include_src in
  match outcome with
  | Ok task_names =>
      {| subcommands := dict_set include_file task_names (subcommands st);
         warnings := warnings st |}
  | Raise (FileNotFoundError _) =>
      {| subcommands := subcommands st;
         warnings :=
           (warnings st
              ++ [("Warning: Include file not found: " ++ include_file)%string])%list |}
  | Raise e =>
      {| subcommands := subcommands st;
         warnings :=
           (warnings st
              ++ [("Warning: Could not process include file " ++ include_file
                     ++ ": " ++ error_text e)%string])%list |}
  end.

Definition discover_subcommands (pfyfile : option string) : discovery :=
  match load_pfy_source pfyfile with
  | Ok dsl_src =>
      fold_left (discover_step pfyfile) (_extract_include_files dsl_src)
                {| subcommands := []; warnings := [] |}
  | Raise (FileNotFoundError _) => {| subcommands := []; warnings := [] |}
  | Raise e =>
      {| subcommands := [];
         warnings :=
           ["Warning: Could not discover subcommands: " ++ error_text e] |}
  end.

End Files.

End PfSubcommandManager.

(** ** The specification's vocabulary *)

Module Spec.
Import Py.

(** The identifier pattern [[A-Za-z_][A-Za-z0-9_]*], matched against a
    whole name. *)
Fixpoint all_name_chars (s : string) : bool :=
  match s with
  | EmptyString => true
  | String c r => PfShell.is_name_char c && all_name_chars r
  end.

Definition is_identifier (s : string) : bool :=
  match s with
  | EmptyString => false
  | String c r => PfShell.is_name_start c && all_name_chars r
  end.

(** The characters that make a command need a shell: pipe, redirection,
    background and sequencing, backtick, dollar, globbing and braces,
    tilde, parentheses, newline. *)
Definition metacharacters : string :=
  "|><&;`$*?[]{}~()" ++ nl.

Fixpoint has_metacharacter (cmd : string) : bool :=
  match cmd with
  | EmptyString => false
  | String c r => mem_char c metacharacters || has_metacharacter r
  end.

(** The exports, then the command, as one shell string. *)
Definition exports_then (all_env : PfShell.env) (command : string)
  : string :=
  join "; " (map PfShell.export_line all_env ++ [command])%list.

(** Elevation wrapping of a composite remote command. *)
Definition elevate (sudo : bool) (sudo_user : option string)
           (full_command : string) : string :=
  if sudo then
    match sudo_user with
    | Some (String c u) =>
        "sudo -u " ++ Shlex.quote (String c u) ++ " -H bash -lc "
          ++ Shlex.quote full_command
    | _ => "sudo bash -lc " ++ Shlex.quote full_command
    end
  else full_command.

(** The echo of a command: the prefix, the prompt, the elevation marker,
    the environment and the command. *)
Definition echo_line (prefix : string) (sudo : bool)
           (display_env : PfShell.env) (command : string) : string :=
  prefix ++ "$ " ++ (if sudo then "(sudo) " else EmptyString)
    ++ join " " (map PfShell.display_item display_env ++ [command])%list.

(** The elevation prefix of an argument vector. *)
Definition sudo_prefix (sudo_user : option string) : list string :=
  match sudo_user with
  | Some (String c u) => ["sudo"; "-u"; String c u; "-H"]
  | _ => ["sudo"; "-H"]
  end.

(** Trailing arguments of a file reference: what follows the source
    token, without a leading [--]. *)
Definition trailing_args (rest : list string) : list string :=
  match rest with
  | first :: args => if String.eqb first "--" then args else rest
  | [] => []
  end.

(** A leading environment assignment, in the specification's words: the
    token contains [=], does not begin with [-], and the text before the
    first [=] is an identifier. *)
Definition is_assignment (token : string) : bool :=
  contains "=" token && negb (startswith token "-")
  && is_identifier (fst (split_once "="%char token)).

(** Storing [KEY=VALUE]: the key is mapped to the text after the first
    [=]. *)
Definition store (env_vars : PfShell.env) (token : string) : PfShell.env :=
  dict_set (fst (split_once "="%char token))
           (snd (split_once "="%char token)) env_vars.

(** The longest leading run of tokens passing a test, and what is left. *)
Fixpoint leading (test : string -> bool) (tokens : list string)
  : list string :=
  match tokens with
  | [] => []
  | t :: rest => if test t then t :: leading test rest else []
  end.

Fixpoint remaining (test : string -> bool) (tokens : list string)
  : list string :=
  match tokens with
  | [] => []
  | t :: rest => if test t then remaining test rest else tokens
  end.

(** A dictionary holds every key once. *)
Definition well_formed {V} (d : dict V) : Prop := NoDup (keys d).

End Spec.

(** * Properties *)

Import Py.

(** ** Strings *)

Lemma prefix_nil (s : string) : prefix EmptyString s = true.
Proof. destruct s; reflexivity. Qed.

Lemma contains_char (c : ascii) (s : string) :
  contains (str1 c) s = mem_char c s.
Proof.
  induction s as [|d r IH]; [reflexivity|].
  cbn [contains mem_char]. rewrite IH. f_equal.
  unfold str1. cbn [prefix]. rewrite prefix_nil.
  destruct (ascii_dec c d) as [->|ne].
  - now rewrite Ascii.eqb_refl.
  - symmetry. now apply Ascii.eqb_neq.
Qed.

Lemma prefix_mem (c : ascii) (p s : string) :
  prefix p s = true -> mem_char c p = true -> mem_char c s = true.
Proof.
  revert s. induction p as [|a p IH]; intros s Hp Hc; [discriminate|].
  destruct s as [|b s]; [discriminate|]. cbn [prefix] in Hp.
  destruct (ascii_dec a b) as [->|]; [|discriminate].
  cbn [mem_char] in *. apply orb_true_iff in Hc. apply orb_true_iff.
  destruct Hc as [Hc|Hc]; [now left|right; now apply IH].
Qed.

Lemma contains_mem (c : ascii) (p s : string) :
  contains p s = true -> mem_char c p = true -> mem_char c s = true.
Proof.
  intros H Hc. induction s as [|d r IH].
  - destruct p; [discriminate|]. cbn in H. discriminate.
  - cbn [contains] in H. apply orb_true_iff in H. destruct H as [H|H].
    + now apply (prefix_mem c p).
    + cbn [mem_char]. rewrite (IH H). apply orb_true_r.
Qed.

Lemma append_nil_r (s : string) : s ++ EmptyString = s.
Proof. induction s; cbn; congruence. Qed.

Lemma append_assoc (a b c : string) : (a ++ b) ++ c = a ++ (b ++ c).
Proof. induction a; cbn; congruence. Qed.

Lemma is_empty_true (s : string) : is_empty s = true <-> s = EmptyString.
Proof. destruct s; cbn; split; congruence. Qed.

Lemma is_empty_append (a b : string) :
  is_empty (a ++ b) = is_empty a && is_empty b.
Proof. destruct a; reflexivity. Qed.

(** ** Which commands need a shell *)

Section Metacharacters.
Import PfShell Spec.

Lemma has_metacharacter_iff (cmd : string) :
  has_metacharacter cmd = true <->
  exists c, mem_char c metacharacters = true /\ mem_char c cmd = true.
Proof.
  induction cmd as [|d r IH]; cbn [has_metacharacter mem_char].
  - split; [discriminate|]. now intros (c & _ & H).
  - rewrite orb_true_iff, IH. split.
    + intros [H|(c & Hc & Hr)].
      * exists d. split; [exact H|]. now rewrite Ascii.eqb_refl.
      * exists c. split; [exact Hc|]. rewrite Hr. apply orb_true_r.
    + intros (c & Hc & H). apply orb_true_iff in H.
      destruct H as [H|H].
      * apply Ascii.eqb_eq in H. subst. now left.
      * right. now exists c.
Qed.

Lemma shell_chars_meta (pat : string) :
  In pat shell_chars ->
  exists c, mem_char c pat = true /\ mem_char c metacharacters = true.
Proof.
  unfold shell_chars. cbn [In]. intros H.
  repeat (destruct H as [<-|H];
          [first [ exists ">"%char; split; reflexivity
                 | exists (chr 10); split; reflexivity
                 | match goal with
                   | |- exists c, mem_char c (String ?a _) = true /\ _ =>
                       exists a; split; reflexivity
                   end ]|]).
  contradiction.
Qed.

Lemma metacharacters_listed (c : ascii) :
  mem_char c metacharacters = true -> In (str1 c) shell_chars.
Proof.
  unfold metacharacters. cbn [mem_char append nl str1]. intros H.
  repeat (apply orb_true_iff in H; destruct H as [H|H];
          [apply Ascii.eqb_eq in H; subst c; cbv; tauto|]).
  discriminate.
Qed.

(** The compound operators of the list add nothing: the test is the
    occurrence of one of the single characters. *)
Lemma has_shell_metacharacters_spec (cmd : string) :
  _has_shell_metacharacters cmd = has_metacharacter cmd.
Proof.
  apply eq_true_iff_eq. rewrite has_metacharacter_iff.
  unfold _has_shell_metacharacters. rewrite existsb_exists. split.
  - intros (pat & Hin & Hc).
    destruct (shell_chars_meta pat Hin) as (c & Hp & Hm).
    exists c. split; [exact Hm|]. now apply (contains_mem c pat).
  - intros (c & Hm & Hc). exists (str1 c). split.
    + now apply metacharacters_listed.
    + now rewrite contains_char.
Qed.

End Metacharacters.

(** ** C1: argument vectors without elevation *)

Definition unbalanced_echo : string := "echo " ++ dq ++ "hi".

(** C1, as stated, fails: an [echo] whose double quote is never closed
    holds no shell metacharacter, yet it does not tokenize, and the
    builder answers with the shell-wrapped vector instead of a direct
    one. *)
Lemma secure_args_unbalanced_quote_goes_to_shell :
  Spec.has_metacharacter unbalanced_echo = false /\
  PfShell._build_secure_command_args unbalanced_echo [] None false None
    = Ok ["bash"; "-c"; unbalanced_echo] /\
  ~ (exists argv,
        Shlex.split unbalanced_echo = Ok argv /\
        PfShell._build_secure_command_args unbalanced_echo [] None false None
          = Ok argv).
Proof.
  split; [reflexivity|]. split; [reflexivity|].
  intros (argv & H & _). vm_compute in H. discriminate.
Qed.

(** C1, amended: without elevation, a command holding a shell
    metacharacter is built as [bash -c command]; a command holding none
    is built as its own tokens when it tokenizes, and as [bash -c command]
    when tokenizing fails. *)
Theorem secure_args_without_sudo
  (command : string) (env_vars : PfShell.env)
  (task_env : option PfShell.env) (sudo_user : option string) :
  let built :=
    PfShell._build_secure_command_args command env_vars task_env false sudo_user in
  (Spec.has_metacharacter command = true ->
     built = Ok ["bash"; "-c"; command]) /\
  (Spec.has_metacharacter command = false ->
     forall argv, Shlex.split command = Ok argv -> built = Ok argv) /\
  (Spec.has_metacharacter command = false ->
     forall e, Shlex.split command = Raise e ->
     built = Ok ["bash"; "-c"; command]).
Proof.
  cbv zeta. unfold PfShell._build_secure_command_args.
  rewrite has_shell_metacharacters_spec.
  repeat split; intros H; [now rewrite H| |];
    intros x Hx; now rewrite H, Hx.
Qed.

Lemma secure_args_without_sudo_witness :
  PfShell._build_secure_command_args "echo hi && echo bye" [] None false None
    = Ok ["bash"; "-c"; "echo hi && echo bye"] /\
  PfShell._build_secure_command_args "node server.js" [] None false None
    = Ok ["node"; "server.js"] /\
  PfShell._build_secure_command_args unbalanced_echo [] None false None
    = Ok ["bash"; "-c"; unbalanced_echo].
Proof.
  split; [|split].
  - destruct (secure_args_without_sudo "echo hi && echo bye" [] None None)
      as (H & _ & _).
    apply H. reflexivity.
  - destruct (secure_args_without_sudo "node server.js" [] None None)
      as (_ & H & _).
    apply H; reflexivity.
  - destruct (secure_args_without_sudo unbalanced_echo [] None None)
      as (_ & _ & H).
    apply H with (e := Shlex.no_closing_quotation); reflexivity.
Defined.

(** ** The command parser *)

Section Parser.
Import PfShell.

Lemma scan_env_leading (tokens : list string) (env_vars : env) :
  scan_env tokens env_vars =
  (fold_left Spec.store (Spec.leading is_assignment tokens) env_vars,
   Spec.remaining is_assignment tokens).
Proof.
  revert env_vars. induction tokens as [|t rest IH]; intros env_vars.
  - reflexivity.
  - cbn [scan_env Spec.leading Spec.remaining]. unfold is_assignment.
    destruct (contains "=" t && negb (startswith t "-")); cbn [andb].
    + destruct (split_once "="%char t) as [key value] eqn:E. cbn [fst snd].
      destruct (env_name_match key).
      * rewrite IH. cbn [fold_left].
        replace (Spec.store env_vars t) with (dict_set key value env_vars)
          by (unfold Spec.store; now rewrite E).
        reflexivity.
      * reflexivity.
    + reflexivity.
Qed.

(** What the parser returns on a line that tokenizes: the assignments of
    the longest leading run, stored in order, and the re-quoted rest. *)
Lemma parse_shell_command_leading (cmd_line : string) (tokens : list string) :
  Shlex.split cmd_line = Ok tokens ->
  parse_shell_command cmd_line =
  Ok (fold_left Spec.store (Spec.leading is_assignment tokens) [],
      join " " (map Shlex.quote (Spec.remaining is_assignment tokens))).
Proof.
  intros H. unfold parse_shell_command. rewrite H, scan_env_leading.
  now destruct (Spec.remaining is_assignment tokens).
Qed.

Lemma parse_shell_command_unparsable (cmd_line e : string) :
  Shlex.split cmd_line = Raise e ->
  parse_shell_command cmd_line = Raise (parse_error cmd_line e).
Proof. intros H. unfold parse_shell_command. now rewrite H. Qed.

(** The scenario of the specification. *)
Example parse_port_scenario :
  parse_shell_command "PORT=8080 node server.js"
  = Ok ([("PORT", "8080")], "node server.js").
Proof. reflexivity. Qed.

(** The pattern of the code against the identifiers of the
    specification: the code also takes an identifier followed by one
    final newline. *)
Lemma name_tail_iff (s : string) :
  name_tail s = true <->
  Spec.all_name_chars s = true \/
  exists id, s = id ++ nl /\ Spec.all_name_chars id = true.
Proof.
  induction s as [|c r IH]; cbn [name_tail Spec.all_name_chars].
  - split; [now left|reflexivity].
  - destruct (is_name_char c) eqn:Ec; cbn [andb].
    + rewrite IH. split.
      * intros [H|(id & -> & H)]; [now left|right].
        exists (String c id). cbn. now rewrite Ec.
      * intros [H|(id & E & H)]; [now left|right].
        destruct id as [|d id]; cbn in E; inversion E; subst.
        -- cbn in Ec. discriminate.
        -- exists id. split; [reflexivity|].
           cbn in H. now apply andb_true_iff in H.
    + split.
      * intros H. apply andb_true_iff in H. destruct H as [H1 H2].
        apply Ascii.eqb_eq in H1. apply is_empty_true in H2. subst.
        right. now exists EmptyString.
      * intros [H|(id & E & H)]; [discriminate|].
        destruct id as [|d id]; cbn in E; inversion E; subst.
        -- reflexivity.
        -- cbn in H. rewrite Ec in H. discriminate.
Qed.

Lemma env_name_match_iff (key : string) :
  env_name_match key = true <->
  Spec.is_identifier key = true \/
  exists id, key = id ++ nl /\ Spec.is_identifier id = true.
Proof.
  destruct key as [|c r]; cbn [env_name_match Spec.is_identifier].
  - split; [discriminate|]. intros [H|(id & E & H)]; [discriminate|].
    destruct id; discriminate.
  - rewrite andb_true_iff, name_tail_iff. split.
    + intros [Hc [H|(id & -> & H)]].
      * left. now rewrite Hc.
      * right. exists (String c id). split; [reflexivity|].
        cbn. now rewrite Hc.
    + intros [H|(id & E & H)].
      * apply andb_true_iff in H. tauto.
      * destruct id as [|d id]; cbn in E; inversion E; subst.
        -- discriminate.
        -- cbn in H. apply andb_true_iff in H. destruct H as [Hd H].
           split; [exact Hd|]. right. now exists id.
Qed.

Lemma spec_assignment_accepted (token : string) :
  Spec.is_assignment token = true -> is_assignment token = true.
Proof.
  unfold Spec.is_assignment, is_assignment.
  intros H. apply andb_true_iff in H. destruct H as [-> H].
  cbn [andb]. apply env_name_match_iff. now left.
Qed.

End Parser.

(** ** C2: leading environment assignments *)

Definition newline_name_line : string := "'A" ++ nl ++ "=1' x".

(** C2 at a line whose first token is [A], a newline, then [=1]: the text
    before [=] is not an identifier, so the specification keeps the token
    in the command and returns no assignment; the code stores it, under a
    name that ends in a newline. *)
Theorem parse_stores_newline_terminated_name :
  Shlex.split newline_name_line = Ok ["A" ++ nl ++ "=1"; "x"] /\
  Spec.is_assignment ("A" ++ nl ++ "=1") = false /\
  Spec.leading Spec.is_assignment ["A" ++ nl ++ "=1"; "x"] = [] /\
  PfShell.parse_shell_command newline_name_line
    = Ok ([("A" ++ nl, "1")], "x").
Proof. repeat split. Qed.

Lemma mem_char_append (c : ascii) (a b : string) :
  mem_char c (a ++ b) = mem_char c a || mem_char c b.
Proof.
  induction a as [|d a IH]; [reflexivity|].
  cbn [append mem_char]. now rewrite IH, orb_assoc.
Qed.

Lemma split_once_key_mem (c sep : ascii) (s : string) :
  mem_char c (fst (split_once sep s)) = true -> mem_char c s = true.
Proof.
  induction s as [|d r IH]; cbn [split_once]; [discriminate|].
  destruct (Ascii.eqb d sep); [discriminate|].
  destruct (split_once sep r) as [k v]. cbn [fst mem_char] in *.
  intros H. apply orb_true_iff in H. apply orb_true_iff.
  destruct H; [now left|right; auto].
Qed.

Lemma is_assignment_without_newline (token : string) :
  mem_char (chr 10) token = false ->
  PfShell.is_assignment token = Spec.is_assignment token.
Proof.
  intros Hn. apply eq_true_iff_eq. split; [|apply spec_assignment_accepted].
  unfold PfShell.is_assignment, Spec.is_assignment.
  intros H. apply andb_true_iff in H. destruct H as [-> H]. cbn [andb].
  apply env_name_match_iff in H. destruct H as [H|(id & E & _)]; [exact H|].
  assert (Hk : mem_char (chr 10) (fst (split_once "="%char token)) = true).
  { rewrite E, mem_char_append. apply orb_true_r. }
  apply split_once_key_mem in Hk. congruence.
Qed.

Lemma leading_ext (f g : string -> bool) (tokens : list string) :
  (forall t, In t tokens -> f t = g t) ->
  Spec.leading f tokens = Spec.leading g tokens /\
  Spec.remaining f tokens = Spec.remaining g tokens.
Proof.
  induction tokens as [|t rest IH]; intros H; [now split|].
  cbn [Spec.leading Spec.remaining].
  rewrite (H t (or_introl eq_refl)).
  destruct IH as [-> ->]; [intros; apply H; now right|].
  now destruct (g t).
Qed.

(** Away from names that end in a newline the parser does what the
    specification says: on a line whose tokens hold no newline, the
    environment is that of the longest leading run of assignments with
    identifier names, and the command is the re-quoted rest. *)
Lemma parse_shell_command_identifiers (cmd_line : string)
  (tokens : list string) :
  Shlex.split cmd_line = Ok tokens ->
  (forall t, In t tokens -> mem_char (chr 10) t = false) ->
  PfShell.parse_shell_command cmd_line =
  Ok (fold_left Spec.store (Spec.leading Spec.is_assignment tokens) [],
      join " " (map Shlex.quote (Spec.remaining Spec.is_assignment tokens))).
Proof.
  intros Hs Hn. rewrite (parse_shell_command_leading _ _ Hs).
  destruct (leading_ext PfShell.is_assignment Spec.is_assignment tokens)
    as [-> ->]; [|reflexivity].
  intros t Ht. apply is_assignment_without_newline. now apply Hn.
Qed.

(** ** C9: a line of assignments only *)

Lemma remaining_all (test : string -> bool) (tokens : list string) :
  forallb test tokens = true -> Spec.remaining test tokens = [].
Proof.
  induction tokens as [|t rest IH]; [reflexivity|].
  cbn [forallb Spec.remaining]. intros H. apply andb_true_iff in H.
  destruct H as [-> H]. now apply IH.
Qed.

Lemma remaining_not_all (test : string -> bool) (tokens : list string) :
  forallb test tokens = false -> Spec.remaining test tokens <> [].
Proof.
  induction tokens as [|t rest IH]; [discriminate|].
  cbn [forallb Spec.remaining]. destruct (test t); cbn [andb].
  - exact IH.
  - discriminate.
Qed.

Lemma quote_not_empty (s : string) : is_empty (Shlex.quote s) = false.
Proof.
  unfold Shlex.quote. destruct s as [|c r]; [reflexivity|].
  cbn [is_empty]. now destruct (Shlex.all_safe (String c r)).
Qed.

Lemma join_not_empty (sep x : string) (l : list string) :
  is_empty x = false -> is_empty (join sep (x :: l)) = false.
Proof.
  intros H. unfold join. cbn [concat]. destruct l; [exact H|].
  rewrite is_empty_append, H. reflexivity.
Qed.

(** The command left by the parser is empty exactly when every token is
    an assignment. *)
Lemma parse_command_empty_iff (cmd_line : string) (tokens : list string)
  (env_vars : PfShell.env) (command : string) :
  Shlex.split cmd_line = Ok tokens ->
  PfShell.parse_shell_command cmd_line = Ok (env_vars, command) ->
  (is_empty command = true <-> forallb PfShell.is_assignment tokens = true).
Proof.
  intros Hs Hp. rewrite (parse_shell_command_leading _ _ Hs) in Hp.
  inversion Hp as [[He Hc]]. clear Hp He. split.
  - intros H. destruct (forallb PfShell.is_assignment tokens) eqn:E;
      [reflexivity|].
    apply remaining_not_all in E.
    destruct (Spec.remaining PfShell.is_assignment tokens) as [|t r];
      [congruence|].
    cbn [map] in H. rewrite join_not_empty in H; [discriminate|].
    apply quote_not_empty.
  - intros H. now rewrite (remaining_all _ _ H).
Qed.

Definition empty_command_warning (prefix : string) : PfShell.event :=
  PfShell.Printed
    (prefix ++ "[warn] Empty command after parsing environment variables").

(** C9: when every token of the line is a leading environment assignment
    (or there is no token at all), [execute_shell_command] prints the
    warning and returns 0; it spawns no local process and runs nothing
    on the connection. *)
Theorem all_assignments_is_silent_success
  (os_environ : PfShell.env)
  (popen : list string -> PfShell.env -> PfShell.popen_outcome)
  (cmd_line : string) (tokens : list string)
  (task_env : option PfShell.env) (sudo : bool) (sudo_user : option string)
  (connection : option (string -> PfShell.remote_outcome))
  (prefix : string) :
  Shlex.split cmd_line = Ok tokens ->
  forallb PfShell.is_assignment tokens = true ->
  let run :=
    PfShell.execute_shell_command os_environ popen cmd_line task_env
                                  sudo sudo_user connection prefix in
  run = ([empty_command_warning prefix], Ok 0%Z) /\
  existsb PfShell.is_spawn (fst run) = false.
Proof.
  intros Hs Ha. cbv zeta. unfold PfShell.execute_shell_command.
  rewrite (parse_shell_command_leading _ _ Hs), (remaining_all _ _ Ha).
  cbn. split; reflexivity.
Qed.

Lemma all_assignments_is_silent_success_witness :
  let run :=
    PfShell.execute_shell_command
      [("HOME", "/root")] (fun _ _ => PfShell.Exited 7)
      "PORT=8080 DEBUG=1" None true (Some "root") None "[t] " in
  run = ([empty_command_warning "[t] "], Ok 0%Z) /\
  existsb PfShell.is_spawn (fst run) = false.
Proof.
  apply (all_assignments_is_silent_success
           [("HOME", "/root")] (fun _ _ => PfShell.Exited 7)
           "PORT=8080 DEBUG=1" ["PORT=8080"; "DEBUG=1"]);
    reflexivity.
Defined.

(** ** Quoting and splitting *)

Section QuoteRoundTrip.
Import Shlex.

Lemma safe_char_plain (c : ascii) :
  is_safe c = true ->
  is_whitespace c = false /\ is_escape c = false /\ is_quote c = false.
Proof.
  destruct c as [[] [] [] [] [] [] [] []]; vm_compute;
    intros H; try discriminate H; now repeat split.
Qed.

Lemma lex_safe_word (t rest cur : string) (qd : bool) (acc : list string) :
  all_safe t = true ->
  lex (t ++ rest) InWord cur qd acc = lex rest InWord (cur ++ t) qd acc.
Proof.
  revert cur. induction t as [|c t IH]; intros cur Hs.
  - now rewrite append_nil_r.
  - cbn [all_safe] in Hs. apply andb_true_iff in Hs. destruct Hs as [Hc Hs].
    destruct (safe_char_plain c Hc) as (Hw & He & Hq).
    cbn [append lex]. rewrite Hw, Hq, He, (IH _ Hs). unfold push.
    now rewrite append_assoc.
Qed.

Lemma lex_safe_token (t rest : string) (acc : list string) :
  all_safe t = true -> is_empty t = false ->
  lex (t ++ rest) InWhitespace EmptyString false acc
  = lex rest InWord t false acc.
Proof.
  destruct t as [|c t]; [discriminate|]. intros Hs _.
  cbn [all_safe] in Hs. apply andb_true_iff in Hs. destruct Hs as [Hc Hs].
  destruct (safe_char_plain c Hc) as (Hw & He & Hq).
  cbn [append lex]. rewrite Hw, Hq, He. now rewrite (lex_safe_word _ _ _ _ _ Hs).
Qed.

(** Inside single quotes: every character is taken as it is, and a single
    quote of the token, written as a closed quote, a double-quoted single
    quote and a reopened quote, comes back as itself. *)
Lemma lex_single_quoted (t rest cur : string) (qd : bool)
  (acc : list string) :
  lex (replace_char "'"%char (sq ++ dq ++ sq ++ dq ++ sq) t ++ sq ++ rest)
      (InQuote "'"%char) cur qd acc
  = lex rest InWord (cur ++ t) true acc.
Proof.
  revert cur qd. induction t as [|c t IH]; intros cur qd.
  - cbn. now rewrite append_nil_r.
  - cbn [replace_char]. destruct (Ascii.eqb c "'"%char) eqn:E.
    + apply Ascii.eqb_eq in E. subst c.
      rewrite !append_assoc. cbn. rewrite IH. unfold push.
      now rewrite append_assoc.
    + cbn [append lex]. rewrite E.
      replace (is_escape c && is_escapedquote "'"%char) with false
        by (cbn; now rewrite andb_false_r).
      rewrite IH. unfold push. now rewrite append_assoc.
Qed.

(** Reading a quoted token gives the token back, as a word in progress
    that will be emitted even when it is empty. *)
Lemma lex_quote_token (t rest : string) (acc : list string) :
  exists qd,
    lex (quote t ++ rest) InWhitespace EmptyString false acc
    = lex rest InWord t qd acc
    /\ negb (is_empty t) || qd = true.
Proof.
  unfold quote. destruct (is_empty t) eqn:Ee.
  - apply is_empty_true in Ee. subst t. exists true. now split.
  - destruct (all_safe t) eqn:Es.
    + exists false. split; [now apply lex_safe_token|reflexivity].
    + exists true. split; [|reflexivity].
      rewrite !append_assoc. cbn [sq str1 append lex].
      change (is_whitespace (chr 39)) with false.
      change (is_escape (chr 39)) with false.
      change (is_quote (chr 39)) with true. cbv iota.
      apply (lex_single_quoted t rest EmptyString false acc).
Qed.

Lemma lex_quoted_tokens (tokens acc : list string) :
  lex (join " " (map quote tokens)) InWhitespace EmptyString false acc
  = Ok (rev acc ++ tokens)%list.
Proof.
  revert acc. induction tokens as [|t ts IH]; intros acc.
  - cbn. now rewrite app_nil_r.
  - unfold join in *. cbn [map concat].
    destruct ts as [|t2 ts].
    + cbn [map]. rewrite <- (append_nil_r (quote t)).
      destruct (lex_quote_token t EmptyString acc) as (qd & -> & Hq).
      cbn [lex]. now rewrite Hq.
    + cbn [map] in *.
      destruct (lex_quote_token t (" " ++ concat " " (quote t2 :: map quote ts)) acc)
        as (qd & -> & Hq).
      cbn [append lex].
      change (is_whitespace " "%char) with true. cbv iota.
      rewrite Hq, IH. cbn [rev]. now rewrite <- app_assoc.
Qed.

(** Splitting the join of quoted tokens gives the tokens back. *)
Lemma split_quoted_tokens (tokens : list string) :
  split (join " " (map quote tokens)) = Ok tokens.
Proof. unfold split. now rewrite lex_quoted_tokens. Qed.

(** The command the parser hands on always tokenizes, to the tokens that
    were left after the assignments. *)
Lemma parsed_command_tokenizes (cmd_line : string) (tokens : list string)
  (env_vars : PfShell.env) (command : string) :
  split cmd_line = Ok tokens ->
  PfShell.parse_shell_command cmd_line = Ok (env_vars, command) ->
  split command = Ok (Spec.remaining PfShell.is_assignment tokens).
Proof.
  intros Hs Hp. rewrite (parse_shell_command_leading _ _ Hs) in Hp.
  injection Hp as _ <-. apply split_quoted_tokens.
Qed.

(** So a local run without elevation never takes the fallback: the
    vector given to [Popen] is the shell wrapping of a command that holds
    a metacharacter, and the remaining tokens otherwise. *)
Lemma executed_argv_without_sudo
  (os_environ : PfShell.env)
  (popen : list string -> PfShell.env -> PfShell.popen_outcome)
  (cmd_line : string) (tokens : list string) (env_vars : PfShell.env)
  (command : string) (task_env : option PfShell.env)
  (sudo_user : option string) (prefix : string) :
  split cmd_line = Ok tokens ->
  PfShell.parse_shell_command cmd_line = Ok (env_vars, command) ->
  is_empty command = false ->
  exists echo,
    fst (PfShell.execute_shell_command os_environ popen cmd_line task_env
                                       false sudo_user None prefix)
    = [ PfShell.Printed echo;
        PfShell.Spawned
          (if Spec.has_metacharacter command then ["bash"; "-c"; command]
           else Spec.remaining PfShell.is_assignment tokens)
          (PfShell.merge_env os_environ task_env env_vars) ].
Proof.
  intros Hs Hp Hne.
  pose proof (parsed_command_tokenizes _ _ _ _ Hs Hp) as Ht.
  unfold PfShell.execute_shell_command, PfShell._build_secure_command_args.
  rewrite Hp, Hne, has_shell_metacharacters_spec, Ht.
  eexists.
  destruct (Spec.has_metacharacter command); destruct (popen _ _);
    reflexivity.
Qed.

End QuoteRoundTrip.

(** ** Dictionaries *)

Section Dictionaries.
Context {V : Type}.
Implicit Types (d other : dict V) (k : string) (v : V).

Lemma dict_get_set_same k v d : dict_get k (dict_set k v d) = Some v.
Proof.
  induction d as [|[k' v'] r IH]; cbn [dict_set dict_get].
  - now rewrite String.eqb_refl.
  - destruct (String.eqb k k') eqn:E; cbn [dict_get].
    + now rewrite String.eqb_refl.
    + now rewrite E.
Qed.

Lemma dict_get_set_other k k' v d :
  k <> k' -> dict_get k (dict_set k' v d) = dict_get k d.
Proof.
  intros ne. apply String.eqb_neq in ne.
  induction d as [|[k2 v2] r IH]; cbn [dict_set dict_get].
  - now rewrite ne.
  - destruct (String.eqb k' k2) eqn:E; cbn [dict_get].
    + apply String.eqb_eq in E. subst k2. now rewrite ne.
    + now rewrite IH.
Qed.

Lemma dict_get_None k d : dict_get k d = None <-> ~ In k (keys d).
Proof.
  induction d as [|[k' v'] r IH]; cbn [dict_get keys map In fst].
  - tauto.
  - destruct (String.eqb k k') eqn:E.
    + apply String.eqb_eq in E. subst. split; [discriminate|tauto].
    + apply String.eqb_neq in E. unfold keys in IH. rewrite IH.
      split; [intros H [H'|H']; congruence|tauto].
Qed.

Lemma dict_get_In k v d : dict_get k d = Some v -> In (k, v) d.
Proof.
  induction d as [|[k' v'] r IH]; cbn [dict_get In]; [discriminate|].
  destruct (String.eqb k k') eqn:E.
  - apply String.eqb_eq in E. intros [= ->]. left. now subst.
  - auto.
Qed.

Lemma dict_update_cons d k v other :
  dict_update d ((k, v) :: other) = dict_update (dict_set k v d) other.
Proof. reflexivity. Qed.

Lemma dict_update_absent k d other :
  ~ In k (keys other) -> dict_get k (dict_update d other) = dict_get k d.
Proof.
  revert d. induction other as [|[k' v'] o IH]; intros d H; [reflexivity|].
  rewrite dict_update_cons, IH.
  - apply dict_get_set_other. intros ->. apply H. now left.
  - intros H'. apply H. now right.
Qed.

(** The updating dictionary wins on every key it holds. *)
Lemma dict_update_wins k v d other :
  Spec.well_formed other ->
  dict_get k other = Some v ->
  dict_get k (dict_update d other) = Some v.
Proof.
  unfold Spec.well_formed. revert d.
  induction other as [|[k' v'] o IH]; intros d Hwf Hg; [discriminate|].
  cbn [keys map fst] in Hwf. inversion Hwf as [|? ? Hnotin Hwf']; subst.
  rewrite dict_update_cons. cbn [dict_get] in Hg.
  destruct (String.eqb k k') eqn:E.
  - apply String.eqb_eq in E. injection Hg as ->. subst k'.
    rewrite dict_update_absent by exact Hnotin.
    apply dict_get_set_same.
  - now apply IH.
Qed.

Lemma keys_dict_set k v d :
  keys (dict_set k v d)
  = if dict_mem k d then keys d else (keys d ++ [k])%list.
Proof.
  unfold dict_mem.
  induction d as [|[k' v'] r IH]; cbn [dict_set dict_get keys map fst app].
  - reflexivity.
  - destruct (String.eqb k k') eqn:E; cbn [keys map fst].
    + apply String.eqb_eq in E. now subst.
    + unfold keys in IH. rewrite IH. now destruct (dict_get k r).
Qed.

Lemma dict_set_well_formed k v d :
  Spec.well_formed d -> Spec.well_formed (dict_set k v d).
Proof.
  unfold Spec.well_formed. intros H. rewrite keys_dict_set.
  unfold dict_mem. destruct (dict_get k d) eqn:E; [exact H|].
  apply dict_get_None in E.
  apply NoDup_rev in H. rewrite <- (rev_involutive (keys d ++ [k])).
  apply NoDup_rev. rewrite rev_app_distr. cbn.
  constructor; [now rewrite <- in_rev|exact H].
Qed.

Lemma dict_update_well_formed d other :
  Spec.well_formed d -> Spec.well_formed (dict_update d other).
Proof.
  revert d. induction other as [|[k v] o IH]; intros d H; [exact H|].
  rewrite dict_update_cons. apply IH. now apply dict_set_well_formed.
Qed.


(** Without a shared key, updating appends. *)
Lemma dict_update_disjoint d other :
  NoDup (keys d ++ keys other) -> dict_update d other = (d ++ other)%list.
Proof.
  revert d. induction other as [|[k v] o IH]; intros d H.
  - symmetry. apply app_nil_r.
  - rewrite dict_update_cons.
    assert (Hk : dict_set k v d = (d ++ [(k, v)])%list).
    { assert (Hn : ~ In k (keys d)).
      { cbn [keys map fst] in H. apply NoDup_remove_2 in H.
        intros Hin. apply H. apply in_or_app. now left. }
      clear - Hn. induction d as [|[k2 v2] r IHd]; [reflexivity|].
      cbn [dict_set app]. destruct (String.eqb k k2) eqn:E.
      - apply String.eqb_eq in E. subst. exfalso. apply Hn. now left.
      - rewrite IHd; [reflexivity|]. intros Hin. apply Hn. now right. }
    rewrite Hk, IH.
    + now rewrite <- app_assoc.
    + unfold keys in *. rewrite map_app, <- app_assoc. exact H.
Qed.

End Dictionaries.

Lemma join_snoc (sep x : string) (l : list string) :
  join sep (l ++ [x]) =
  match l with
  | [] => x
  | _ => join sep l ++ sep ++ x
  end.
Proof.
  unfold join. induction l as [|a l IH]; [reflexivity|].
  cbn [app concat]. destruct l as [|b l]; [reflexivity|].
  cbn [app] in *. rewrite IH. now rewrite !append_assoc.
Qed.

(** ** The merged environment *)

Section Environment.
Import PfShell.

Lemma user_given_prefix (sudo_user : option string) :
  (["sudo"] ++ match user_given sudo_user with
               | Some u => ["-u"; u]
               | None => []
               end ++ ["-H"])%list
  = Spec.sudo_prefix sudo_user.
Proof. destruct sudo_user as [[|c u]|]; reflexivity. Qed.

Lemma merge_env_well_formed (base : env) (task_env : option env)
  (env_vars : env) :
  Spec.well_formed base -> Spec.well_formed (merge_env base task_env env_vars).
Proof.
  intros H. unfold merge_env. apply dict_update_well_formed.
  destruct task_env as [te|]; [|exact H].
  destruct (is_nil te); [exact H|]. now apply dict_update_well_formed.
Qed.

Lemma merge_env_wins (base : env) (task_env : option env) (env_vars : env)
  (k v : string) :
  Spec.well_formed env_vars ->
  dict_get k env_vars = Some v ->
  dict_get k (merge_env base task_env env_vars) = Some v.
Proof. intros. unfold merge_env. now apply dict_update_wins. Qed.

(** With distinct keys throughout, the task environment comes first and
    the command-line assignments follow. *)
Lemma merge_env_order (task_env env_vars : env) :
  NoDup (keys task_env ++ keys env_vars) ->
  merge_env [] (Some task_env) env_vars = (task_env ++ env_vars)%list.
Proof.
  intros H. unfold merge_env.
  destruct task_env as [|kv te]; cbn [is_nil].
  - now apply (dict_update_disjoint []).
  - rewrite (dict_update_disjoint [] (kv :: te)).
    + now apply dict_update_disjoint.
    + now apply NoDup_app_remove_r in H.
Qed.

Lemma store_well_formed (tokens : list string) (env_vars : env) :
  Spec.well_formed env_vars ->
  Spec.well_formed (fold_left Spec.store tokens env_vars).
Proof.
  revert env_vars. induction tokens as [|t r IH]; intros e H; [exact H|].
  cbn [fold_left]. apply IH. now apply dict_set_well_formed.
Qed.

Lemma parsed_env_well_formed (cmd_line : string) (env_vars : env)
  (command : string) :
  parse_shell_command cmd_line = Ok (env_vars, command) ->
  Spec.well_formed env_vars.
Proof.
  destruct (Shlex.split cmd_line) as [tokens|e] eqn:Hs.
  - rewrite (parse_shell_command_leading _ _ Hs). intros [= <- _].
    apply store_well_formed. constructor.
  - rewrite (parse_shell_command_unparsable _ _ Hs). discriminate.
Qed.

Lemma build_shell_command_exports (env_vars : env) (command : string)
  (task_env : option env) (sudo : bool) (sudo_user : option string) :
  build_shell_command env_vars command task_env sudo sudo_user
  = Spec.elevate sudo sudo_user
      (Spec.exports_then (merge_env [] task_env env_vars) command).
Proof.
  unfold build_shell_command, Spec.elevate, Spec.exports_then.
  rewrite join_snoc.
  destruct sudo; [destruct sudo_user as [[|c u]|]|]; reflexivity.
Qed.

End Environment.

(** ** C10: the command line's assignments override the task's *)



Section Precedence.
Import PfShell.







End Precedence.


Definition port_task_env : PfShell.env :=
  [("PORT", "8080"); ("HOST", "example.org")].



(** ** C7: elevation *)

Lemma exports_then_cases (all_env : PfShell.env) (command : string) :
  match all_env with
  | [] => command
  | _ => join "; " (map PfShell.export_line all_env) ++ "; " ++ command
  end = Spec.exports_then all_env command.
Proof.
  unfold Spec.exports_then. rewrite join_snoc. now destruct all_env.
Qed.

(** C7: with elevation the vector starts with [sudo], then [-u user]
    exactly when a non-empty user is given, then [-H].  A command that
    needs a shell follows as [bash -c] and one string: the exports of the
    merged environment (task first, command line over it), then the
    command.  A command that needs none follows as its tokens; the vector
    then does not depend on the environment, which reaches the process
    through [Popen]'s [env] alone.  Executing a line with elevation
    always builds such a vector: the command left by the parser
    tokenizes. *)
Theorem sudo_wrapping
  (command : string) (env_vars : PfShell.env)
  (task_env : option PfShell.env) (sudo_user : option string) :
  let built :=
    PfShell._build_secure_command_args command env_vars task_env true sudo_user in
  let shell_argv :=
    ["bash"; "-c";
     Spec.exports_then (PfShell.merge_env [] task_env env_vars) command] in
  (Spec.has_metacharacter command = true ->
     built = Ok (Spec.sudo_prefix sudo_user ++ shell_argv)%list) /\
  (Spec.has_metacharacter command = false ->
   forall argv, Shlex.split command = Ok argv ->
     built = Ok (Spec.sudo_prefix sudo_user ++ argv)%list /\
     built = PfShell._build_secure_command_args command [] None true sudo_user) /\
  (forall os_environ popen cmd_line tokens prefix,
     Shlex.split cmd_line = Ok tokens ->
     PfShell.parse_shell_command cmd_line = Ok (env_vars, command) ->
     is_empty command = false ->
     fst (PfShell.execute_shell_command os_environ popen cmd_line task_env
                                        true sudo_user None prefix)
     = [ PfShell.Printed
           (Spec.echo_line prefix true
              (PfShell.merge_env [] task_env env_vars) command);
         PfShell.Spawned
           (Spec.sudo_prefix sudo_user
              ++ if Spec.has_metacharacter command then shell_argv
                 else Spec.remaining PfShell.is_assignment tokens)%list
           (PfShell.merge_env os_environ task_env env_vars) ]).
Proof.
  cbv zeta. unfold PfShell._build_secure_command_args.
  rewrite has_shell_metacharacters_spec, !user_given_prefix.
  split; [|split].
  - intros ->. now rewrite exports_then_cases.
  - intros Hm argv Hs. rewrite Hm, Hs. now split.
  - intros os_environ popen cmd_line tokens prefix Hs Hp Hne.
    pose proof (parsed_command_tokenizes _ _ _ _ Hs Hp) as Ht.
    unfold PfShell.execute_shell_command, PfShell._build_secure_command_args.
    rewrite Hp, Hne, has_shell_metacharacters_spec, Ht, user_given_prefix.
    rewrite exports_then_cases.
    unfold Spec.echo_line. rewrite join_snoc.
    destruct (Spec.has_metacharacter command);
      destruct (popen _ _); cbn [fst];
      now destruct (PfShell.merge_env [] task_env env_vars).
Qed.

(** With elevation there is no fallback: a command without shell
    metacharacters that does not tokenize raises. *)
Lemma sudo_unparsable_raises
  (command : string) (env_vars : PfShell.env)
  (task_env : option PfShell.env) (sudo_user : option string) (e : string) :
  Spec.has_metacharacter command = false ->
  Shlex.split command = Raise e ->
  PfShell._build_secure_command_args command env_vars task_env true sudo_user
  = Raise (PfShell.sudo_parse_error command e).
Proof.
  intros Hm Hs. unfold PfShell._build_secure_command_args.
  now rewrite has_shell_metacharacters_spec, Hm, Hs.
Qed.

Lemma sudo_wrapping_witness :
  PfShell._build_secure_command_args
    "echo hi > /tmp/out" [("PORT", "9")] (Some port_task_env) true (Some "deploy")
  = Ok ["sudo"; "-u"; "deploy"; "-H"; "bash"; "-c";
        "export PORT=9; export HOST=example.org; echo hi > /tmp/out"] /\
  PfShell._build_secure_command_args
    "systemctl restart 'my app'" [("PORT", "9")] (Some port_task_env) true None
  = Ok ["sudo"; "-H"; "systemctl"; "restart"; "my app"] /\
  fst (PfShell.execute_shell_command
         [("HOME", "/root")] (fun _ _ => PfShell.Exited 0)
         "PORT=9 systemctl restart 'my app'" (Some port_task_env)
         true (Some "deploy") None EmptyString)
  = [ PfShell.Printed
        "$ (sudo) PORT=9 HOST=example.org systemctl restart 'my app'";
      PfShell.Spawned
        ["sudo"; "-u"; "deploy"; "-H"; "systemctl"; "restart"; "my app"]
        [("HOME", "/root"); ("PORT", "9"); ("HOST", "example.org")] ].
Proof.
  split; [|split].
  - destruct (sudo_wrapping "echo hi > /tmp/out" [("PORT", "9")]
                            (Some port_task_env) (Some "deploy")) as [H _].
    apply H. reflexivity.
  - destruct (sudo_wrapping "systemctl restart 'my app'" [("PORT", "9")]
                            (Some port_task_env) None) as (_ & H & _).
    apply (H eq_refl ["systemctl"; "restart"; "my app"] eq_refl).
  - destruct (sudo_wrapping "systemctl restart 'my app'" [("PORT", "9")]
                            (Some port_task_env) (Some "deploy"))
      as (_ & _ & H).
    apply (H [("HOME", "/root")] (fun _ _ => PfShell.Exited 0)
             "PORT=9 systemctl restart 'my app'"
             ["PORT=9"; "systemctl"; "restart"; "my app"] EmptyString);
      reflexivity.
Defined.

(** ** C4: the exit code of a parallel batch *)

Section Batch.
Import PfTaskExecutor.
Variable run_task_by_name : task_info -> task_outcome.
Variable format_exception_for_user : string -> string.

Definition failed (future : task_info * task_outcome) : Prop :=
  outcome_code (snd future) <> 0%Z.

(** What a task that raised leaves on [sys.stderr]. *)
Definition outcome_lines (o : task_outcome) : list string :=
  match o with
  | Returned _ => []
  | RaisedPFException e | RaisedException e => [format_exception_for_user e]
  end.

Definition failure_lines (t : task_info) : list string :=
  outcome_lines (run_task_by_name t).

Lemma py_or_nonzero (a b : Z) :
  py_or a b <> 0%Z <-> a <> 0%Z \/ b <> 0%Z.
Proof. unfold py_or. destruct (Z.eqb_spec a 0); lia. Qed.

Lemma collect_step (seen : list task_info) (out : list string) (total : Z)
  (future : task_info * task_outcome) :
  collect format_exception_for_user (seen, out, total) future
  = ((seen ++ [fst future])%list,
     (out ++ outcome_lines (snd future))%list,
     py_or total (outcome_code (snd future))).
Proof.
  unfold collect, outcome_lines.
  destruct (snd future); [now rewrite app_nil_r|reflexivity|reflexivity].
Qed.

(** The loop never stops early: it looks at every future, prints for
    every one that raised, and ends with a non-zero total exactly when it
    started with one or met a failed task. *)
Lemma collect_all (futures : list (task_info * task_outcome))
  (seen : list task_info) (out : list string) (total : Z) :
  exists total',
    fold_left (collect format_exception_for_user) futures (seen, out, total)
    = ((seen ++ map fst futures)%list,
       (out ++ flat_map (fun f => outcome_lines (snd f)) futures)%list,
       total')
    /\ (total' <> 0%Z <-> total <> 0%Z \/ Exists failed futures).
Proof.
  revert seen out total.
  induction futures as [|f r IH]; intros seen out total.
  - exists total. cbn. rewrite !app_nil_r, Exists_nil. tauto.
  - cbn [fold_left]. rewrite collect_step.
    destruct (IH (seen ++ [fst f])%list
                 (out ++ outcome_lines (snd f))%list
                 (py_or total (outcome_code (snd f)))) as (total' & E & H).
    exists total'. split.
    + rewrite E. cbn [map flat_map]. now rewrite <- !app_assoc.
    + rewrite H, py_or_nonzero, Exists_cons. unfold failed. tauto.
Qed.

Lemma failed_submitted (tasks : list task_info) :
  Exists failed (map (fun t => (t, run_task_by_name t)) tasks) <->
  exists t, In t tasks /\ outcome_code (run_task_by_name t) <> 0%Z.
Proof.
  rewrite Exists_exists. split.
  - intros ([t o] & Hin & Hf). apply in_map_iff in Hin.
    destruct Hin as (t' & [= <- <-] & Hin). now exists t'.
  - intros (t & Hin & Hf). exists (t, run_task_by_name t).
    split; [|exact Hf]. apply in_map_iff. now exists t.
Qed.

Lemma futures_tasks (tasks : list task_info) :
  map fst (map (fun t => (t, run_task_by_name t)) tasks) = tasks.
Proof. rewrite map_map. cbn [fst]. apply map_id. Qed.

Lemma futures_lines (tasks : list task_info) :
  flat_map (fun f => outcome_lines (snd f))
           (map (fun t => (t, run_task_by_name t)) tasks)
  = flat_map failure_lines tasks.
Proof.
  induction tasks as [|t r IH]; [reflexivity|].
  cbn [map flat_map snd]. now rewrite IH.
Qed.

(** A pool needs a worker: with a bound that is not positive a batch
    that is not empty raises before anything is submitted; the empty
    batch returns 0 without building a pool. *)
Lemma parallel_batch_without_workers
  (as_completed :
     list (task_info * task_outcome) -> list (task_info * task_outcome))
  (tasks : list task_info) (max_workers : Z) :
  (max_workers <= 0)%Z ->
  execute_parallel_tasks run_task_by_name format_exception_for_user
                         as_completed tasks max_workers
  = match tasks with
    | [] => Ok {| submitted := []; collected := []; printed := [];
                  rc_total := 0%Z |}
    | _ => Raise no_workers
    end.
Proof.
  intros H. unfold execute_parallel_tasks.
  destruct tasks as [|t ts]; [reflexivity|].
  destruct (Z.leb_spec max_workers 0); [reflexivity|lia].
Qed.

(** C4: a batch that is empty, or that gets a pool of at least one
    worker, returns, whatever the order in which the tasks complete.  Its
    exit code is non-zero exactly when some task's outcome is non-zero (an
    exception counts as 1), hence zero when all outcomes are zero.  No
    failure stops the batch: every task of the list is submitted, the
    result of every one of them is collected, and every task that raised
    has its error printed, however many failed before it.  Only a batch
    that is not empty and gets no worker returns no exit code: building
    the pool raises before anything is submitted. *)
Theorem parallel_batch_exit_code
  (as_completed :
     list (task_info * task_outcome) -> list (task_info * task_outcome))
  (tasks : list task_info) (max_workers : Z) :
  (forall futures, Permutation futures (as_completed futures)) ->
  let batch :=
    execute_parallel_tasks run_task_by_name format_exception_for_user
                           as_completed tasks max_workers in
  (tasks = [] \/ (0 < max_workers)%Z ->
   exists report,
     batch = Ok report /\
     (rc_total report <> 0%Z <->
      exists t, In t tasks /\ outcome_code (run_task_by_name t) <> 0%Z) /\
     ((forall t, In t tasks -> outcome_code (run_task_by_name t) = 0%Z) ->
      rc_total report = 0%Z) /\
     submitted report = tasks /\
     Permutation (collected report) tasks /\
     Permutation (printed report) (flat_map failure_lines tasks)) /\
  (tasks <> [] -> (max_workers <= 0)%Z -> batch = Raise no_workers).
Proof.
  intros Hperm. cbv zeta. split.
  2:{ intros Hne Hw. rewrite parallel_batch_without_workers by exact Hw.
      now destruct tasks. }
  intros Hw.
  assert (Hzero : forall rc : Z,
             (rc <> 0%Z <->
              exists t, In t tasks
                        /\ outcome_code (run_task_by_name t) <> 0%Z) ->
             (forall t, In t tasks ->
                        outcome_code (run_task_by_name t) = 0%Z) ->
             rc = 0%Z).
  { intros rc Hrc Hall. destruct (Z.eq_dec rc 0) as [H|H]; [exact H|].
    apply Hrc in H. destruct H as (t & Hin & Hf).
    now rewrite (Hall t Hin) in Hf. }
  unfold execute_parallel_tasks. destruct tasks as [|t0 ts].
  - eexists. split; [reflexivity|]. cbn [rc_total submitted collected printed].
    assert (Hrc : (0 <> 0)%Z <->
                  exists t, In t [] /\
                            outcome_code (run_task_by_name t) <> 0%Z).
    { split; [congruence|]. now intros (t & [] & _). }
    split; [exact Hrc|]. split; [now apply Hzero|].
    split; [reflexivity|]. split; constructor.
  - destruct Hw as [Hw|Hw]; [discriminate Hw|].
    destruct (Z.leb_spec max_workers 0) as [Hle|_]; [lia|].
    set (futures := map _ (t0 :: ts)).
    destruct (collect_all (as_completed futures) [] [] 0%Z)
      as (total & E & Ht).
    rewrite E. eexists. split; [reflexivity|].
    cbn [rc_total submitted collected printed app].
    assert (Hrc : total <> 0%Z <->
                  exists t, In t (t0 :: ts) /\
                            outcome_code (run_task_by_name t) <> 0%Z).
    { rewrite Ht, <- failed_submitted. fold futures. split.
      - intros [H|H]; [congruence|].
        apply Exists_exists in H. destruct H as (f & Hin & Hf).
        apply Exists_exists. exists f. split; [|exact Hf].
        eapply Permutation_in; [symmetry; apply Hperm|exact Hin].
      - intros H. right.
        apply Exists_exists in H. destruct H as (f & Hin & Hf).
        apply Exists_exists. exists f. split; [|exact Hf].
        eapply Permutation_in; [apply Hperm|exact Hin]. }
    split; [exact Hrc|]. split; [now apply Hzero|].
    split; [apply futures_tasks|]. split.
    + rewrite <- (futures_tasks (t0 :: ts)). fold futures.
      apply Permutation_map. symmetry. apply Hperm.
    + rewrite <- futures_lines. fold futures.
      apply Permutation_flat_map. symmetry. apply Hperm.
Qed.

End Batch.

Definition task (name : string) : PfTaskExecutor.task_info :=
  {| PfTaskExecutor.task_name := name;
     PfTaskExecutor.file_arg := None;
     PfTaskExecutor.hosts_arg := None;
     PfTaskExecutor.env_arg := [];
     PfTaskExecutor.dry_run := false;
     PfTaskExecutor.debug := false;
     PfTaskExecutor.parallel := false;
     PfTaskExecutor.task_args := [] |}.

(** A run where [build] succeeds, [test] exits with 3 and [lint] raises. *)
Definition sample_run (t : PfTaskExecutor.task_info)
  : PfTaskExecutor.task_outcome :=
  if String.eqb (PfTaskExecutor.task_name t) "test"
  then PfTaskExecutor.Returned 3
  else if String.eqb (PfTaskExecutor.task_name t) "lint"
  then PfTaskExecutor.RaisedException "boom"
  else PfTaskExecutor.Returned 0.

Lemma parallel_batch_exit_code_witness :
  (exists report,
     PfTaskExecutor.execute_parallel_tasks
       sample_run (fun e => e) (@rev _)
       [task "lint"; task "test"; task "build"; task "lint"] 2
     = Ok report /\
     PfTaskExecutor.rc_total report <> 0%Z /\
     PfTaskExecutor.submitted report
     = [task "lint"; task "test"; task "build"; task "lint"] /\
     Permutation (PfTaskExecutor.collected report)
                 [task "lint"; task "test"; task "build"; task "lint"] /\
     Permutation (PfTaskExecutor.printed report) ["boom"; "boom"]) /\
  PfTaskExecutor.execute_parallel_tasks
    sample_run (fun e => e) (@rev _) [task "build"] 0
  = Raise PfTaskExecutor.no_workers.
Proof.
  split.
  - destruct (parallel_batch_exit_code
                sample_run (fun e => e) (@rev _)
                [task "lint"; task "test"; task "build"; task "lint"] 2
                (@Permutation_rev _)) as [H _].
    destruct (H (or_intror eq_refl))
      as (report & E & Hrc & _ & Hs & Hc & Hp).
    exists report. split; [exact E|]. split; [|now repeat split].
    apply Hrc. exists (task "test"). split; [cbn; tauto|]. cbn. lia.
  - destruct (parallel_batch_exit_code
                sample_run (fun e => e) (@rev _) [task "build"] 0
                (@Permutation_rev _)) as [_ H].
    apply H; [discriminate|discriminate].
Defined.

(** ** Sorting *)

Definition str_le (a b : string) : Prop := String.leb a b = true.

Lemma ltb_leb (a b : string) : String.ltb a b = true -> str_le a b.
Proof.
  unfold String.ltb, str_le, String.leb.
  now destruct (String.compare a b).
Qed.

Lemma not_ltb_leb (a b : string) : String.ltb a b = false -> str_le b a.
Proof.
  unfold String.ltb, str_le, String.leb.
  rewrite (String.compare_antisym a b).
  now destruct (String.compare b a).
Qed.

Lemma insert_sorted_perm (x : string) (l : list string) :
  Permutation (x :: l) (insert_sorted x l).
Proof.
  induction l as [|y r IH]; cbn [insert_sorted]; [reflexivity|].
  destruct (String.ltb x y); [reflexivity|].
  rewrite perm_swap. now constructor.
Qed.

Lemma insert_sorted_hd (x y : string) (l : list string) :
  str_le y x -> HdRel str_le y l -> HdRel str_le y (insert_sorted x l).
Proof.
  intros Hyx Hl. destruct l as [|z r]; cbn [insert_sorted].
  - now constructor.
  - destruct (String.ltb x z); constructor; [exact Hyx|].
    now inversion Hl.
Qed.

Lemma insert_sorted_Sorted (x : string) (l : list string) :
  Sorted str_le l -> Sorted str_le (insert_sorted x l).
Proof.
  induction 1 as [|y r Hs IH Hhd]; cbn [insert_sorted].
  - repeat constructor.
  - destruct (String.ltb x y) eqn:E.
    + constructor; [now constructor|]. constructor. now apply ltb_leb.
    + constructor; [exact IH|].
      apply insert_sorted_hd; [now apply not_ltb_leb|exact Hhd].
Qed.

Lemma sorted_Sorted (l : list string) : Sorted str_le (sorted l).
Proof.
  unfold sorted. induction (rev l) as [|x r IH]; cbn [fold_right].
  - constructor.
  - now apply insert_sorted_Sorted.
Qed.

Lemma sorted_perm (l : list string) : Permutation l (sorted l).
Proof.
  unfold sorted. rewrite (Permutation_rev l) at 1.
  induction (rev l) as [|x r IH]; cbn [fold_right]; [reflexivity|].
  rewrite <- insert_sorted_perm. now constructor.
Qed.

(** ** C3: language keys *)

Section Languages.
Import PfPolyglot.

Definition registered (key : string) : bool := dict_mem key POLYGLOT_LANGS.

Definition alias_round_trips (entry : string * string) : bool :=
  String.eqb (_canonical_lang (fst entry)) (snd entry)
  && String.eqb (_canonical_lang (snd entry)) (snd entry)
  && registered (snd entry).

Lemma aliases_round_trip : forallb alias_round_trips POLYGLOT_ALIASES = true.
Proof. vm_compute. reflexivity. Qed.

Lemma registered_supported (key : string) :
  registered key = true <-> In key (sorted (keys POLYGLOT_LANGS)).
Proof.
  unfold registered, dict_mem. split.
  - intros H. eapply Permutation_in; [apply sorted_perm|].
    destruct (dict_get key POLYGLOT_LANGS) eqn:E; [|discriminate].
    apply dict_get_In in E. change key with (fst (key, b)).
    now apply in_map.
  - intros H. eapply Permutation_in in H; [|symmetry; apply sorted_perm].
    destruct (dict_get key POLYGLOT_LANGS) eqn:E; [reflexivity|].
    now apply dict_get_None in E.
Qed.

(** C3, as stated, fails at the empty hint: its canonical form is not a
    registered key, yet rendering returns the pair of [None]s and raises
    nothing. *)
Lemma empty_hint_renders_nothing :
  registered (_canonical_lang EmptyString) = false /\
  forall fs cmd working_dir,
    render_polyglot_command fs (Some EmptyString) cmd working_dir
    = Ok (None, None).
Proof. split; reflexivity. Qed.

(** C3, amended: every alias of the table canonicalizes to its target,
    the target canonicalizes to itself and is a registered key; a
    non-empty hint whose canonical form is not registered makes rendering
    raise the execution error, whose suggestion lists every registered
    key, each once, in lexicographic order. *)
Theorem canonical_language_keys :
  (forall alias key, In (alias, key) POLYGLOT_ALIASES ->
     _canonical_lang alias = key /\ _canonical_lang key = key
     /\ registered key = true) /\
  (forall fs hint cmd working_dir,
     is_empty hint = false ->
     registered (_canonical_lang hint) = false ->
     render_polyglot_command fs (Some hint) cmd working_dir
     = Raise (ExecutionError (unknown_language (_canonical_lang hint) hint))
     /\ exec_suggestion (unknown_language (_canonical_lang hint) hint)
        = Some ("Supported languages: "
                  ++ join ", " (sorted (keys POLYGLOT_LANGS)))) /\
  Sorted str_le (sorted (keys POLYGLOT_LANGS)) /\
  NoDup (sorted (keys POLYGLOT_LANGS)) /\
  (forall key, registered key = true <-> In key (sorted (keys POLYGLOT_LANGS))).
Proof.
  split; [|split; [|split; [|split]]].
  - intros alias key Hin.
    pose proof aliases_round_trip as H.
    rewrite forallb_forall in H. specialize (H _ Hin).
    unfold alias_round_trips in H. cbn [fst snd] in H.
    apply andb_true_iff in H. destruct H as [H H3].
    apply andb_true_iff in H. destruct H as [H1 H2].
    apply String.eqb_eq in H1, H2. now repeat split.
  - intros fs hint cmd working_dir Hne Hun. split; [|reflexivity].
    unfold render_polyglot_command. rewrite Hne.
    unfold registered, dict_mem in Hun.
    now destruct (dict_get (_canonical_lang hint) POLYGLOT_LANGS).
  - apply sorted_Sorted.
  - eapply Permutation_NoDup; [apply sorted_perm|].
    apply (NoDup_count_occ string_dec).
    intros key.
    assert (H : forallb
                  (fun k => Nat.leb (count_occ string_dec (keys POLYGLOT_LANGS) k) 1)
                  (keys POLYGLOT_LANGS) = true) by (vm_compute; reflexivity).
    destruct (in_dec string_dec key (keys POLYGLOT_LANGS)) as [Hin|Hout].
    + rewrite forallb_forall in H. apply Nat.leb_le. now apply H.
    + apply (count_occ_not_In string_dec) in Hout. lia.
  - apply registered_supported.
Qed.

End Languages.

Lemma canonical_language_keys_witness :
  (PfPolyglot._canonical_lang "py" = "python"
   /\ PfPolyglot._canonical_lang "python" = "python"
   /\ registered "python" = true) /\
  PfPolyglot.render_polyglot_command
    (fun _ => None) (Some " COBOL ") "DISPLAY 'hi'." None
  = Raise (ExecutionError (PfPolyglot.unknown_language "cobol" " COBOL ")).
Proof.
  destruct canonical_language_keys as (Halias & Hunknown & _).
  split.
  - apply Halias. do 5 right. left. reflexivity.
  - apply (Hunknown (fun _ => None) " COBOL " "DISPLAY 'hi'." None);
      reflexivity.
Defined.

(** ** C6: where the snippet comes from *)

Section Extraction.
Import PfPolyglot.
Variable fs : filesystem.

(** The path a source token refers to. *)
Definition referenced_path (source_token : string) : string :=
  if startswith source_token "@"
  then drop 1 source_token else drop 5 source_token.

Definition is_reference (source_token : string) : bool :=
  startswith source_token "@" || startswith source_token "file:".

(** Relative to the base directory unless absolute. *)
Definition resolve (base rel_path : string) : string :=
  if isabs rel_path then rel_path else path_join base rel_path.

(** C6, amended: on a command whose first token is not a file reference
    the command itself is the snippet and there are no arguments.  On a
    file reference, a missing or empty base directory raises the syntax
    error about the base directory, which names no path, whether the
    referenced path is absolute or not; with a base directory, a path
    that does not exist raises the syntax error naming the resolved
    path, and a regular file gives its contents as the snippet and the
    tokens after the reference, minus a leading [--], as arguments. *)
Theorem polyglot_source_extraction
  (cmd : string) (base_dir : option string)
  (source_token : string) (rest : list string) :
  Shlex.split cmd = Ok (source_token :: rest) ->
  let extracted := _extract_polyglot_source fs cmd base_dir in
  (is_reference source_token = false -> extracted = Ok (cmd, [], None)) /\
  (is_reference source_token = true -> falsy base_dir = true ->
     extracted = Raise (SyntaxError no_base_dir)) /\
  (is_reference source_token = true ->
   forall base, base_dir = Some base -> is_empty base = false ->
     let full_path := resolve base (referenced_path source_token) in
     (fs full_path = None ->
        extracted = Raise (SyntaxError (file_not_found full_path))
        /\ syn_file_path (file_not_found full_path) = Some full_path
        /\ syn_message (file_not_found full_path)
           = "Polyglot source file not found: " ++ full_path) /\
     (forall code, fs full_path = Some (File code) ->
        extracted = Ok (code, Spec.trailing_args rest, Some full_path))).
Proof.
  intros Hs. cbv zeta. unfold _extract_polyglot_source, is_reference.
  rewrite Hs. split; [|split].
  - now intros ->.
  - intros -> Hb. destruct base_dir as [[|c b]|]; try reflexivity.
    discriminate.
  - intros -> base -> Hne. rewrite Hne.
    fold (referenced_path source_token).
    fold (resolve base (referenced_path source_token)).
    split.
    + intros ->. now repeat split.
    + intros code ->. now destruct rest.
Qed.

End Extraction.

Definition script_files : PfPolyglot.filesystem :=
  fun path =>
    if String.eqb path "/proj/tools/run.py"
    then Some (PfPolyglot.File ("print('hi')" ++ nl))
    else if String.eqb path "/proj" then Some PfPolyglot.Directory
    else None.

Lemma polyglot_source_extraction_witness :
  PfPolyglot._extract_polyglot_source
    script_files "@tools/run.py -- --fast 'a b'" (Some "/proj")
  = Ok ("print('hi')" ++ nl, ["--fast"; "a b"], Some "/proj/tools/run.py") /\
  PfPolyglot._extract_polyglot_source
    script_files "file:gone.py x" (Some "/proj")
  = Raise (SyntaxError (PfPolyglot.file_not_found "/proj/gone.py")) /\
  PfPolyglot._extract_polyglot_source
    script_files "print('inline')" None
  = Ok ("print('inline')", [], None).
Proof.
  split; [|split].
  - destruct (polyglot_source_extraction
                script_files "@tools/run.py -- --fast 'a b'" (Some "/proj")
                "@tools/run.py" ["--"; "--fast"; "a b"] eq_refl)
      as (_ & _ & H).
    destruct (H eq_refl "/proj" eq_refl eq_refl) as [_ Hfile].
    apply (Hfile ("print('hi')" ++ nl)). reflexivity.
  - destruct (polyglot_source_extraction
                script_files "file:gone.py x" (Some "/proj")
                "file:gone.py" ["x"] eq_refl)
      as (_ & _ & H).
    destruct (H eq_refl "/proj" eq_refl eq_refl) as [Hmissing _].
    apply Hmissing. reflexivity.
  - destruct (polyglot_source_extraction
                script_files "print('inline')" None
                "print(inline)" [] eq_refl)
      as (H & _).
    apply H. reflexivity.
Defined.

(** C6, as stated, fails without a base directory: the error names no
    path, and it is raised for an absolute reference to an existing file
    as well. *)
Lemma extraction_without_base_dir :
  PfPolyglot._extract_polyglot_source script_files "@tools/run.py" None
    = Raise (SyntaxError PfPolyglot.no_base_dir) /\
  syn_file_path PfPolyglot.no_base_dir = None /\
  contains "tools/run.py" (syn_message PfPolyglot.no_base_dir) = false /\
  script_files "/proj/tools/run.py" = Some (PfPolyglot.File ("print('hi')" ++ nl)) /\
  PfPolyglot._extract_polyglot_source script_files "@/proj/tools/run.py" None
    = Raise (SyntaxError PfPolyglot.no_base_dir).
Proof. repeat split. Qed.

(** ** C8: rendering twice *)

Section Rendering.
Import PfPolyglot.

(** The first line of every payload: the temporary directory is made,
    and named, when the payload runs. *)
Definition mktemp_line : string := "tmpdir=$(mktemp -d)" ++ nl.

Definition makes_tmpdir_when_run (build : builder) : Prop :=
  forall code args script,
    build code args = Ok script -> startswith script mktemp_line = true.

Lemma prefix_append (p s : string) : prefix p (p ++ s) = true.
Proof.
  induction p as [|c p IH]; cbn [append prefix]; [apply prefix_nil|].
  now destruct (ascii_dec c c).
Qed.

Lemma startswith_mktemp (rest : string) :
  startswith ("tmpdir=$(mktemp -d)" ++ nl ++ rest) mktemp_line = true.
Proof.
  unfold startswith, mktemp_line. rewrite <- append_assoc.
  apply prefix_append.
Qed.

Lemma script_profile_mktemp (parts : list string) (ext basename : string) :
  makes_tmpdir_when_run (_script_profile parts ext basename).
Proof.
  intros code args script. unfold _script_profile, _build_script_command.
  intros [= <-]. apply startswith_mktemp.
Qed.

Lemma compile_profile_mktemp (ext compiler_cmd run_cmd : string)
  (setup_lines : list string) (basename : string) (append_args : bool) :
  makes_tmpdir_when_run
    (_compile_profile ext compiler_cmd run_cmd setup_lines basename append_args).
Proof.
  intros code args script.
  unfold _compile_profile, _build_compile_command, bind.
  destruct (format compiler_cmd mapping); [|discriminate].
  destruct (format run_cmd _); [|discriminate].
  intros [= <-]. apply startswith_mktemp.
Qed.

Lemma java_android_mktemp : makes_tmpdir_when_run _java_android_builder.
Proof.
  intros code args script. unfold _java_android_builder.
  intros [= <-]. cbn [lines fold_right]. rewrite !append_assoc.
  apply startswith_mktemp.
Qed.

Lemma registered_builders_mktemp :
  Forall (fun entry => makes_tmpdir_when_run (snd entry)) POLYGLOT_LANGS.
Proof.
  unfold POLYGLOT_LANGS, script, compiled, _java_openjdk_builder.
  repeat (constructor;
          [cbn [snd];
           first [ exact (script_profile_mktemp _ _ _)
                 | exact (compile_profile_mktemp _ _ _ _ _ _)
                 | exact java_android_mktemp ]|]).
  constructor.
Qed.

Definition always_renders (build : builder) : Prop :=
  forall code args, exists script, build code args = Ok script.

Lemma compile_profile_renders (ext compiler_cmd run_cmd : string)
  (setup_lines : list string) (basename : string) (append_args : bool)
  (compiler : string) (runner : string -> string) :
  format compiler_cmd mapping = Ok compiler ->
  (forall arg_str,
     format run_cmd (dict_set "args" arg_str mapping) = Ok (runner arg_str)) ->
  always_renders
    (_compile_profile ext compiler_cmd run_cmd setup_lines basename append_args).
Proof.
  intros Hc Hr code args.
  unfold _compile_profile, _build_compile_command, bind.
  rewrite Hc, Hr. eexists. reflexivity.
Qed.

(** No template of the registry fails to format. *)
Lemma registered_builders_render :
  Forall (fun entry => always_renders (snd entry)) POLYGLOT_LANGS.
Proof.
  unfold POLYGLOT_LANGS, script, compiled, _java_openjdk_builder.
  repeat (constructor;
          [cbn [snd];
           first [ intros code args; eexists; reflexivity
                 | eapply compile_profile_renders with (runner := fun _ => _);
                   [reflexivity|intros arg_str; reflexivity]
                 | eapply compile_profile_renders
                     with (runner := fun a => _ ++ a ++ _);
                   [reflexivity|intros arg_str; reflexivity] ]|]).
  constructor.
Qed.

(** C8: two renderings of the same hint, command and working directory,
    made at times when the files give the same snippet and arguments,
    return the same result; for a registered language and an extracted
    snippet that result is a payload, and a payload holds no directory
    name of its own: it starts with the [mktemp] line. *)
Theorem rendering_is_repeatable
  (fs1 fs2 : filesystem) (lang_hint : option string) (cmd : string)
  (working_dir : option string) :
  _extract_polyglot_source fs1 cmd working_dir
    = _extract_polyglot_source fs2 cmd working_dir ->
  render_polyglot_command fs1 lang_hint cmd working_dir
    = render_polyglot_command fs2 lang_hint cmd working_dir /\
  (forall hint snippet lang_args path,
     lang_hint = Some hint -> is_empty hint = false ->
     registered (_canonical_lang hint) = true ->
     _extract_polyglot_source fs1 cmd working_dir
       = Ok (snippet, lang_args, path) ->
     exists script,
       render_polyglot_command fs1 lang_hint cmd working_dir
         = Ok (Some script, Some (_canonical_lang hint))) /\
  (forall script key,
     render_polyglot_command fs1 lang_hint cmd working_dir
       = Ok (Some script, key) ->
     startswith script mktemp_line = true).
Proof.
  intros Hsame. split; [|split].
  - unfold render_polyglot_command. now rewrite Hsame.
  - intros hint snippet lang_args path -> Hne Hreg Hx.
    unfold render_polyglot_command. rewrite Hne, Hx.
    unfold registered, dict_mem in Hreg.
    destruct (dict_get (_canonical_lang hint) POLYGLOT_LANGS) as [build|] eqn:E;
      [|discriminate].
    apply dict_get_In in E.
    pose proof registered_builders_render as Hall.
    rewrite Forall_forall in Hall. specialize (Hall _ E). cbn [snd] in Hall.
    destruct (Hall snippet lang_args) as [script Hs].
    exists script. cbn [bind]. now rewrite Hs.
  - intros script key. unfold render_polyglot_command.
    destruct lang_hint as [hint|]; [|discriminate].
    destruct (is_empty hint); [discriminate|].
    destruct (dict_get (_canonical_lang hint) POLYGLOT_LANGS) as [build|] eqn:E;
      [|discriminate].
    apply dict_get_In in E.
    pose proof registered_builders_mktemp as Hall.
    rewrite Forall_forall in Hall. specialize (Hall _ E). cbn [snd] in Hall.
    destruct (_extract_polyglot_source fs1 cmd working_dir)
      as [[[snippet lang_args] path]|e]; [|discriminate].
    cbn [bind]. destruct (build snippet lang_args) as [rendered|e] eqn:Eb;
      [|discriminate].
    cbn [bind]. intros [= <- _]. now apply (Hall snippet lang_args).
Qed.

End Rendering.

(** The files of [script_files] after an unrelated file appeared. *)
Definition script_files_later : PfPolyglot.filesystem :=
  fun path =>
    if String.eqb path "/proj/notes.txt"
    then Some (PfPolyglot.File "later")
    else script_files path.

Lemma rendering_is_repeatable_witness :
  PfPolyglot.render_polyglot_command
    script_files (Some "py") "@tools/run.py -- 1" (Some "/proj")
  = PfPolyglot.render_polyglot_command
      script_files_later (Some "py") "@tools/run.py -- 1" (Some "/proj") /\
  exists script,
    PfPolyglot.render_polyglot_command
      script_files (Some "py") "@tools/run.py -- 1" (Some "/proj")
    = Ok (Some script, Some "python").
Proof.
  destruct (rendering_is_repeatable
              script_files script_files_later (Some "py")
              "@tools/run.py -- 1" (Some "/proj") eq_refl)
    as (Hsame & Hret & _).
  split; [exact Hsame|].
  apply (Hret "py" ("print('hi')" ++ nl) ["1"] (Some "/proj/tools/run.py"));
    reflexivity.
Defined.

(** ** C5: compiled languages *)

Section Compiled.
Import PfPolyglot.

(** The snippet staged through the quoted here-document. *)
Definition here_document (code : string) : string :=
  "cat <<'" ++ _POLY_DELIM ++ "' > " ++ qt "$src" ++ nl
  ++ _ensure_newline code ++ _POLY_DELIM ++ nl.

(** Compile; run only after a compiler exit code of zero; remove the
    directory and exit with the last code, whatever happened. *)
Definition compile_run_cleanup (compiler runner : string) : string :=
  lines [ compiler;
          "rc=$?";
          "if [ $rc -eq 0 ]; then";
          "  " ++ runner;
          "  rc=$?";
          "fi";
          "rm -rf " ++ qt "$tmpdir";
          "exit $rc" ].

Definition setup_block (setup_lines : list string) : string :=
  let setup := join nl setup_lines in
  if is_empty setup then setup else setup ++ nl.

(** The payload of a compiled profile whose templates format: staging,
    then the guarded compile-and-run, then the cleanup.  With
    [append_args] the quoted arguments follow the run command. *)
Lemma compile_command_shape
  (ext code compiler_cmd run_cmd : string) (args setup_lines : list string)
  (basename : string) (append_args : bool) (compiler runner : string) :
  format compiler_cmd mapping = Ok compiler ->
  format run_cmd (dict_set "args" (_poly_args args) mapping) = Ok runner ->
  _build_compile_command ext code compiler_cmd run_cmd args setup_lines
                         basename append_args
  = Ok (lines [ "tmpdir=$(mktemp -d)";
                "src=" ++ qt ("$tmpdir/" ++ basename ++ ext);
                "bin=" ++ qt "$tmpdir/pf_poly_bin" ]
        ++ setup_block setup_lines
        ++ here_document code
        ++ compile_run_cleanup compiler
             (if append_args then runner ++ spaced (_poly_args args)
              else runner)).
Proof.
  intros Hc Hr. unfold _build_compile_command, bind. rewrite Hc, Hr.
  f_equal. unfold here_document, compile_run_cleanup, setup_block, spaced.
  cbn [lines fold_right]. rewrite !append_assoc. cbn [append].
  repeat f_equal.
  destruct append_args, (is_empty (_poly_args args));
    cbn [andb negb]; now rewrite ?append_nil_r.
Qed.

(** The run command of a profile that produces a binary: the binary,
    then the quoted arguments. *)
Lemma compiled_binary_runner (args : list string) :
  format "{bin}" (dict_set "args" (_poly_args args) mapping)
  = Ok (qt "$bin").
Proof. reflexivity. Qed.

(** The payload of a registry profile that runs the binary it built. *)
Lemma compiled_payload (ext compiler_cmd code : string) (args : list string)
  (compiler : string) :
  format compiler_cmd mapping = Ok compiler ->
  compiled ext compiler_cmd "{bin}" code args
  = Ok (lines [ "tmpdir=$(mktemp -d)";
                "src=" ++ qt ("$tmpdir/" ++ pf_poly ++ ext);
                "bin=" ++ qt "$tmpdir/pf_poly_bin" ]
        ++ here_document code
        ++ compile_run_cleanup compiler
             (qt "$bin" ++ spaced (_poly_args args))).
Proof.
  intros Hc. unfold compiled, _compile_profile.
  now rewrite (compile_command_shape _ _ _ _ _ _ _ _ _ _ Hc
                 (compiled_binary_runner args)).
Qed.

Definition openjdk_payload_with_prod : string :=
  lines [ "tmpdir=$(mktemp -d)";
          "src=" ++ qt "$tmpdir/Main.java";
          "bin=" ++ qt "$tmpdir/pf_poly_bin";
          "classes=" ++ qt "$tmpdir/classes";
          "mkdir -p " ++ qt "$classes";
          "cat <<'__PFY_LANG__' > " ++ qt "$src";
          "class Main {}";
          "__PFY_LANG__";
          "javac -d " ++ qt "$classes" ++ " " ++ qt "$src";
          "rc=$?";
          "if [ $rc -eq 0 ]; then";
          "  (cd " ++ qt "$classes" ++ " && java Mainprod)";
          "  rc=$?";
          "fi";
          "rm -rf " ++ qt "$tmpdir";
          "exit $rc" ].

(** C5 at the OpenJDK profile with one argument: the payload runs
    [java Mainprod], the argument glued to the class name instead of
    forwarded after it; the Android profile, which renders the same run
    line by hand, puts the space. *)
Theorem java_openjdk_glues_arguments :
  dict_get "java-openjdk" POLYGLOT_LANGS = Some _java_openjdk_builder /\
  _java_openjdk_builder "class Main {}" ["prod"]
    = Ok openjdk_payload_with_prod /\
  contains "java Main prod" openjdk_payload_with_prod = false /\
  (exists payload,
     _java_android_builder "class Main {}" ["prod"] = Ok payload /\
     contains ("(cd " ++ qt "$classes" ++ " && java Main prod)") payload
     = true).
Proof.
  split; [reflexivity|]. split; [vm_compute; reflexivity|].
  split; [vm_compute; reflexivity|].
  eexists. split; [reflexivity|]. vm_compute. reflexivity.
Qed.

End Compiled.

(** * Further properties of the runner *)

(** ** What the parser returns *)

Section ParserOutput.
Import PfShell.

Lemma split_once_join (sep : ascii) (s : string) :
  mem_char sep s = true ->
  s = fst (split_once sep s) ++ String sep (snd (split_once sep s)).
Proof.
  induction s as [|c r IH]; cbn [mem_char split_once]; [discriminate|].
  rewrite Ascii.eqb_sym. destruct (Ascii.eqb c sep) eqn:E.
  - intros _. apply Ascii.eqb_eq in E. now subst.
  - cbn [orb]. intros H. destruct (split_once sep r) as [k v].
    cbn [fst snd append] in *. f_equal. now apply IH.
Qed.

Lemma split_once_of_join (sep : ascii) (k v : string) :
  mem_char sep k = false -> split_once sep (k ++ String sep v) = (k, v).
Proof.
  induction k as [|c k IH]; cbn [mem_char append split_once].
  - now rewrite Ascii.eqb_refl.
  - rewrite Ascii.eqb_sym. intros H. apply orb_false_iff in H.
    destruct H as [-> H]. now rewrite (IH H).
Qed.

Lemma leading_all (test : string -> bool) (tokens : list string) :
  Forall (fun t => test t = true) (Spec.leading test tokens).
Proof.
  induction tokens as [|t r IH]; cbn [Spec.leading]; [constructor|].
  destruct (test t) eqn:E; now constructor.
Qed.

Lemma leading_remaining (test : string -> bool) (tokens : list string) :
  tokens = (Spec.leading test tokens ++ Spec.remaining test tokens)%list.
Proof.
  induction tokens as [|t r IH]; cbn [Spec.leading Spec.remaining];
    [reflexivity|].
  destruct (test t); [cbn [app]; now f_equal|reflexivity].
Qed.

Lemma remaining_head (test : string -> bool) (tokens : list string)
  (t : string) (ts : list string) :
  Spec.remaining test tokens = t :: ts -> test t = false.
Proof.
  induction tokens as [|a r IH]; cbn [Spec.remaining]; [discriminate|].
  destruct (test a) eqn:E; [exact IH|]. now intros [= <- _].
Qed.

Lemma remaining_fixed (test : string -> bool) (tokens : list string) :
  Spec.remaining test (Spec.remaining test tokens)
  = Spec.remaining test tokens.
Proof.
  destruct (Spec.remaining test tokens) as [|t ts] eqn:E; [reflexivity|].
  cbn [Spec.remaining]. now rewrite (remaining_head _ _ _ _ E).
Qed.

Lemma leading_of_remaining (test : string -> bool) (tokens : list string) :
  Spec.leading test (Spec.remaining test tokens) = [].
Proof.
  destruct (Spec.remaining test tokens) as [|t ts] eqn:E; [reflexivity|].
  cbn [Spec.leading]. now rewrite (remaining_head _ _ _ _ E).
Qed.

Lemma dict_set_In {V} (k k' : string) (v v' : V) (d : dict V) :
  In (k, v) (dict_set k' v' d) -> (k, v) = (k', v') \/ In (k, v) d.
Proof.
  induction d as [|[k2 v2] r IH]; cbn [dict_set In].
  - intros [H|[]]. now left.
  - destruct (String.eqb k' k2); cbn [In].
    + intros [H|H]; [now left|right; now right].
    + intros [H|H]; [right; now left|].
      destruct (IH H) as [H'|H']; [now left|right; now right].
Qed.

Lemma stored_pairs (tokens : list string) (env_vars : env) (k v : string) :
  In (k, v) (fold_left Spec.store tokens env_vars) ->
  In (k, v) env_vars \/
  exists t, In t tokens /\ split_once "="%char t = (k, v).
Proof.
  revert env_vars. induction tokens as [|t r IH]; intros e H; [now left|].
  cbn [fold_left] in H. destruct (IH _ H) as [H'|(t' & Hin & Ht')].
  - unfold Spec.store in H'. apply dict_set_In in H'.
    destruct H' as [H'|H']; [|now left].
    right. exists t. split; [now left|].
    rewrite H'. now destruct (split_once "="%char t).
  - right. exists t'. split; [now right|exact Ht'].
Qed.

Lemma assignment_token (t k v : string) :
  is_assignment t = true -> split_once "="%char t = (k, v) ->
  env_name_match k = true /\ t = k ++ "=" ++ v.
Proof.
  unfold is_assignment. intros H E.
  apply andb_true_iff in H. destruct H as [H Hm].
  apply andb_true_iff in H. destruct H as [Hc _].
  rewrite E in Hm. split; [exact Hm|].
  change "=" with (str1 "="%char) in Hc. rewrite contains_char in Hc.
  rewrite (split_once_join _ _ Hc) at 1. now rewrite E.
Qed.

(** The parser's results: the environment holds every key once, each
    pair is literally a leading token [KEY=VALUE] whose key passes the
    name pattern, and the command splits back into the tokens that
    followed the assignments. *)
Lemma parser_output (cmd_line : string) (env_vars : env) (command : string) :
  parse_shell_command cmd_line = Ok (env_vars, command) ->
  exists tokens,
    Shlex.split cmd_line = Ok tokens /\
    Spec.well_formed env_vars /\
    (forall k v, In (k, v) env_vars ->
       env_name_match k = true /\
       In (k ++ "=" ++ v) (Spec.leading is_assignment tokens)) /\
    Shlex.split command = Ok (Spec.remaining is_assignment tokens).
Proof.
  intros Hp. destruct (Shlex.split cmd_line) as [tokens|e] eqn:Hs.
  - exists tokens. split; [reflexivity|].
    split; [now apply (parsed_env_well_formed _ _ _ Hp)|].
    split; [|now apply (parsed_command_tokenizes _ _ _ _ Hs Hp)].
    rewrite (parse_shell_command_leading _ _ Hs) in Hp.
    injection Hp as <- _. intros k v Hin.
    apply stored_pairs in Hin. destruct Hin as [[]|(t & Hin & Ht)].
    pose proof (leading_all is_assignment tokens) as Hall.
    rewrite Forall_forall in Hall.
    destruct (assignment_token _ _ _ (Hall _ Hin) Ht) as [Hm ->].
    now split.
  - rewrite (parse_shell_command_unparsable _ _ Hs) in Hp. discriminate.
Qed.

Lemma parse_quoted_remaining (tokens : list string) :
  parse_shell_command
    (join " " (map Shlex.quote (Spec.remaining is_assignment tokens)))
  = Ok ([], join " " (map Shlex.quote (Spec.remaining is_assignment tokens))).
Proof.
  rewrite (parse_shell_command_leading _ _ (split_quoted_tokens _)).
  now rewrite leading_of_remaining, remaining_fixed.
Qed.

End ParserOutput.

(** X1: the environment returned by the parser holds every key once, and
    each of its pairs is a leading token [KEY=VALUE] of the line whose key
    passes the name pattern. *)
Theorem parsed_environment_invariant
  (cmd_line : string) (env_vars : PfShell.env) (command : string) :
  PfShell.parse_shell_command cmd_line = Ok (env_vars, command) ->
  exists tokens,
    Shlex.split cmd_line = Ok tokens /\
    NoDup (keys env_vars) /\
    forall k v, In (k, v) env_vars ->
      PfShell.env_name_match k = true /\
      In (k ++ "=" ++ v) (Spec.leading PfShell.is_assignment tokens).
Proof.
  intros Hp. destruct (parser_output _ _ _ Hp) as (tokens & Hs & Hwf & Hk & _).
  exists tokens. split; [exact Hs|]. split; [exact Hwf|exact Hk].
Qed.

Lemma parsed_environment_invariant_witness :
  exists tokens,
    Shlex.split "A=1 B='x y' A=2 make all" = Ok tokens /\
    NoDup (keys [("A", "2"); ("B", "x y")]) /\
    forall k v, In (k, v) [("A", "2"); ("B", "x y")] ->
      PfShell.env_name_match k = true /\
      In (k ++ "=" ++ v) (Spec.leading PfShell.is_assignment tokens).
Proof.
  apply (parsed_environment_invariant
           "A=1 B='x y' A=2 make all" [("A", "2"); ("B", "x y")] "make all").
  reflexivity.
Defined.

(** X2: parsing the command the parser returned changes nothing: it has
    no leading assignment left and it is already quoted, so it comes back
    with an empty environment. *)
Theorem parsed_command_is_stable
  (cmd_line : string) (env_vars : PfShell.env) (command : string) :
  PfShell.parse_shell_command cmd_line = Ok (env_vars, command) ->
  PfShell.parse_shell_command command = Ok ([], command).
Proof.
  intros Hp. destruct (Shlex.split cmd_line) as [tokens|e] eqn:Hs.
  - rewrite (parse_shell_command_leading _ _ Hs) in Hp.
    injection Hp as _ <-. apply parse_quoted_remaining.
  - rewrite (parse_shell_command_unparsable _ _ Hs) in Hp. discriminate.
Qed.

Lemma parsed_command_is_stable_witness :
  PfShell.parse_shell_command "echo 'hello world' A=1"
  = Ok ([], "echo 'hello world' A=1").
Proof.
  apply (parsed_command_is_stable
           ("PORT=1 echo " ++ dq ++ "hello world" ++ dq ++ " A=1")
           [("PORT", "1")]).
  reflexivity.
Defined.

(** ** Validation *)

Section Validation.
Import PfShell.

Lemma safe_char_not_space (c : ascii) : Shlex.is_safe c = true -> is_space c = false.
Proof.
  destruct c as [[] [] [] [] [] [] [] []]; vm_compute;
    intros H; try discriminate H; reflexivity.
Qed.

Lemma quote_head (t : string) :
  exists c r, Shlex.quote t = String c r /\ is_space c = false.
Proof.
  unfold Shlex.quote. destruct t as [|c r]; cbn [is_empty].
  - eexists; eexists; split; reflexivity.
  - destruct (Shlex.all_safe (String c r)) eqn:E.
    + exists c, r. split; [reflexivity|]. cbn [Shlex.all_safe] in E.
      apply andb_true_iff in E. now apply safe_char_not_space.
    + eexists; eexists; split; reflexivity.
Qed.

Lemma strip_not_empty (c : ascii) (r : string) :
  is_space c = false -> is_empty (strip (String c r)) = false.
Proof.
  intros H. unfold strip. cbn [lstrip]. rewrite H. cbn [rstrip].
  destruct (rstrip r); [now rewrite H|reflexivity].
Qed.

Lemma quoted_command_not_blank (t : string) (ts : list string) :
  is_empty (strip (join " " (map Shlex.quote (t :: ts)))) = false.
Proof.
  destruct (quote_head t) as (c & r & E & Hc).
  unfold join. cbn [map concat]. rewrite E.
  destruct (map Shlex.quote ts); cbn [append]; now apply strip_not_empty.
Qed.

Lemma find_none {A} (f : A -> bool) (l : list A) :
  Forall (fun x => f x = false) l -> find f l = None.
Proof.
  induction 1 as [|x l Hx _ IH]; [reflexivity|].
  cbn [find]. now rewrite Hx.
Qed.

Definition empty_command_verdict : bool * option string :=
  (false, Some "Empty command after environment variable parsing").

(** After a successful parse the verdict depends on the command alone:
    the re-check of the names always passes. *)
Lemma validate_after_parse (cmd_line : string) (env_vars : env)
  (command : string) :
  parse_shell_command cmd_line = Ok (env_vars, command) ->
  validate_shell_syntax cmd_line
  = if is_empty command then empty_command_verdict else (true, None).
Proof.
  intros Hp. unfold validate_shell_syntax. rewrite Hp.
  destruct (parser_output _ _ _ Hp) as (tokens & Hs & _ & Hk & _).
  rewrite (parse_shell_command_leading _ _ Hs) in Hp.
  injection Hp as _ Hc.
  destruct (Spec.remaining is_assignment tokens) as [|t ts] eqn:Er.
  - subst command. reflexivity.
  - rewrite <- Hc, quoted_command_not_blank. cbn [map].
    rewrite (join_not_empty _ _ _ (quote_not_empty t)).
    rewrite find_none; [reflexivity|].
    apply Forall_forall. intros k Hin. unfold keys in Hin.
    apply in_map_iff in Hin. destruct Hin as ([k' v] & <- & Hin).
    cbn [fst]. now rewrite (proj1 (Hk _ _ Hin)).
Qed.

Lemma validate_unparsable (cmd_line e : string) :
  Shlex.split cmd_line = Raise e ->
  validate_shell_syntax cmd_line
  = (false, Some ("Failed to parse shell command: " ++ e)).
Proof.
  intros Hs. unfold validate_shell_syntax.
  now rewrite (parse_shell_command_unparsable _ _ Hs).
Qed.

(** A command that comes from the parser always gets an argument vector,
    with or without elevation. *)
Lemma parsed_command_gets_argv (cmd_line : string) (env_vars : env)
  (command : string) (task_env : option env) (sudo : bool)
  (sudo_user : option string) :
  parse_shell_command cmd_line = Ok (env_vars, command) ->
  exists argv,
    _build_secure_command_args command env_vars task_env sudo sudo_user
    = Ok argv.
Proof.
  intros Hp. destruct (parser_output _ _ _ Hp) as (tokens & _ & _ & _ & Ht).
  unfold _build_secure_command_args. rewrite Ht.
  destruct sudo, (_has_shell_metacharacters command); eexists; reflexivity.
Qed.

End Validation.

(** X3: [validate_shell_syntax] accepts a line exactly when the line
    tokenizes and one of its tokens is not an environment assignment; its
    complaint about an invalid variable name is never produced. *)
Theorem validation_verdict (cmd_line : string) :
  (PfShell.validate_shell_syntax cmd_line = (true, None) <->
   exists tokens,
     Shlex.split cmd_line = Ok tokens /\
     forallb PfShell.is_assignment tokens = false) /\
  (fst (PfShell.validate_shell_syntax cmd_line) = true \/
   PfShell.validate_shell_syntax cmd_line = empty_command_verdict \/
   exists e,
     Shlex.split cmd_line = Raise e /\
     PfShell.validate_shell_syntax cmd_line
     = (false, Some ("Failed to parse shell command: " ++ e))).
Proof.
  destruct (Shlex.split cmd_line) as [tokens|e] eqn:Hs.
  - pose proof (parse_shell_command_leading _ _ Hs) as Hp.
    rewrite (validate_after_parse _ _ _ Hp).
    destruct (is_empty _) eqn:Ee.
    + apply (parse_command_empty_iff _ _ _ _ Hs Hp) in Ee. split.
      * split; [discriminate|]. intros (tokens' & [= <-] & H). congruence.
      * right. now left.
    + split; [|now left]. split; [|reflexivity]. intros _.
      exists tokens. split; [reflexivity|].
      destruct (forallb PfShell.is_assignment tokens) eqn:Ea;
        [|reflexivity].
      apply (parse_command_empty_iff _ _ _ _ Hs Hp) in Ea. congruence.
  - rewrite (validate_unparsable _ _ Hs). split.
    + split; [discriminate|]. now intros (tokens & [=] & _).
    + right. right. now exists e.
Qed.

(** X4: a command is handed to a process, local or remote, exactly when
    the line validates: [execute_shell_command] makes one [Popen] or
    [connection.run] call on a valid line and none on an invalid one,
    with or without elevation. *)
Theorem valid_lines_are_the_ones_run
  (os_environ : PfShell.env)
  (popen : list string -> PfShell.env -> PfShell.popen_outcome)
  (cmd_line : string) (task_env : option PfShell.env) (sudo : bool)
  (sudo_user : option string)
  (connection : option (string -> PfShell.remote_outcome))
  (prefix : string) :
  List.length (filter PfShell.is_spawn
            (fst (PfShell.execute_shell_command
                    os_environ popen cmd_line task_env sudo sudo_user
                    connection prefix)))
  = if fst (PfShell.validate_shell_syntax cmd_line) then 1 else 0.
Proof.
  destruct (PfShell.parse_shell_command cmd_line) as [[env_vars command]|e]
    eqn:Hp.
  - rewrite (validate_after_parse _ _ _ Hp).
    destruct (parsed_command_gets_argv _ _ _ task_env sudo sudo_user Hp)
      as [argv Ha].
    unfold PfShell.execute_shell_command. rewrite Hp.
    destruct (is_empty command); [reflexivity|].
    destruct connection as [run|].
    + now destruct (run _).
    + rewrite Ha. now destruct (popen _ _).
  - unfold PfShell.execute_shell_command, PfShell.validate_shell_syntax.
    rewrite Hp. now destruct e.
Qed.

(** ** Words that read back *)

Section Words.
Import Shlex.

(** The word [w], met between words, is read as the token [t]. *)
Definition reads_as (w t : string) : Prop :=
  forall rest acc, exists qd,
    lex (w ++ rest) InWhitespace EmptyString false acc
    = lex rest InWord t qd acc
    /\ negb (is_empty t) || qd = true.

Lemma quote_reads_as (t : string) : reads_as (quote t) t.
Proof. intros rest acc. apply lex_quote_token. Qed.

Lemma lex_quote_in_word (v rest cur : string) (qd : bool)
  (acc : list string) :
  exists qd',
    lex (quote v ++ rest) InWord cur qd acc
    = lex rest InWord (cur ++ v) qd' acc.
Proof.
  unfold quote. destruct (is_empty v) eqn:Ee.
  - apply is_empty_true in Ee. subst v. exists true.
    now rewrite append_nil_r.
  - destruct (all_safe v) eqn:Es.
    + exists qd. now apply lex_safe_word.
    + exists true. rewrite !append_assoc. cbn [sq str1 append lex].
      change (is_whitespace (chr 39)) with false.
      change (is_quote (chr 39)) with true. cbv iota.
      apply lex_single_quoted.
Qed.

Lemma assignment_reads_as (k v : string) :
  all_safe k = true -> reads_as (k ++ "=" ++ quote v) (k ++ "=" ++ v).
Proof.
  intros Hk rest acc.
  assert (Hs : all_safe (k ++ "=") = true).
  { clear - Hk. induction k as [|c k IH]; [reflexivity|].
    cbn [append all_safe] in *. apply andb_true_iff in Hk.
    destruct Hk as [-> Hk]. now apply IH. }
  assert (Hne : is_empty (k ++ "=") = false) by now destruct k.
  replace ((k ++ "=" ++ quote v) ++ rest)
    with ((k ++ "=") ++ quote v ++ rest) by now rewrite !append_assoc.
  rewrite (lex_safe_token _ _ _ Hs Hne).
  destruct (lex_quote_in_word v rest (k ++ "=") false acc) as [qd' ->].
  exists qd'. rewrite append_assoc. split; [reflexivity|].
  now destruct k.
Qed.

Lemma lex_words (ws : list (string * string)) (acc : list string) :
  Forall (fun p => reads_as (fst p) (snd p)) ws ->
  lex (join " " (map fst ws)) InWhitespace EmptyString false acc
  = Ok (rev acc ++ map snd ws)%list.
Proof.
  intros H. revert acc. induction H as [|[w t] ws Hw _ IH]; intros acc.
  - cbn. now rewrite app_nil_r.
  - unfold join in *. cbn [map concat fst snd] in *.
    destruct ws as [|[w2 t2] ws].
    + cbn [map]. rewrite <- (append_nil_r w).
      destruct (Hw EmptyString acc) as (qd & -> & Hq).
      cbn [lex]. now rewrite Hq.
    + cbn [map fst] in *.
      destruct (Hw (" " ++ concat " " (w2 :: map fst ws)) acc)
        as (qd & -> & Hq).
      cbn [append lex]. change (is_whitespace " "%char) with true.
      cbv iota. rewrite Hq, IH. cbn [rev]. now rewrite <- app_assoc.
Qed.

Lemma split_words (ws : list (string * string)) :
  Forall (fun p => reads_as (fst p) (snd p)) ws ->
  split (join " " (map fst ws)) = Ok (map snd ws).
Proof. intros H. unfold split. now rewrite (lex_words ws [] H). Qed.

Lemma name_char_safe (c : ascii) :
  PfShell.is_name_char c = true -> is_safe c = true.
Proof.
  destruct c as [[] [] [] [] [] [] [] []]; vm_compute;
    intros H; try discriminate H; reflexivity.
Qed.

Lemma name_char_not_eq (c : ascii) :
  PfShell.is_name_char c = true ->
  Ascii.eqb "="%char c = false /\ Ascii.eqb c "-"%char = false.
Proof.
  destruct c as [[] [] [] [] [] [] [] []]; vm_compute;
    intros H; try discriminate H; now split.
Qed.

(** An identifier needs no quoting, holds no [=] and starts no option. *)
Lemma identifier_plain (k : string) :
  Spec.is_identifier k = true ->
  all_safe k = true /\ mem_char "="%char k = false
  /\ startswith k "-" = false /\ PfShell.env_name_match k = true.
Proof.
  intros H. split; [|split; [|split]].
  - destruct k as [|c k]; [discriminate|]. cbn [Spec.is_identifier] in H.
    apply andb_true_iff in H. destruct H as [Hc H].
    assert (Hc' : PfShell.is_name_char c = true)
      by (unfold PfShell.is_name_char; now rewrite Hc).
    cbn [all_safe]. rewrite (name_char_safe _ Hc'). cbn [andb].
    induction k as [|d k IH]; [reflexivity|].
    cbn [Spec.all_name_chars all_safe] in *.
    apply andb_true_iff in H. destruct H as [Hd H].
    now rewrite (name_char_safe _ Hd), IH.
  - destruct k as [|c k]; [discriminate|]. cbn [Spec.is_identifier] in H.
    apply andb_true_iff in H. destruct H as [Hc H].
    assert (Hc' : PfShell.is_name_char c = true)
      by (unfold PfShell.is_name_char; now rewrite Hc).
    cbn [mem_char]. rewrite (proj1 (name_char_not_eq _ Hc')). cbn [orb].
    induction k as [|d k IH]; [reflexivity|].
    cbn [Spec.all_name_chars mem_char] in *.
    apply andb_true_iff in H. destruct H as [Hd H].
    now rewrite (proj1 (name_char_not_eq _ Hd)), IH.
  - destruct k as [|c k]; [discriminate|]. cbn [Spec.is_identifier] in H.
    apply andb_true_iff in H. destruct H as [Hc _].
    assert (Hc' : PfShell.is_name_char c = true)
      by (unfold PfShell.is_name_char; now rewrite Hc).
    unfold startswith. cbn [prefix].
    destruct (ascii_dec "-"%char c) as [<-|]; [|reflexivity].
    now destruct (name_char_not_eq _ Hc') as [_ H'].
  - apply env_name_match_iff. now left.
Qed.

End Words.

(** ** The command sent to a remote host *)

(** X5: with elevation, the remote command of [build_shell_command]
    splits into [sudo], the user switch when a user is given (and only
    then [-H]), [bash], [-lc] and one last word that is the whole
    export-and-command string, character for character. *)
Theorem remote_sudo_command_words
  (env_vars : PfShell.env) (command : string)
  (task_env : option PfShell.env) (sudo_user : option string) :
  let full :=
    Spec.exports_then (PfShell.merge_env [] task_env env_vars) command in
  Shlex.split
    (PfShell.build_shell_command env_vars command task_env true sudo_user)
  = Ok match sudo_user with
       | Some (String c u) =>
           ["sudo"; "-u"; String c u; "-H"; "bash"; "-lc"; full]
       | _ => ["sudo"; "bash"; "-lc"; full]
       end.
Proof.
  cbv zeta. rewrite build_shell_command_exports.
  set (full := Spec.exports_then _ _). unfold Spec.elevate.
  assert (Hw : forall w, Shlex.quote w = w -> reads_as w w).
  { intros w E. rewrite <- E at 1. apply quote_reads_as. }
  destruct sudo_user as [[|c u]|].
  - apply (split_words [("sudo", "sudo"); ("bash", "bash"); ("-lc", "-lc");
                        (Shlex.quote full, full)]).
    repeat constructor; cbn [fst snd];
      first [apply quote_reads_as | now apply Hw].
  - replace ("sudo -u " ++ Shlex.quote (String c u) ++ " -H bash -lc "
               ++ Shlex.quote full)
      with (join " " (map fst
              [("sudo", "sudo"); ("-u", "-u");
               (Shlex.quote (String c u), String c u); ("-H", "-H");
               ("bash", "bash"); ("-lc", "-lc"); (Shlex.quote full, full)]))
      by (unfold join; cbn [map fst concat append]; reflexivity).
    apply split_words.
    repeat constructor; cbn [fst snd];
      first [apply quote_reads_as | now apply Hw].
  - apply (split_words [("sudo", "sudo"); ("bash", "bash"); ("-lc", "-lc");
                        (Shlex.quote full, full)]).
    repeat constructor; cbn [fst snd];
      first [apply quote_reads_as | now apply Hw].
Qed.

(** X6: an export statement for an identifier splits into the word
    [export] and one word [KEY=VALUE] that holds the value unchanged,
    whatever characters the value is made of. *)
Theorem export_line_words (k v : string) :
  Spec.is_identifier k = true ->
  Shlex.split (PfShell.export_line (k, v)) = Ok ["export"; k ++ "=" ++ v].
Proof.
  intros Hk. destruct (identifier_plain _ Hk) as (Hs & _).
  unfold PfShell.export_line. cbn [fst snd].
  apply (split_words [("export", "export");
                      (k ++ "=" ++ Shlex.quote v, k ++ "=" ++ v)]).
  repeat constructor; cbn [fst snd].
  - apply (quote_reads_as "export").
  - now apply assignment_reads_as.
Qed.

Lemma export_line_words_witness :
  Shlex.split (PfShell.export_line ("GREETING", "it's $HOME; ok"))
  = Ok ["export"; "GREETING=it's $HOME; ok"].
Proof. apply (export_line_words "GREETING" "it's $HOME; ok"). reflexivity. Defined.

(** ** The echoed command *)

Section Echo.
Import PfShell.

Lemma concat_cons (sep a b : string) (l : list string) :
  concat sep (a :: b :: l) = a ++ sep ++ concat sep (b :: l).
Proof. reflexivity. Qed.

Lemma join_flatten (sep : string) (l1 l2 : list string) :
  l2 <> [] -> join sep (l1 ++ [join sep l2]) = join sep (l1 ++ l2).
Proof.
  intros Hne. unfold join. induction l1 as [|a l1 IH]; cbn [app].
  - reflexivity.
  - destruct l1 as [|b l1]; cbn [app] in *.
    + destruct l2 as [|c l2]; [contradiction|]. reflexivity.
    + rewrite !concat_cons. now rewrite IH.
Qed.

Lemma leading_app (test : string -> bool) (a b : list string) :
  Forall (fun t => test t = true) a ->
  Spec.leading test (a ++ b) = (a ++ Spec.leading test b)%list /\
  Spec.remaining test (a ++ b) = Spec.remaining test b.
Proof.
  induction 1 as [|t a Ht _ [IH1 IH2]]; [now split|].
  cbn [app Spec.leading Spec.remaining]. rewrite Ht, IH1, IH2. now split.
Qed.

Definition assignment_text (kv : string * string) : string :=
  fst kv ++ "=" ++ snd kv.

Lemma identifier_assignment (k v : string) :
  Spec.is_identifier k = true ->
  is_assignment (k ++ "=" ++ v) = true /\
  split_once "="%char (k ++ "=" ++ v) = (k, v).
Proof.
  intros Hk. destruct (identifier_plain _ Hk) as (_ & He & Hd & Hm).
  assert (Hs : split_once "="%char (k ++ "=" ++ v) = (k, v))
    by now apply split_once_of_join.
  split; [|exact Hs]. unfold is_assignment. rewrite Hs. cbn [fst].
  rewrite Hm, andb_true_r.
  change "=" with (str1 "="%char) at 1. rewrite contains_char.
  rewrite mem_char_append. cbn [append mem_char]. rewrite Ascii.eqb_refl.
  rewrite orb_true_r. cbn [andb].
  destruct k as [|c k]; [discriminate|].
  unfold startswith in *. cbn [append prefix] in *.
  destruct (ascii_dec "-"%char c); [|reflexivity].
  now rewrite prefix_nil in Hd.
Qed.

Lemma store_assignments (d acc : env) :
  Forall (fun k => Spec.is_identifier k = true) (keys d) ->
  fold_left Spec.store (map assignment_text d) acc = dict_update acc d.
Proof.
  revert acc. induction d as [|[k v] d IH]; intros acc H; [reflexivity|].
  cbn [keys map fst] in H. inversion H as [|? ? Hk Hd]; subst.
  cbn [map fold_left]. rewrite dict_update_cons, <- (IH _ Hd).
  f_equal. unfold Spec.store, assignment_text. cbn [fst snd].
  destruct (identifier_assignment k v Hk) as (_ & ->). reflexivity.
Qed.

(** A line made of the items of a dictionary with identifier keys and of
    the quoted tokens of a command parses back to that dictionary and
    that command. *)
Lemma parse_displayed (d : env) (tokens : list string) :
  Spec.well_formed d ->
  Forall (fun k => Spec.is_identifier k = true) (keys d) ->
  Spec.remaining is_assignment tokens = tokens ->
  parse_shell_command
    (join " " (map display_item d ++ map Shlex.quote tokens))
  = Ok (d, join " " (map Shlex.quote tokens)).
Proof.
  intros Hwf Hk Hr.
  set (ws := (map (fun kv => (display_item kv, assignment_text kv)) d
              ++ map (fun t => (Shlex.quote t, t)) tokens)%list).
  assert (Hfst : (map display_item d ++ map Shlex.quote tokens)%list
                 = map fst ws).
  { unfold ws. rewrite map_app, !map_map. reflexivity. }
  assert (Hsnd : map snd ws = (map assignment_text d ++ tokens)%list).
  { unfold ws. rewrite map_app, !map_map. cbn [snd]. now rewrite map_id. }
  assert (Hreads : Forall (fun p => reads_as (fst p) (snd p)) ws).
  { unfold ws. apply Forall_app. split; apply Forall_forall; intros p Hp;
      apply in_map_iff in Hp; destruct Hp as (x & <- & Hx); cbn [fst snd].
    - destruct x as [k v]. unfold display_item, assignment_text.
      cbn [fst snd]. apply assignment_reads_as.
      rewrite Forall_forall in Hk.
      apply (identifier_plain k). apply Hk. unfold keys.
      change k with (fst (k, v)). now apply in_map.
    - apply quote_reads_as. }
  rewrite Hfst.
  rewrite (parse_shell_command_leading _ _ (split_words ws Hreads)), Hsnd.
  assert (Ha : Forall (fun t => is_assignment t = true)
                      (map assignment_text d)).
  { apply Forall_forall. intros t Ht. apply in_map_iff in Ht.
    destruct Ht as ([k v] & <- & Hin). unfold assignment_text.
    cbn [fst snd]. apply identifier_assignment.
    rewrite Forall_forall in Hk. apply Hk. unfold keys.
    change k with (fst (k, v)). now apply in_map. }
  destruct (leading_app is_assignment _ tokens Ha) as [-> ->].
  rewrite Hr, <- Hr, leading_of_remaining, app_nil_r, Hr.
  rewrite (store_assignments d [] Hk).
  now rewrite (dict_update_disjoint [] d Hwf).
Qed.

End Echo.

(** X7: the command that [execute_shell_command] echoes, the merged
    environment as [KEY=value] items followed by the command, parses
    back to exactly that environment and that command, provided the keys
    are identifiers (a task environment may hold any key). *)
Theorem echoed_command_reparses
  (cmd_line : string) (env_vars : PfShell.env) (command : string)
  (task_env : option PfShell.env) :
  PfShell.parse_shell_command cmd_line = Ok (env_vars, command) ->
  is_empty command = false ->
  let display_env := PfShell.merge_env [] task_env env_vars in
  Forall (fun k => Spec.is_identifier k = true) (keys display_env) ->
  PfShell.parse_shell_command
    (join " " (map PfShell.display_item display_env ++ [command]))
  = Ok (display_env, command).
Proof.
  intros Hp Hne display_env Hk.
  destruct (Shlex.split cmd_line) as [tokens|e] eqn:Hs.
  - rewrite (parse_shell_command_leading _ _ Hs) in Hp.
    injection Hp as _ Hc. subst command.
    destruct (Spec.remaining PfShell.is_assignment tokens) as [|t ts] eqn:Er;
      [discriminate|].
    rewrite join_flatten by discriminate.
    rewrite <- Er. apply parse_displayed.
    + apply merge_env_well_formed. constructor.
    + exact Hk.
    + apply remaining_fixed.
  - rewrite (parse_shell_command_unparsable _ _ Hs) in Hp. discriminate.
Qed.

Lemma echoed_command_reparses_witness :
  PfShell.parse_shell_command
    ("PORT=9 HOST=example.org MSG='a b' echo 'x y' z")
  = Ok ([("PORT", "9"); ("HOST", "example.org"); ("MSG", "a b")],
        "echo 'x y' z").
Proof.
  apply (echoed_command_reparses
           ("MSG=" ++ dq ++ "a b" ++ dq ++ " PORT=9 echo x\ y z")
           [("MSG", "a b"); ("PORT", "9")] "echo 'x y' z"
           (Some port_task_env)).
  - reflexivity.
  - reflexivity.
  - repeat constructor.
Defined.

(** ** Quoted words of a payload *)

(** X8: the interpreter words and the forwarded arguments survive their
    quoting: the interpreter command splits back into its parts, and the
    argument string splits back into the arguments, in order, except the
    empty ones, which are dropped before quoting. *)
Theorem payload_words_read_back (parts args : list string) :
  Shlex.split (PfPolyglot._cmd_str parts) = Ok parts /\
  Shlex.split (PfPolyglot._poly_args args)
  = Ok (filter (fun a => negb (is_empty a)) args).
Proof.
  unfold PfPolyglot._cmd_str, PfPolyglot._poly_args.
  split; apply split_quoted_tokens.
Qed.

(** ** Normal forms of language hints *)

Section Hints.
Import PfPolyglot.

Lemma lower_char_fixed (c : ascii) : lower_char (lower_char c) = lower_char c.
Proof. destruct c as [[] [] [] [] [] [] [] []]; reflexivity. Qed.

Lemma lower_char_space (c : ascii) : is_space (lower_char c) = is_space c.
Proof. destruct c as [[] [] [] [] [] [] [] []]; reflexivity. Qed.

Lemma lower_fixed (s : string) : lower (lower s) = lower s.
Proof.
  induction s as [|c r IH]; [reflexivity|].
  cbn [lower]. now rewrite lower_char_fixed, IH.
Qed.

Lemma lstrip_lower (s : string) : lstrip (lower s) = lower (lstrip s).
Proof.
  induction s as [|c r IH]; [reflexivity|].
  cbn [lower lstrip]. rewrite lower_char_space.
  destruct (is_space c); [exact IH|reflexivity].
Qed.

Lemma rstrip_lower (s : string) : rstrip (lower s) = lower (rstrip s).
Proof.
  induction s as [|c r IH]; [reflexivity|].
  cbn [lower rstrip]. rewrite IH, lower_char_space.
  destruct (rstrip r); cbn [lower]; [|reflexivity].
  now destruct (is_space c).
Qed.

Lemma rstrip_cons (c : ascii) (r : string) :
  rstrip (String c r)
  = match rstrip r with
    | EmptyString => if is_space c then EmptyString else str1 c
    | String d r' => String c (String d r')
    end.
Proof. reflexivity. Qed.

Lemma rstrip_fixed (s : string) : rstrip (rstrip s) = rstrip s.
Proof.
  induction s as [|c r IH]; [reflexivity|].
  rewrite rstrip_cons. destruct (rstrip r) as [|d r'] eqn:E.
  - destruct (is_space c) eqn:Ec; [reflexivity|].
    cbn [rstrip str1]. now rewrite Ec.
  - now rewrite rstrip_cons, IH.
Qed.

Lemma lstrip_unspaced (s : string) :
  match s with
  | EmptyString => True
  | String c _ => is_space c = false
  end -> lstrip s = s.
Proof. destruct s as [|c r]; [reflexivity|]. cbn [lstrip]. now intros ->. Qed.

Lemma lstrip_head (s : string) :
  match lstrip s with
  | EmptyString => True
  | String c _ => is_space c = false
  end.
Proof.
  induction s as [|c r IH]; [exact I|].
  cbn [lstrip]. destruct (is_space c) eqn:E; [exact IH|exact E].
Qed.

Lemma rstrip_head (s : string) :
  match s with
  | EmptyString => True
  | String c _ => is_space c = false
  end ->
  match rstrip s with
  | EmptyString => True
  | String c _ => is_space c = false
  end.
Proof.
  destruct s as [|c r]; [trivial|]. cbn [rstrip]. intros H.
  destruct (rstrip r); [now rewrite H|exact H].
Qed.

Lemma strip_fixed (s : string) : strip (strip s) = strip s.
Proof.
  unfold strip.
  rewrite (lstrip_unspaced (rstrip (lstrip s)))
    by (apply rstrip_head, lstrip_head).
  apply rstrip_fixed.
Qed.

Lemma strip_lower (s : string) : strip (lower s) = lower (strip s).
Proof. unfold strip. now rewrite lstrip_lower, rstrip_lower. Qed.

(** The key looked up in the alias table. *)
Definition normal_hint (lang_hint : string) : string :=
  lower (strip lang_hint).

Lemma normal_hint_fixed (h : string) : normal_hint (normal_hint h) = normal_hint h.
Proof.
  unfold normal_hint. now rewrite strip_lower, strip_fixed, lower_fixed.
Qed.

Lemma canonical_of_target (alias key : string) :
  dict_get alias POLYGLOT_ALIASES = Some key -> _canonical_lang key = key.
Proof.
  intros H. apply dict_get_In in H.
  pose proof aliases_round_trip as Hall.
  rewrite forallb_forall in Hall. specialize (Hall _ H).
  unfold alias_round_trips in Hall. cbn [fst snd] in Hall.
  apply andb_true_iff in Hall. destruct Hall as [Hall _].
  apply andb_true_iff in Hall. destruct Hall as [_ Hk].
  now apply String.eqb_eq.
Qed.

Lemma canonical_fixed (h : string) :
  _canonical_lang (_canonical_lang h) = _canonical_lang h.
Proof.
  assert (Hh : forall x,
             _canonical_lang x
             = match dict_get (normal_hint x) POLYGLOT_ALIASES with
               | Some k => k
               | None => normal_hint x
               end) by reflexivity.
  rewrite (Hh h).
  destruct (dict_get (normal_hint h) POLYGLOT_ALIASES) as [k|] eqn:E.
  - now apply (canonical_of_target (normal_hint h)).
  - now rewrite Hh, normal_hint_fixed, E.
Qed.

Definition registered_key_fixed (key : string) : bool :=
  String.eqb (_canonical_lang key) key.

Lemma registered_keys_fixed :
  forallb registered_key_fixed (keys POLYGLOT_LANGS) = true.
Proof. vm_compute. reflexivity. Qed.

End Hints.

(** X9: canonicalizing a language hint is idempotent, and blind to case
    and to surrounding whitespace: the hint, its lower-cased form and its
    stripped form all give the same key, which canonicalizes to itself;
    so [is_supported_language] gives one answer for all of them. *)
Theorem canonical_lang_is_a_normal_form (lang_hint : string) :
  let key := PfPolyglot._canonical_lang lang_hint in
  PfPolyglot._canonical_lang key = key /\
  PfPolyglot._canonical_lang (lower lang_hint) = key /\
  PfPolyglot._canonical_lang (strip lang_hint) = key /\
  PfPolyglot.is_supported_language key
  = PfPolyglot.is_supported_language lang_hint.
Proof.
  cbv zeta. split; [apply canonical_fixed|]. split; [|split].
  - unfold PfPolyglot._canonical_lang.
    now rewrite strip_lower, lower_fixed.
  - unfold PfPolyglot._canonical_lang. now rewrite strip_fixed.
  - unfold PfPolyglot.is_supported_language. now rewrite canonical_fixed.
Qed.

(** X10: every key listed by [get_supported_languages] is its own
    canonical form, no alias leads it elsewhere, so each listed name is
    accepted as it is; and a hint is supported exactly when its
    canonical form is in the list. *)
Theorem supported_languages_are_accepted :
  (forall key, In key PfPolyglot.get_supported_languages ->
     PfPolyglot._canonical_lang key = key /\
     PfPolyglot.is_supported_language key = true) /\
  (forall lang_hint,
     PfPolyglot.is_supported_language lang_hint = true <->
     In (PfPolyglot._canonical_lang lang_hint)
        PfPolyglot.get_supported_languages).
Proof.
  split.
  - intros key Hin. unfold PfPolyglot.get_supported_languages in Hin.
    assert (Hk : PfPolyglot._canonical_lang key = key).
    { eapply Permutation_in in Hin; [|symmetry; apply sorted_perm].
      pose proof registered_keys_fixed as Hall.
      rewrite forallb_forall in Hall. specialize (Hall _ Hin).
      now apply String.eqb_eq. }
    split; [exact Hk|]. unfold PfPolyglot.is_supported_language.
    rewrite Hk. now apply registered_supported.
  - intros lang_hint. unfold PfPolyglot.is_supported_language.
    apply registered_supported.
Qed.

(** ** Inline snippets *)

(** X11: for a registered language, a command that is not a file
    reference is the snippet, whole and unsplit, with no arguments, and
    rendering returns the payload its builder makes of it; a command that
    does not tokenize (an unclosed quote in inline code, a trailing
    backslash) makes rendering raise the [ValueError] of [shlex.split],
    whatever the language. *)
Theorem inline_snippet_rendering
  (fs : PfPolyglot.filesystem) (hint cmd : string)
  (working_dir : option string) (build : PfPolyglot.builder) :
  is_empty hint = false ->
  dict_get (PfPolyglot._canonical_lang hint) PfPolyglot.POLYGLOT_LANGS
    = Some build ->
  let rendered :=
    PfPolyglot.render_polyglot_command fs (Some hint) cmd working_dir in
  (forall e, Shlex.split cmd = Raise e -> rendered = Raise (ValueError e)) /\
  (forall tokens, Shlex.split cmd = Ok tokens ->
     match tokens with
     | [] => True
     | first :: _ => is_reference first = false
     end ->
     exists script,
       build cmd [] = Ok script /\
       rendered = Ok (Some script, Some (PfPolyglot._canonical_lang hint))).
Proof.
  intros Hne Hb. cbv zeta. unfold PfPolyglot.render_polyglot_command.
  rewrite Hne, Hb. unfold PfPolyglot._extract_polyglot_source. split.
  - now intros e ->.
  - intros tokens -> Hfirst.
    pose proof registered_builders_render as Hall.
    rewrite Forall_forall in Hall.
    specialize (Hall _ (dict_get_In _ _ _ Hb)). cbn [snd] in Hall.
    destruct (Hall cmd []) as [script Hs]. exists script.
    split; [exact Hs|].
    destruct tokens as [|first rest].
    + cbn [bind]. now rewrite Hs.
    + unfold is_reference in Hfirst. rewrite Hfirst. cbn [bind].
      now rewrite Hs.
Qed.

Lemma inline_snippet_rendering_witness :
  PfPolyglot.render_polyglot_command
    script_files (Some "py") "x = 1  # don't" (Some "/proj")
  = Raise (ValueError Shlex.no_closing_quotation).
Proof.
  destruct (inline_snippet_rendering
              script_files "py" "x = 1  # don't" (Some "/proj")
              (PfPolyglot.script ["python3"] ".py") eq_refl eq_refl)
    as [H _].
  apply H. reflexivity.
Defined.

(** ** The here-document *)

Section HereDocument.
Import PfPolyglot.

Definition no_newline (l : string) : Prop := mem_char (chr 10) l = false.

Lemma split_nl_line (l rest : string) :
  no_newline l -> split_nl (l ++ nl ++ rest) = l :: split_nl rest.
Proof.
  unfold no_newline. induction l as [|c l IH]; intros H.
  - reflexivity.
  - cbn [mem_char] in H. apply orb_false_iff in H. destruct H as [Hc Hl].
    cbn [append split_nl]. rewrite Ascii.eqb_sym, Hc. now rewrite (IH Hl).
Qed.

Lemma lines_app (a b : list string) : lines (a ++ b) = lines a ++ lines b.
Proof.
  induction a as [|l a IH]; [reflexivity|].
  cbn [app lines fold_right] in *. fold (lines (a ++ b)). fold (lines a).
  now rewrite IH, !append_assoc.
Qed.

Lemma split_nl_lines (L : list string) (rest : string) :
  Forall no_newline L -> split_nl (lines L ++ rest) = (L ++ split_nl rest)%list.
Proof.
  induction 1 as [|l L Hl _ IH]; [reflexivity|].
  cbn [lines fold_right app]. fold (lines L).
  rewrite !append_assoc, (split_nl_line _ _ Hl). now rewrite IH.
Qed.

(** A text that ends with a newline is a list of lines. *)
Lemma text_lines (s : string) :
  endswith_nl s = true ->
  exists L, s = lines L /\ Forall no_newline L.
Proof.
  induction s as [|c r IH]; [discriminate|]. intros H.
  destruct r as [|d r'].
  - cbn in H. apply Ascii.eqb_eq in H. subst c.
    exists [EmptyString]. split; [reflexivity|]. now repeat constructor.
  - assert (Hr : endswith_nl (String d r') = true) by exact H.
    destruct (IH Hr) as (L & E & HL). rewrite E.
    destruct (Ascii.eqb c (chr 10)) eqn:Ec.
    + apply Ascii.eqb_eq in Ec. subst c.
      exists (EmptyString :: L). split; [reflexivity|].
      constructor; [reflexivity|exact HL].
    + destruct L as [|l L]; [discriminate|].
      exists (String c l :: L). split; [reflexivity|].
      inversion HL; subst. constructor; [|assumption].
      unfold no_newline in *. cbn [mem_char].
      now rewrite Ascii.eqb_sym, Ec.
Qed.

Lemma ensure_newline_ends (code : string) :
  endswith_nl (_ensure_newline code) = true.
Proof.
  unfold _ensure_newline. destruct (endswith_nl code) eqn:E; [exact E|].
  clear E. induction code as [|c r IH]; [reflexivity|].
  cbn [append]. destruct r; [reflexivity|exact IH].
Qed.

Lemma leading_stop (test : string -> bool) (L X : list string) (d : string) :
  test d = false ->
  Spec.leading test (L ++ d :: X) = Spec.leading test L.
Proof.
  intros Hd. induction L as [|l L IH]; cbn [app Spec.leading].
  - now rewrite Hd.
  - destruct (test l); [now rewrite IH|reflexivity].
Qed.

Lemma lines_nil (M : list string) : lines M = EmptyString -> M = [].
Proof.
  destruct M as [|l M]; [reflexivity|]. cbn [lines fold_right].
  destruct l; discriminate.
Qed.

Lemma append_cancel (a m : string) : a = a ++ m -> m = EmptyString.
Proof.
  induction a as [|c a IH]; cbn [append]; [congruence|].
  intros [= H]. now apply IH.
Qed.

(** The test of a here-document reader: not the closing line. *)
Definition not_delimiter (l : string) : bool := negb (String.eqb l _POLY_DELIM).

(** The text a reader takes from [body] up to the first line that is the
    delimiter. *)
Definition fenced (body : string) : string :=
  lines (Spec.leading not_delimiter (split_nl body)).

Lemma fenced_text (text tail : string) :
  endswith_nl text = true ->
  (fenced (text ++ _POLY_DELIM ++ nl ++ tail) = text <->
   ~ In _POLY_DELIM (split_nl text)).
Proof.
  intros He. destruct (text_lines _ He) as (L & -> & HL).
  unfold fenced. rewrite (split_nl_lines _ _ HL).
  rewrite (split_nl_line _POLY_DELIM tail eq_refl).
  rewrite (leading_stop not_delimiter L _ _POLY_DELIM eq_refl).
  assert (Hsplit : split_nl (lines L) = (L ++ [EmptyString])%list).
  { rewrite <- (append_nil_r (lines L)). now rewrite (split_nl_lines _ _ HL). }
  rewrite Hsplit.
  pose proof (leading_remaining not_delimiter L) as Hd.
  split.
  - intros H Hin.
    assert (H' : lines (Spec.leading not_delimiter L)
                 = lines (Spec.leading not_delimiter L
                            ++ Spec.remaining not_delimiter L))
      by (rewrite <- Hd; exact H).
    rewrite lines_app in H'. apply append_cancel, lines_nil in H'.
    destruct (forallb not_delimiter L) eqn:Ea.
    + rewrite forallb_forall in Ea.
      apply in_app_or in Hin. destruct Hin as [Hin|[Hin|[]]];
        [|discriminate Hin].
      specialize (Ea _ Hin). discriminate Ea.
    + now apply remaining_not_all in Ea.
  - intros Hno.
    destruct (Spec.remaining not_delimiter L) as [|d M] eqn:Er.
    + rewrite app_nil_r in Hd. now rewrite <- Hd.
    + exfalso. apply Hno. apply in_or_app. left.
      assert (Hin : In d (Spec.leading not_delimiter L ++ d :: M))
        by (apply in_or_app; right; now left).
      rewrite <- Hd in Hin.
      apply remaining_head in Er. unfold not_delimiter in Er.
      apply negb_false_iff, String.eqb_eq in Er. now subst d.
Qed.

Definition cat_line : string :=
  "cat <<'" ++ _POLY_DELIM ++ "' > " ++ qt "$src" ++ nl.

(** The payload holds the [cat] line, the newline-terminated snippet,
    the delimiter line, and something after it. *)
Definition stages (script code : string) : Prop :=
  exists head tail,
    script = head ++ cat_line ++ _ensure_newline code ++ _POLY_DELIM ++ nl
               ++ tail.

Definition stages_snippet (build : builder) : Prop :=
  forall code args script, build code args = Ok script -> stages script code.

Lemma script_profile_stages (parts : list string) (ext basename : string) :
  stages_snippet (_script_profile parts ext basename).
Proof.
  intros code args script [= <-]. unfold _build_script_command, stages.
  exists ("tmpdir=$(mktemp -d)" ++ nl
          ++ "src=" ++ qt ("$tmpdir/" ++ basename ++ ext) ++ nl).
  eexists. unfold cat_line. rewrite !append_assoc. reflexivity.
Qed.

Lemma compile_profile_stages (ext compiler_cmd run_cmd : string)
  (setup_lines : list string) (basename : string) (append_args : bool) :
  stages_snippet
    (_compile_profile ext compiler_cmd run_cmd setup_lines basename append_args).
Proof.
  intros code args script.
  unfold _compile_profile, _build_compile_command, bind.
  destruct (format compiler_cmd mapping) as [compiler|]; [|discriminate].
  destruct (format run_cmd _) as [runner|]; [|discriminate].
  intros [= <-]. unfold stages.
  exists ("tmpdir=$(mktemp -d)" ++ nl
          ++ "src=" ++ qt ("$tmpdir/" ++ basename ++ ext) ++ nl
          ++ "bin=" ++ qt "$tmpdir/pf_poly_bin" ++ nl
          ++ (if is_empty (join nl setup_lines) then join nl setup_lines
              else join nl setup_lines ++ nl)).
  exists (compiler ++ nl ++ "rc=$?" ++ nl
          ++ "if [ $rc -eq 0 ]; then" ++ nl
          ++ "  "
          ++ (if append_args && negb (is_empty (_poly_args args))
              then runner ++ " " ++ _poly_args args else runner)
          ++ nl ++ "  rc=$?" ++ nl ++ "fi" ++ nl
          ++ "rm -rf " ++ qt "$tmpdir" ++ nl ++ "exit $rc" ++ nl).
  unfold cat_line, qt. rewrite !append_assoc. reflexivity.
Qed.

Lemma java_android_stages : stages_snippet _java_android_builder.
Proof.
  intros code args script. unfold _java_android_builder.
  intros [= <-]. unfold stages.
  exists (lines [ "tmpdir=$(mktemp -d)";
                  "src=" ++ qt "$tmpdir/Main.java";
                  "classes=" ++ qt "$tmpdir/classes";
                  "dexdir=" ++ qt "$tmpdir/dex";
                  "mkdir -p " ++ qt "$classes" ++ " " ++ qt "$dexdir" ]).
  eexists. unfold cat_line. cbn [lines fold_right].
  rewrite !append_assoc. reflexivity.
Qed.

Lemma registered_builders_stage :
  Forall (fun entry => stages_snippet (snd entry)) POLYGLOT_LANGS.
Proof.
  unfold POLYGLOT_LANGS, script, compiled, _java_openjdk_builder.
  repeat (constructor;
          [cbn [snd];
           first [ exact (script_profile_stages _ _ _)
                 | exact (compile_profile_stages _ _ _ _ _ _)
                 | exact java_android_stages ]|]).
  constructor.
Qed.

End HereDocument.

(** X12: every rendered payload holds, after its [cat] line, the snippet
    ended by a newline and then the delimiter line; reading that text up
    to the first line equal to the delimiter gives back the snippet
    exactly when no line of the snippet is the delimiter itself. *)
Theorem here_document_fence
  (fs : PfPolyglot.filesystem) (lang_hint : option string) (cmd : string)
  (working_dir : option string) (script : string) (key : option string) :
  PfPolyglot.render_polyglot_command fs lang_hint cmd working_dir
    = Ok (Some script, key) ->
  exists snippet lang_args path head tail,
    PfPolyglot._extract_polyglot_source fs cmd working_dir
      = Ok (snippet, lang_args, path) /\
    script = head ++ cat_line ++ PfPolyglot._ensure_newline snippet
               ++ PfPolyglot._POLY_DELIM ++ nl ++ tail /\
    (fenced (PfPolyglot._ensure_newline snippet
               ++ PfPolyglot._POLY_DELIM ++ nl ++ tail)
       = PfPolyglot._ensure_newline snippet
     <-> ~ In PfPolyglot._POLY_DELIM
              (split_nl (PfPolyglot._ensure_newline snippet))).
Proof.
  unfold PfPolyglot.render_polyglot_command.
  destruct lang_hint as [hint|]; [|discriminate].
  destruct (is_empty hint); [discriminate|].
  destruct (dict_get _ PfPolyglot.POLYGLOT_LANGS) as [build|] eqn:E;
    [|discriminate].
  apply dict_get_In in E.
  pose proof registered_builders_stage as Hall.
  rewrite Forall_forall in Hall. specialize (Hall _ E). cbn [snd] in Hall.
  destruct (PfPolyglot._extract_polyglot_source fs cmd working_dir)
    as [[[snippet lang_args] path]|e]; [|discriminate].
  cbn [bind]. destruct (build snippet lang_args) as [rendered|e] eqn:Eb;
    [|discriminate].
  cbn [bind]. intros [= <- _].
  destruct (Hall _ _ _ Eb) as (head & tail & Hs).
  exists snippet, lang_args, path, head, tail.
  split; [reflexivity|]. split; [exact Hs|].
  apply fenced_text, ensure_newline_ends.
Qed.

Lemma here_document_fence_witness :
  exists snippet lang_args path head tail,
    PfPolyglot._extract_polyglot_source
      script_files "@tools/run.py" (Some "/proj")
      = Ok (snippet, lang_args, path) /\
    PfPolyglot._build_script_command
      "python3" ".py" ("print('hi')" ++ nl) [] "pf_poly"
    = head ++ cat_line ++ PfPolyglot._ensure_newline snippet
        ++ PfPolyglot._POLY_DELIM ++ nl ++ tail /\
    (fenced (PfPolyglot._ensure_newline snippet
               ++ PfPolyglot._POLY_DELIM ++ nl ++ tail)
       = PfPolyglot._ensure_newline snippet
     <-> ~ In PfPolyglot._POLY_DELIM
              (split_nl (PfPolyglot._ensure_newline snippet))).
Proof.
  apply (here_document_fence
           script_files (Some "python") "@tools/run.py" (Some "/proj")
           (PfPolyglot._build_script_command
              "python3" ".py" ("print('hi')" ++ nl) [] "pf_poly")
           (Some "python")).
  reflexivity.
Defined.

(** ** Alias resolution *)

Section AliasResolution.
Import PfMain.
Variable get_alias_map : option string -> result exn (dict string).

(** What the loop puts in place of [rest], when it rewrites. *)
Fixpoint rewritten (rest : list string) (file_arg : option string)
  : option (list string) :=
  match rest with
  | [] => None
  | arg :: rest' =>
      if (String.eqb arg "-f" || String.eqb arg "--file")
         && negb (is_nil rest')
      then
        match rest' with
        | value :: rest'' =>
            option_map (fun r => arg :: value :: r)
                       (rewritten rest'' (Some value))
        | [] => None
        end
      else if startswith arg "--file=" then
        option_map (cons arg)
                   (rewritten rest' (Some (snd (split_once "="%char arg))))
      else if negb (startswith arg "-") then
        if is_builtin arg then None
        else
          match get_alias_map file_arg with
          | Ok alias_map =>
              match dict_get arg alias_map with
              | Some task_name => Some ("run" :: task_name :: rest')
              | None => None
              end
          | Raise _ => None
          end
      else option_map (cons arg) (rewritten rest' file_arg)
  end.

Lemma scan_rewritten (n : nat) :
  forall rest, List.length rest <= n ->
  forall args seen file_arg,
    scan_aliases get_alias_map args seen rest file_arg
    = match rewritten rest file_arg with
      | Some r => (seen ++ r)%list
      | None => args
      end.
Proof.
  induction n as [|n IH]; intros rest Hn args seen file_arg.
  - destruct rest; [reflexivity|cbn in Hn; lia].
  - destruct rest as [|arg rest']; [reflexivity|].
    cbn [List.length] in Hn. cbn [scan_aliases rewritten].
    destruct ((String.eqb arg "-f" || String.eqb arg "--file")
              && negb (is_nil rest')).
    + destruct rest' as [|value rest'']; [reflexivity|].
      cbn [List.length] in Hn. rewrite IH by lia.
      destruct (rewritten rest'' (Some value)); cbn [option_map];
        [|reflexivity].
      now rewrite <- app_assoc.
    + destruct (startswith arg "--file=").
      * rewrite IH by lia.
        destruct (rewritten rest' _); cbn [option_map]; [|reflexivity].
        now rewrite <- app_assoc.
      * destruct (negb (startswith arg "-")).
        -- destruct (is_builtin arg); [reflexivity|].
           destruct (get_alias_map file_arg) as [m|]; [|reflexivity].
           now destruct (dict_get arg m).
        -- rewrite IH by lia.
           destruct (rewritten rest' file_arg); cbn [option_map];
             [|reflexivity].
           now rewrite <- app_assoc.
Qed.

Lemma resolve_rewritten (args : list string) :
  _resolve_aliases get_alias_map args
  = match rewritten args None with
    | Some r => r
    | None => args
    end.
Proof.
  unfold _resolve_aliases.
  now rewrite (scan_rewritten (List.length args) args (le_n _)).
Qed.

Lemma rewritten_stable (n : nat) :
  forall rest, List.length rest <= n ->
  forall file_arg r,
    rewritten rest file_arg = Some r -> rewritten r file_arg = None.
Proof.
  induction n as [|n IH]; intros rest Hn file_arg r.
  - destruct rest; [discriminate|cbn in Hn; lia].
  - destruct rest as [|arg rest']; [discriminate|].
    cbn [List.length] in Hn. cbn [rewritten].
    destruct ((String.eqb arg "-f" || String.eqb arg "--file")
              && negb (is_nil rest')) eqn:Ef.
    + destruct rest' as [|value rest'']; [discriminate|].
      cbn [List.length] in Hn.
      destruct (rewritten rest'' (Some value)) as [r''|] eqn:Er;
        [|discriminate].
      cbn [option_map]. intros [= <-]. cbn [rewritten].
      apply andb_true_iff in Ef. destruct Ef as [-> _]. cbn [andb is_nil negb].
      rewrite (IH rest'' ltac:(lia) _ _ Er). reflexivity.
    + destruct (startswith arg "--file=") eqn:Es.
      * destruct (rewritten rest' _) as [r'|] eqn:Er; [|discriminate].
        cbn [option_map]. intros [= <-]. cbn [rewritten].
        assert (Ef' : (String.eqb arg "-f" || String.eqb arg "--file")
                      && negb (is_nil r') = false).
        { apply andb_false_iff in Ef. destruct Ef as [->|Ef]; [reflexivity|].
          destruct rest'; [discriminate Er|discriminate Ef]. }
        rewrite Ef', Es. rewrite (IH rest' ltac:(lia) _ _ Er). reflexivity.
      * destruct (negb (startswith arg "-")) eqn:Ed.
        -- destruct (is_builtin arg); [discriminate|].
           destruct (get_alias_map file_arg) as [m|]; [|discriminate].
           destruct (dict_get arg m); [|discriminate].
           intros [= <-]. reflexivity.
        -- destruct (rewritten rest' file_arg) as [r'|] eqn:Er;
             [|discriminate].
           cbn [option_map]. intros [= <-]. cbn [rewritten].
           assert (Ef' : (String.eqb arg "-f" || String.eqb arg "--file")
                         && negb (is_nil r') = false).
           { apply andb_false_iff in Ef. destruct Ef as [->|Ef];
               [reflexivity|].
             destruct rest'; [discriminate Er|discriminate Ef]. }
           rewrite Ef', Es, Ed. rewrite (IH rest' ltac:(lia) _ _ Er).
           reflexivity.
Qed.

Lemma rewritten_shape (n : nat) :
  forall rest, List.length rest <= n ->
  forall file_arg r,
    rewritten rest file_arg = Some r ->
    exists pre arg post file alias_map task_name,
      rest = (pre ++ arg :: post)%list /\
      r = (pre ++ "run" :: task_name :: post)%list /\
      startswith arg "-" = false /\ is_builtin arg = false /\
      get_alias_map file = Ok alias_map /\
      dict_get arg alias_map = Some task_name.
Proof.
  induction n as [|n IH]; intros rest Hn file_arg r.
  - destruct rest; [discriminate|cbn in Hn; lia].
  - destruct rest as [|arg rest']; [discriminate|].
    cbn [List.length] in Hn. cbn [rewritten].
    destruct ((String.eqb arg "-f" || String.eqb arg "--file")
              && negb (is_nil rest')).
    + destruct rest' as [|value rest'']; [discriminate|].
      cbn [List.length] in Hn.
      destruct (rewritten rest'' (Some value)) as [r''|] eqn:Er;
        [|discriminate].
      cbn [option_map]. intros [= <-].
      destruct (IH rest'' ltac:(lia) _ _ Er)
        as (pre & a & post & f & m & t & -> & -> & H).
      now exists (arg :: value :: pre), a, post, f, m, t.
    + destruct (startswith arg "--file=").
      * destruct (rewritten rest' _) as [r'|] eqn:Er; [|discriminate].
        cbn [option_map]. intros [= <-].
        destruct (IH rest' ltac:(lia) _ _ Er)
          as (pre & a & post & f & m & t & -> & -> & H).
        now exists (arg :: pre), a, post, f, m, t.
      * destruct (negb (startswith arg "-")) eqn:Ed.
        -- destruct (is_builtin arg) eqn:Eb; [discriminate|].
           destruct (get_alias_map file_arg) as [m|] eqn:Em; [|discriminate].
           destruct (dict_get arg m) as [t|] eqn:Et; [|discriminate].
           intros [= <-]. exists [], arg, rest', file_arg, m, t.
           apply negb_true_iff in Ed. now repeat split.
        -- destruct (rewritten rest' file_arg) as [r'|] eqn:Er;
             [|discriminate].
           cbn [option_map]. intros [= <-].
           destruct (IH rest' ltac:(lia) _ _ Er)
             as (pre & a & post & f & m & t & -> & -> & H).
           now exists (arg :: pre), a, post, f, m, t.
Qed.

(** Plain options: they start with [-] and take no value. *)
Definition plain_option (arg : string) : bool :=
  startswith arg "-" && negb (String.eqb arg "-f")
  && negb (String.eqb arg "--file") && negb (startswith arg "--file=").

Lemma rewritten_after_options (options : list string) (rest : list string) :
  forallb plain_option options = true ->
  rewritten (options ++ rest) None
  = option_map (app options) (rewritten rest None).
Proof.
  induction options as [|o options IH]; intros H.
  - cbn [app]. now destruct (rewritten rest None).
  - cbn [forallb] in H. apply andb_true_iff in H. destruct H as [Ho H].
    unfold plain_option in Ho.
    apply andb_true_iff in Ho. destruct Ho as [Ho Ho4].
    apply andb_true_iff in Ho. destruct Ho as [Ho Ho3].
    apply andb_true_iff in Ho. destruct Ho as [Ho1 Ho2].
    apply negb_true_iff in Ho2, Ho3, Ho4.
    cbn [app rewritten]. rewrite Ho2, Ho3, Ho4, Ho1. cbn [orb andb negb].
    rewrite (IH H). now destruct (rewritten rest None).
Qed.

End AliasResolution.

(** X13: alias resolution changes at most one argument: either the
    arguments come back as they are, or exactly one argument that does
    not start with [-], is not a builtin command and is a key of the
    alias map is replaced by [run] and its task name, everything before
    and after it staying in place. *)
Theorem alias_resolution_shape
  (get_alias_map : option string -> result exn (dict string))
  (args : list string) :
  PfMain._resolve_aliases get_alias_map args = args \/
  exists pre arg post file alias_map task_name,
    args = (pre ++ arg :: post)%list /\
    PfMain._resolve_aliases get_alias_map args
    = (pre ++ "run" :: task_name :: post)%list /\
    startswith arg "-" = false /\ PfMain.is_builtin arg = false /\
    get_alias_map file = Ok alias_map /\
    dict_get arg alias_map = Some task_name.
Proof.
  rewrite resolve_rewritten.
  destruct (rewritten get_alias_map args None) as [r|] eqn:E; [|now left].
  right. exact (rewritten_shape _ _ args (le_n _) _ _ E).
Qed.

(** X14: resolving aliases twice is resolving them once: after a rewrite
    the first command word is [run], which is never looked up. *)
Theorem alias_resolution_idempotent
  (get_alias_map : option string -> result exn (dict string))
  (args : list string) :
  PfMain._resolve_aliases get_alias_map
    (PfMain._resolve_aliases get_alias_map args)
  = PfMain._resolve_aliases get_alias_map args.
Proof.
  rewrite (resolve_rewritten _ args).
  destruct (rewritten get_alias_map args None) as [r|] eqn:E.
  - rewrite resolve_rewritten.
    now rewrite (rewritten_stable _ _ args (le_n _) _ _ E).
  - rewrite resolve_rewritten. now rewrite E.
Qed.

(** X15: after any run of plain options, the first other word decides:
    a builtin command is kept even when the alias map has a key of that
    name, a key of the alias map is replaced by [run] and its task, and
    any other word, or a failure to get the alias map, leaves the
    arguments as they are; words after it are never looked at. *)
Theorem first_command_word_decides
  (get_alias_map : option string -> result exn (dict string))
  (options : list string) (word : string) (rest : list string) :
  forallb plain_option options = true ->
  startswith word "-" = false ->
  PfMain._resolve_aliases get_alias_map (options ++ word :: rest)
  = if PfMain.is_builtin word then (options ++ word :: rest)%list
    else
      match get_alias_map None with
      | Ok alias_map =>
          match dict_get word alias_map with
          | Some task_name => (options ++ "run" :: task_name :: rest)%list
          | None => (options ++ word :: rest)%list
          end
      | Raise _ => (options ++ word :: rest)%list
      end.
Proof.
  intros Ho Hw. rewrite resolve_rewritten.
  rewrite (rewritten_after_options _ _ _ Ho). cbn [rewritten].
  assert (Hf : (String.eqb word "-f" || String.eqb word "--file")
               && negb (is_nil rest) = false).
  { destruct (String.eqb_spec word "-f") as [->|_]; [discriminate Hw|].
    destruct (String.eqb_spec word "--file") as [->|_]; [discriminate Hw|].
    reflexivity. }
  assert (Hs : startswith word "--file=" = false).
  { unfold startswith in *. destruct word as [|c w]; [reflexivity|].
    cbn [prefix] in *.
    destruct (ascii_dec "-"%char c); [now rewrite prefix_nil in Hw|].
    reflexivity. }
  rewrite Hf, Hs, Hw. cbn [negb].
  destruct (PfMain.is_builtin word); [reflexivity|].
  destruct (get_alias_map None) as [m|]; [|reflexivity].
  now destruct (dict_get word m).
Qed.

Definition deploy_aliases (file_arg : option string)
  : result exn (dict string) :=
  Ok [("d", "deploy"); ("run", "other")].

Lemma first_command_word_decides_witness :
  PfMain._resolve_aliases deploy_aliases ["--debug"; "d"; "d"; "x"]
    = ["--debug"; "run"; "deploy"; "d"; "x"] /\
  PfMain._resolve_aliases deploy_aliases ["--debug"; "run"; "d"]
    = ["--debug"; "run"; "d"].
Proof.
  split.
  - apply (first_command_word_decides deploy_aliases ["--debug"] "d" ["d"; "x"]);
      reflexivity.
  - apply (first_command_word_decides deploy_aliases ["--debug"] "run" ["d"]);
      reflexivity.
Defined.

(** ** Include directives *)

Section Includes.
Import PfSubcommandManager.

Lemma split_nl_cons (s : string) : exists p ps, split_nl s = p :: ps.
Proof.
  induction s as [|c r (p & ps & IH)]; [now exists EmptyString, []|].
  cbn [split_nl]. destruct (Ascii.eqb c (chr 10)); [now eexists; eexists|].
  rewrite IH. now eexists; eexists.
Qed.

Lemma split_nl_app (a b : string) :
  split_nl (a ++ nl ++ b) = (split_nl a ++ split_nl b)%list.
Proof.
  induction a as [|c a IH]; [reflexivity|].
  cbn [append split_nl]. destruct (Ascii.eqb c (chr 10)).
  - now rewrite IH.
  - rewrite IH. destruct (split_nl_cons a) as (p & ps & ->). reflexivity.
Qed.

Lemma split_nl_one (s : string) :
  mem_char (chr 10) s = false -> split_nl s = [s].
Proof.
  induction s as [|c r IH]; [reflexivity|]. cbn [mem_char split_nl].
  rewrite Ascii.eqb_sym. intros H. apply orb_false_iff in H.
  destruct H as [-> H]. now rewrite (IH H).
Qed.

(** The paths one line contributes. *)
Definition line_paths (line : string) : list string :=
  include_step [] line.

Lemma include_step_app (acc : list string) (line : string) :
  include_step acc line = (acc ++ line_paths line)%list.
Proof.
  unfold line_paths, include_step.
  destruct (startswith (strip line) "include "); [reflexivity|].
  now rewrite app_nil_r.
Qed.

Lemma include_fold (l : list string) (acc : list string) :
  fold_left include_step l acc = (acc ++ flat_map line_paths l)%list.
Proof.
  revert acc. induction l as [|line l IH]; intros acc; cbn [fold_left flat_map].
  - now rewrite app_nil_r.
  - now rewrite IH, include_step_app, <- app_assoc.
Qed.

Lemma extract_lines (dsl_src : string) :
  _extract_include_files dsl_src = flat_map line_paths (split_nl dsl_src).
Proof. unfold _extract_include_files. now rewrite include_fold. Qed.

Fixpoint blank (s : string) : bool :=
  match s with
  | EmptyString => true
  | String c r => is_space c && blank r
  end.

Lemma lstrip_blank (lead s : string) :
  blank lead = true -> lstrip (lead ++ s) = lstrip s.
Proof.
  induction lead as [|c lead IH]; [reflexivity|]. cbn [blank append lstrip].
  intros H. apply andb_true_iff in H. destruct H as [-> H]. now apply IH.
Qed.

Lemma rstrip_blank (s trail : string) :
  blank trail = true -> rstrip (s ++ trail) = rstrip s.
Proof.
  intros H. induction s as [|c s IH]; cbn [append].
  - induction trail as [|d trail IH]; [reflexivity|].
    cbn [blank] in H. apply andb_true_iff in H. destruct H as [Hd H].
    rewrite rstrip_cons, (IH H). now rewrite Hd.
  - now rewrite !rstrip_cons, IH.
Qed.

Lemma rstrip_unspaced (s : string) (d : ascii) :
  is_space d = false -> rstrip (s ++ str1 d) = s ++ str1 d.
Proof.
  intros Hd. induction s as [|c s IH]; cbn [append].
  - cbn. now rewrite Hd.
  - rewrite rstrip_cons, IH. now destruct s.
Qed.

Lemma endswith_char_snoc (s : string) (d : ascii) :
  endswith_char (s ++ str1 d) d = true.
Proof.
  induction s as [|c s IH]; cbn [append endswith_char str1].
  - apply Ascii.eqb_refl.
  - destruct (s ++ str1 d) eqn:E; [now destruct s|exact IH].
Qed.

Lemma drop_last_snoc (s : string) (d : ascii) : drop_last (s ++ str1 d) = s.
Proof.
  induction s as [|c s IH]; [reflexivity|]. cbn [append drop_last].
  destruct (s ++ str1 d) eqn:E; [now destruct s|]. now rewrite IH.
Qed.

(** A path between two quotes [q], as a directive line with blanks
    around it. *)
Lemma quoted_directive (q : ascii) (lead trail path : string) :
  (q = chr 34 \/ q = chr 39) ->
  blank lead = true -> blank trail = true ->
  line_paths (lead ++ "include " ++ str1 q ++ path ++ str1 q ++ trail)
  = [path].
Proof.
  intros Hq Hl Ht.
  assert (Hsp : is_space q = false) by (destruct Hq; now subst).
  unfold line_paths, include_step.
  assert (Hstrip : strip (lead ++ "include " ++ str1 q ++ path ++ str1 q ++ trail)
                   = "include " ++ str1 q ++ path ++ str1 q).
  { unfold strip. rewrite (lstrip_blank _ _ Hl).
    rewrite (lstrip_unspaced
               ("include " ++ str1 q ++ path ++ str1 q ++ trail))
      by reflexivity.
    rewrite <- !append_assoc.
    rewrite (rstrip_blank _ _ Ht), (rstrip_unspaced _ _ Hsp).
    now rewrite !append_assoc. }
  rewrite Hstrip. cbn [app].
  change (startswith ("include " ++ str1 q ++ path ++ str1 q) "include ")
    with (prefix EmptyString (str1 q ++ path ++ str1 q)).
  rewrite prefix_nil.
  change (drop 8 ("include " ++ str1 q ++ path ++ str1 q))
    with (str1 q ++ path ++ str1 q).
  assert (Hs2 : strip (str1 q ++ path ++ str1 q) = str1 q ++ path ++ str1 q).
  { unfold strip.
    rewrite (lstrip_unspaced (str1 q ++ path ++ str1 q)) by exact Hsp.
    rewrite <- append_assoc.
    now rewrite (rstrip_unspaced _ _ Hsp). }
  rewrite Hs2. f_equal. unfold unquote.
  assert (He : endswith_char (str1 q ++ path ++ str1 q) q = true).
  { rewrite <- append_assoc. apply endswith_char_snoc. }
  assert (Hd : drop_last (drop 1 (str1 q ++ path ++ str1 q)) = path).
  { cbn [str1 append drop]. apply drop_last_snoc. }
  assert (Hst : startswith (str1 q ++ path ++ str1 q) (str1 q) = true).
  { unfold startswith. cbn [str1 append prefix].
    destruct (ascii_dec q q); [apply prefix_nil|contradiction]. }
  destruct Hq as [-> | ->].
  - change dq with (str1 (chr 34)). now rewrite Hst, He, Hd.
  - change sq with (str1 (chr 39)). rewrite Hst, He, Hd.
    assert (Hno : startswith (str1 (chr 39) ++ path ++ str1 (chr 39)) dq
                  = false).
    { unfold startswith, dq. cbn [str1 append prefix].
      destruct (ascii_dec (chr 34) (chr 39)); [discriminate|reflexivity]. }
    now rewrite Hno.
Qed.

End Includes.

(** X16: the include files of a text are found line by line: for two
    texts joined by a newline they are the include files of the first
    followed by those of the second, so a directive is found wherever it
    stands. *)
Theorem include_files_of_joined_texts (a b : string) :
  PfSubcommandManager._extract_include_files (a ++ nl ++ b)
  = (PfSubcommandManager._extract_include_files a
       ++ PfSubcommandManager._extract_include_files b)%list.
Proof. now rewrite !extract_lines, split_nl_app, flat_map_app. Qed.

(** X17: a line made of blanks, the word [include], a space, a path
    between two double quotes or two single quotes, and blanks, gives
    exactly that path, whatever the path holds (spaces, quotes) other
    than a newline. *)
Theorem quoted_include_gives_its_path (lead trail path : string) :
  blank lead = true -> blank trail = true ->
  mem_char (chr 10) (lead ++ path ++ trail) = false ->
  PfSubcommandManager._extract_include_files
    (lead ++ "include " ++ dq ++ path ++ dq ++ trail) = [path] /\
  PfSubcommandManager._extract_include_files
    (lead ++ "include " ++ sq ++ path ++ sq ++ trail) = [path].
Proof.
  intros Hl Ht Hn. rewrite !mem_char_append in Hn.
  apply orb_false_iff in Hn. destruct Hn as [Hn1 Hn].
  apply orb_false_iff in Hn. destruct Hn as [Hn2 Hn3].
  assert (H : forall q, q = chr 34 \/ q = chr 39 ->
            PfSubcommandManager._extract_include_files
              (lead ++ "include " ++ str1 q ++ path ++ str1 q ++ trail)
            = [path]).
  { intros q Hq. rewrite extract_lines, split_nl_one.
    - cbn [flat_map]. rewrite (quoted_directive q _ _ _ Hq Hl Ht).
      reflexivity.
    - rewrite !mem_char_append, Hn1, Hn2, Hn3.
      destruct Hq; subst; reflexivity. }
  split; [apply (H (chr 34)); now left|apply (H (chr 39)); now right].
Qed.

Lemma quoted_include_gives_its_path_witness :
  PfSubcommandManager._extract_include_files
    ("  include " ++ dq ++ "my tasks/deploy's.pf" ++ dq ++ " ")
  = ["my tasks/deploy's.pf"].
Proof.
  apply (quoted_include_gives_its_path "  " " " "my tasks/deploy's.pf");
    reflexivity.
Defined.

(** ** Loading include files *)

Section IncludeLoading.
Import PfSubcommandManager.
Variable abspath : string -> string.
Variable dirname : string -> string.
Variable cwd : string.
Variable fs : string -> option (option string).

(** The directory a relative include is resolved against. *)
Definition include_base (pfyfile : option string) : string :=
  match given pfyfile with
  | Some p => dirname (abspath p)
  | None => cwd
  end.

Lemma path_join_absolute (base path : string) :
  isabs path = true -> path_join base path = path.
Proof. intros H. unfold path_join. now rewrite H. Qed.

Lemma load_include_file_path (include_path : string)
  (pfyfile : option string) :
  (forall p, abspath (abspath p) = abspath p) ->
  _load_include_file abspath dirname cwd fs include_path pfyfile
  = if isabs include_path then
      match given pfyfile with
      | Some p =>
          if exists_path fs include_path || exists_path fs (abspath p)
          then open_read fs include_path
          else Raise (UnboundLocalError "base_dir")
      | None => open_read fs include_path
      end
    else open_read fs (path_join (include_base pfyfile) include_path).
Proof.
  intros Habs. unfold _load_include_file, include_base.
  destruct (isabs include_path) eqn:Ea; cbn [negb].
  - destruct (given pfyfile) as [p|]; [|reflexivity].
    destruct (exists_path fs include_path); cbn [negb orb bind];
      [reflexivity|].
    destruct (exists_path fs (abspath p)); cbn [bind]; [|reflexivity].
    now rewrite (path_join_absolute _ _ Ea).
  - destruct (given pfyfile) as [p|]; [|reflexivity].
    destruct (exists_path fs (path_join (dirname (abspath p)) include_path));
      cbn [negb bind]; [reflexivity|].
    rewrite Habs. now destruct (exists_path fs (abspath p)).
Qed.

Variable load_pfy_source : option string -> result load_error string.
Variable parse_task_names : string -> result load_error (list string).

(** Loading and parsing one include file. *)
Definition include_tasks (pfyfile : option string) (include_file : string)
  : result load_error (list string) :=
  include_src <-
    _load_include_file abspath dirname cwd fs include_file pfyfile ;;
  parse_task_names include_src.

Definition include_fails (pfyfile : option string) (include_file : string)
  : bool :=
  match include_tasks pfyfile include_file with
  | Ok _ => false
  | Raise _ => true
  end.

Definition step :=
  discover_step abspath dirname cwd fs parse_task_names.

Lemma discover_step_cases (pfyfile : option string) (st : discovery)
  (f : string) :
  match include_tasks pfyfile f with
  | Ok names =>
      subcommands (step pfyfile st f) = dict_set f names (subcommands st)
      /\ warnings (step pfyfile st f) = warnings st
  | Raise _ =>
      subcommands (step pfyfile st f) = subcommands st
      /\ exists w, warnings (step pfyfile st f) = (warnings st ++ [w])%list
  end.
Proof.
  unfold step, discover_step.
  fold (include_tasks pfyfile f).
  destruct (include_tasks pfyfile f) as [names|e]; [now split|].
  destruct e; cbn [subcommands warnings]; split;
    try reflexivity; eexists; reflexivity.
Qed.

Lemma discover_fold (pfyfile : option string) (l : list string)
  (st : discovery) :
  (forall f names, dict_get f (subcommands st) = Some names ->
     include_tasks pfyfile f = Ok names) ->
  let d := fold_left (step pfyfile) l st in
  (forall f names,
     dict_get f (subcommands d) = Some names <->
     dict_get f (subcommands st) = Some names \/
     (In f l /\ include_tasks pfyfile f = Ok names)) /\
  List.length (warnings d)
  = List.length (warnings st)
    + List.length (filter (include_fails pfyfile) l).
Proof.
  revert st. induction l as [|g l IH]; intros st Hst; cbv zeta.
  - cbn [fold_left filter List.length]. split; [|lia].
    intros f names. split; [now left|]. now intros [H|[[] _]].
  - cbn [fold_left].
    pose proof (discover_step_cases pfyfile st g) as Hg.
    destruct (include_tasks pfyfile g) as [gnames|e] eqn:Eg.
    + destruct Hg as [Hsub Hw].
      assert (Hst' : forall f names,
                 dict_get f (subcommands (step pfyfile st g)) = Some names ->
                 include_tasks pfyfile f = Ok names).
      { intros f names. rewrite Hsub.
        destruct (String.eqb_spec f g) as [->|ne].
        - rewrite dict_get_set_same. now intros [= <-].
        - rewrite dict_get_set_other by exact ne. apply Hst. }
      destruct (IH _ Hst') as [IH1 IH2]. split.
      * intros f names. rewrite IH1, Hsub. split.
        -- intros [H|[Hin Hf]]; [|right; split; [now right|exact Hf]].
           destruct (String.eqb_spec f g) as [->|ne].
           ++ rewrite dict_get_set_same in H. injection H as <-.
              right. split; [now left|exact Eg].
           ++ rewrite dict_get_set_other in H by exact ne. now left.
        -- intros [H|[[<-|Hin] Hf]].
           ++ destruct (String.eqb_spec f g) as [->|ne].
              ** left. rewrite dict_get_set_same.
                 apply Hst in H. congruence.
              ** left. now rewrite dict_get_set_other by exact ne.
           ++ left. rewrite dict_get_set_same. congruence.
           ++ right. now split.
      * cbn [filter]. unfold include_fails at 1. rewrite Eg.
        rewrite IH2, Hw. reflexivity.
    + destruct Hg as [Hsub (w & Hw)].
      assert (Hst' : forall f names,
                 dict_get f (subcommands (step pfyfile st g)) = Some names ->
                 include_tasks pfyfile f = Ok names)
        by (intros f names; rewrite Hsub; apply Hst).
      destruct (IH _ Hst') as [IH1 IH2]. split.
      * intros f names. rewrite IH1, Hsub. split.
        -- intros [H|[Hin Hf]]; [now left|right; split; [now right|exact Hf]].
        -- intros [H|[[<-|Hin] Hf]]; [now left|congruence|right; now split].
      * cbn [filter]. unfold include_fails at 1. rewrite Eg.
        rewrite IH2, Hw, length_app. cbn [List.length]. lia.
Qed.

End IncludeLoading.

(** X18: [_load_include_file] opens one path only: a relative include
    joined to the directory of the Pfyfile (the current directory when no
    Pfyfile is given), an absolute include as it is.  Its second
    resolution, made when that path does not exist, computes the same
    path again; it only adds that a missing absolute include raises
    [UnboundLocalError] when the Pfyfile path does not exist either. *)
Theorem include_file_has_one_path
  (abspath dirname : string -> string) (cwd : string)
  (fs : string -> option (option string))
  (include_path : string) (pfyfile : option string) :
  (forall p, abspath (abspath p) = abspath p) ->
  PfSubcommandManager._load_include_file
    abspath dirname cwd fs include_path pfyfile
  = if PfSubcommandManager.isabs include_path then
      match PfSubcommandManager.given pfyfile with
      | Some p =>
          if PfSubcommandManager.exists_path fs include_path
             || PfSubcommandManager.exists_path fs (abspath p)
          then PfSubcommandManager.open_read fs include_path
          else Raise (PfSubcommandManager.UnboundLocalError "base_dir")
      | None => PfSubcommandManager.open_read fs include_path
      end
    else
      PfSubcommandManager.open_read fs
        (PfSubcommandManager.path_join
           (include_base abspath dirname cwd pfyfile) include_path).
Proof. apply load_include_file_path. Qed.

(** A current directory [/work] and a directory name that cuts at the
    last slash, for the examples. *)
Definition sample_abspath (p : string) : string :=
  if PfSubcommandManager.isabs p then p else "/work/" ++ p.

Fixpoint sample_dirname (p : string) : string :=
  match p with
  | EmptyString => EmptyString
  | String c r =>
      if mem_char "/"%char r then String c (sample_dirname r)
      else EmptyString
  end.

Definition sample_tree (path : string) : option (option string) :=
  if String.eqb path "/work/Pfyfile.pf" then Some (Some "include tasks/a.pf")
  else if String.eqb path "/work/tasks/a.pf" then Some (Some "task a")
  else None.

Lemma sample_abspath_fixed (p : string) :
  sample_abspath (sample_abspath p) = sample_abspath p.
Proof.
  unfold sample_abspath.
  destruct (PfSubcommandManager.isabs p) eqn:E; [now rewrite E|reflexivity].
Qed.

Lemma include_file_has_one_path_witness :
  PfSubcommandManager._load_include_file
    sample_abspath sample_dirname "/elsewhere" sample_tree
    "tasks/a.pf" (Some "Pfyfile.pf") = Ok "task a" /\
  PfSubcommandManager._load_include_file
    sample_abspath sample_dirname "/elsewhere" sample_tree
    "/opt/missing.pf" (Some "nowhere/Pfyfile.pf")
  = Raise (PfSubcommandManager.UnboundLocalError "base_dir").
Proof.
  split.
  - rewrite (include_file_has_one_path
               sample_abspath sample_dirname "/elsewhere" sample_tree
               "tasks/a.pf" (Some "Pfyfile.pf") sample_abspath_fixed).
    reflexivity.
  - rewrite (include_file_has_one_path
               sample_abspath sample_dirname "/elsewhere" sample_tree
               "/opt/missing.pf" (Some "nowhere/Pfyfile.pf")
               sample_abspath_fixed).
    reflexivity.
Defined.

(** X19: once the root source is loaded, discovery is best effort, file
    by file: an include file is a key of the result, with its task
    names, exactly when it is named by a directive and it loads and
    parses; every include that fails costs one warning and nothing
    else. *)
Theorem discovery_is_file_by_file
  (abspath dirname : string -> string) (cwd : string)
  (fs : string -> option (option string))
  (load_pfy_source :
     option string -> result PfSubcommandManager.load_error string)
  (parse_task_names :
     string -> result PfSubcommandManager.load_error (list string))
  (pfyfile : option string) (dsl_src : string) :
  load_pfy_source pfyfile = Ok dsl_src ->
  let found :=
    PfSubcommandManager.discover_subcommands
      abspath dirname cwd fs load_pfy_source parse_task_names pfyfile in
  let includes := PfSubcommandManager._extract_include_files dsl_src in
  (forall f names,
     dict_get f (PfSubcommandManager.subcommands found) = Some names <->
     In f includes /\
     include_tasks abspath dirname cwd fs parse_task_names pfyfile f
     = Ok names) /\
  List.length (PfSubcommandManager.warnings found)
  = List.length
      (filter (include_fails abspath dirname cwd fs parse_task_names pfyfile)
              includes).
Proof.
  intros Hl. cbv zeta. unfold PfSubcommandManager.discover_subcommands.
  rewrite Hl.
  destruct (discover_fold abspath dirname cwd fs parse_task_names pfyfile
              (PfSubcommandManager._extract_include_files dsl_src)
              {| PfSubcommandManager.subcommands := [];
                 PfSubcommandManager.warnings := [] |})
    as [H1 H2]; [discriminate|].
  split; [|exact H2].
  intros f names. unfold step in H1. rewrite H1. cbn.
  split; [now intros [H|H]|now right].
Qed.

Lemma discovery_is_file_by_file_witness :
  PfSubcommandManager.subcommands
    (PfSubcommandManager.discover_subcommands
       sample_abspath sample_dirname "/elsewhere" sample_tree
       (fun _ => Ok ("include gone.pf" ++ nl ++ "include tasks/a.pf"))
       (fun src => Ok [src]) (Some "Pfyfile.pf"))
  = [("tasks/a.pf", ["task a"])] /\
  dict_get "gone.pf"
    (PfSubcommandManager.subcommands
       (PfSubcommandManager.discover_subcommands
          sample_abspath sample_dirname "/elsewhere" sample_tree
          (fun _ => Ok ("include gone.pf" ++ nl ++ "include tasks/a.pf"))
          (fun src => Ok [src]) (Some "Pfyfile.pf")))
  = None.
Proof.
  split; [reflexivity|].
  destruct (discovery_is_file_by_file
              sample_abspath sample_dirname "/elsewhere" sample_tree
              (fun _ => Ok ("include gone.pf" ++ nl ++ "include tasks/a.pf"))
              (fun src => Ok [src]) (Some "Pfyfile.pf")
              ("include gone.pf" ++ nl ++ "include tasks/a.pf") eq_refl)
    as [H _].
  destruct (dict_get "gone.pf" _) as [names|] eqn:E; [|reflexivity].
  apply H in E. destruct E as [_ E]. discriminate E.
Defined.

(** ** Language templates *)

Section Template.
Import Re PfPolyglot.

Fixpoint all_chars (p : ascii -> bool) (s : string) : bool :=
  match s with
  | EmptyString => true
  | String c r => p c && all_chars p r
  end.

Lemma blank_all (s : string) : blank s = all_chars is_space s.
Proof. induction s as [|c r IH]; [reflexivity|]. cbn. now rewrite IH. Qed.

Lemma no_newline_all (s : string) :
  no_newline s <-> all_chars any s = true.
Proof.
  unfold no_newline, any. induction s as [|c r IH]; [now split|].
  cbn [mem_char all_chars]. rewrite andb_true_iff, <- IH.
  rewrite (Ascii.eqb_sym c), orb_false_iff, negb_true_iff. reflexivity.
Qed.

Lemma star_greedy (p : ascii -> bool) (w s : string) (g : option string)
  (k : cont) (m : option string) :
  all_chars p w = true -> star p s g k = Some m ->
  star p (w ++ s) g k = Some m.
Proof.
  intros Hw Hs. induction w as [|c w IH]; [exact Hs|].
  cbn [all_chars] in Hw. apply andb_true_iff in Hw. destruct Hw as [Hc Hw].
  cbn [append star]. now rewrite Hc, (IH Hw).
Qed.

Lemma star_stop (p : ascii -> bool) (s : string) (g : option string)
  (k : cont) :
  match s with
  | EmptyString => True
  | String c _ => p c = false
  end -> star p s g k = k s g.
Proof. destruct s as [|c r]; [reflexivity|]. cbn [star]. now intros ->. Qed.

Lemma star_back (p : ascii -> bool) (w : string) (d : ascii) (s : string)
  (g : option string) (k : cont) (m : option string) :
  all_chars p w = true -> p d = true ->
  star p s g k = None -> k (String d s) g = Some m ->
  star p (w ++ String d s) g k = Some m.
Proof.
  intros Hw Hd Hs Hk. induction w as [|c w IH].
  - cbn [append star]. now rewrite Hd, Hs.
  - cbn [all_chars] in Hw. apply andb_true_iff in Hw.
    destruct Hw as [Hc Hw]. cbn [append star]. now rewrite Hc, (IH Hw).
Qed.

Lemma star_sound (p : ascii -> bool) (s : string) (g : option string)
  (k : cont) (m : option string) :
  star p s g k = Some m ->
  exists h s', s = h ++ s' /\ all_chars p h = true /\ k s' g = Some m.
Proof.
  induction s as [|c r IH]; cbn [star]; intros H.
  - now exists EmptyString, EmptyString.
  - destruct (p c) eqn:Ec.
    + destruct (star p r g k) as [m'|] eqn:Er.
      * destruct (IH H) as (h & s' & -> & Hh & Hk).
        exists (String c h), s'. cbn [append all_chars].
        now rewrite Ec, Hh.
      * now exists EmptyString, (String c r).
    + now exists EmptyString, (String c r).
Qed.

Lemma run_word (w : string) :
  forall (s : string) (g : option string) (k : cont),
  run (word w) s g k
  = if startswith (lower s) w then k (drop (String.length w) s) g else None.
Proof.
  unfold startswith. induction w as [|c w IH]; intros s g k.
  - cbn [word run String.length drop]. now rewrite prefix_nil.
  - cbn [word run]. destruct s as [|d s']; [reflexivity|].
    cbn [lower prefix String.length drop]. rewrite IH.
    destruct (Ascii.eqb_spec (lower_char d) c) as [e|ne];
      destruct (ascii_dec c (lower_char d)) as [e'|ne'];
      try reflexivity; congruence.
Qed.

Lemma lower_app (a b : string) : lower (a ++ b) = lower a ++ lower b.
Proof. induction a as [|c a IH]; [reflexivity|]. cbn. now rewrite IH. Qed.

Lemma lower_length (s : string) : String.length (lower s) = String.length s.
Proof. induction s as [|c s IH]; [reflexivity|]. cbn. now rewrite IH. Qed.

Lemma drop_app (a b : string) : drop (String.length a) (a ++ b) = b.
Proof. induction a as [|c a IH]; [now destruct b|exact IH]. Qed.

Lemma append_length (a b : string) :
  String.length (a ++ b) = String.length a + String.length b.
Proof. induction a as [|c a IH]; [reflexivity|]. cbn. now rewrite IH. Qed.

Lemma take_app (a b : string) :
  take (String.length (a ++ b) - String.length b) (a ++ b) = a.
Proof.
  replace (String.length (a ++ b) - String.length b) with (String.length a)
    by (rewrite append_length; lia).
  induction a as [|c a IH]; [now destruct b|]. cbn. now rewrite IH.
Qed.

Lemma take_all (s : string) : take (String.length s - 0) s = s.
Proof.
  rewrite Nat.sub_0_r. induction s as [|c s IH]; [reflexivity|].
  cbn. now rewrite IH.
Qed.

Lemma run_seq (r1 r2 : regex) (s : string) (g : option string) (k : cont) :
  run (Seq r1 r2) s g k = run r1 s g (fun s' g' => run r2 s' g' k).
Proof. reflexivity. Qed.

Lemma run_star (p : ascii -> bool) (s : string) (g : option string)
  (k : cont) : run (Star p) s g k = star p s g k.
Proof. reflexivity. Qed.

Lemma run_class (p : ascii -> bool) (d : ascii) (s : string)
  (g : option string) (k : cont) :
  run (Class p) (String d s) g k = if p d then k s g else None.
Proof. reflexivity. Qed.

Lemma run_group (r : regex) (s : string) (g : option string) (k : cont) :
  run (Group r) s g k
  = run r s g
        (fun s' _ => k s' (Some (take (String.length s - String.length s') s))).
Proof. reflexivity. Qed.

Lemma alt_first (r1 r2 : regex) (s : string) (g : option string) (k : cont)
  (m : option string) :
  run r1 s g k = Some m -> run (Alt r1 r2) s g k = Some m.
Proof. intros H. cbn [run]. now rewrite H. Qed.

Lemma alt_second (r1 r2 : regex) (s : string) (g : option string)
  (k : cont) :
  run r1 s g k = None -> run (Alt r1 r2) s g k = run r2 s g k.
Proof. intros H. cbn [run]. now rewrite H. Qed.

Lemma star_all (p : ascii -> bool) (w : string) (g : option string)
  (k : cont) (m : option string) :
  all_chars p w = true -> k EmptyString g = Some m -> star p w g k = Some m.
Proof.
  intros Hw Hk. rewrite <- (append_nil_r w). now apply star_greedy.
Qed.

(** The pattern after the keyword. *)
Definition after_keyword : regex :=
  Seq (Star is_space)
 (Seq (Alt (Class colon_or_equals) (plus is_space))
 (Seq (Star is_space)
 (Seq (Group (plus any)) Eol))).

Definition found : cont := fun _ g => Some g.

Lemma template_re_eq :
  template_re
  = Seq (Alt (word "lang") (Alt (word "language") (word "polyglot")))
        after_keyword.
Proof. reflexivity. Qed.

Lemma letter_separates (c : ascii) :
  is_lower (lower_char c) = true ->
  is_space c = false /\ colon_or_equals c = false.
Proof.
  destruct c as [[] [] [] [] [] [] [] []]; cbv; intuition congruence.
Qed.

Lemma space_not_sign (c : ascii) :
  is_space c = true -> colon_or_equals c = false.
Proof.
  destruct c as [[] [] [] [] [] [] [] []]; cbv; intuition congruence.
Qed.

Lemma sign_not_space (c : ascii) :
  colon_or_equals c = true -> is_space c = false.
Proof.
  destruct c as [[] [] [] [] [] [] [] []]; cbv; intuition congruence.
Qed.

(** After a letter nothing of the rest of the pattern matches. *)
Lemma after_keyword_letter (c : ascii) (s : string) (g : option string) :
  is_lower (lower_char c) = true ->
  run after_keyword (String c s) g found = None.
Proof.
  intros H. destruct (letter_separates c H) as [Hs Hc].
  unfold after_keyword. rewrite run_seq, run_star, star_stop by exact Hs.
  cbv beta. rewrite run_seq, alt_second by (now rewrite run_class, Hc).
  unfold plus. now rewrite run_seq, run_class, Hs.
Qed.

(** The group takes a line that is not empty. *)
Lemma group_line (h : string) (g : option string) :
  h <> EmptyString -> all_chars any h = true ->
  run (Seq (Group (plus any)) Eol) h g found = Some (Some h).
Proof.
  intros Hne Hall. destruct h as [|c h]; [contradiction|].
  cbn [all_chars] in Hall. apply andb_true_iff in Hall.
  destruct Hall as [Hc Hall].
  rewrite run_seq, run_group. unfold plus.
  rewrite run_seq, run_class, Hc. cbv beta. rewrite run_star.
  apply star_all; [exact Hall|]. cbv beta.
  change (String.length EmptyString) with 0. rewrite take_all.
  reflexivity.
Qed.

Lemma stripped_head (h : string) :
  strip h = h ->
  match h with
  | EmptyString => True
  | String c _ => is_space c = false
  end.
Proof.
  intros H. rewrite <- H. unfold strip. apply rstrip_head, lstrip_head.
Qed.

(** With a colon or an equals sign. *)
Lemma after_keyword_sign (ws1 ws2 h : string) (c : ascii) :
  blank ws1 = true -> blank ws2 = true -> colon_or_equals c = true ->
  strip h = h -> h <> EmptyString -> all_chars any h = true ->
  run after_keyword (ws1 ++ String c (ws2 ++ h)) None found = Some (Some h).
Proof.
  intros H1 H2 Hc Hs Hne Hall. rewrite blank_all in H1, H2.
  unfold after_keyword. rewrite run_seq, run_star.
  apply star_greedy; [exact H1|].
  rewrite star_stop by now apply sign_not_space.
  cbv beta. rewrite run_seq. apply alt_first.
  rewrite run_class, Hc. cbv beta. rewrite run_seq, run_star.
  apply star_greedy; [exact H2|].
  rewrite star_stop by now apply stripped_head.
  cbv beta. now apply group_line.
Qed.

(** White space that is not empty ends with a blank. *)
Lemma blank_last (ws : string) :
  all_chars is_space ws = true -> ws <> EmptyString ->
  exists w d, ws = w ++ str1 d /\ all_chars is_space w = true
              /\ is_space d = true.
Proof.
  induction ws as [|a ws IH]; [contradiction|]. intros Hb _.
  cbn [all_chars] in Hb. apply andb_true_iff in Hb. destruct Hb as [Ha Hb].
  destruct ws as [|b ws].
  - now exists EmptyString, a.
  - destruct (IH Hb) as (w & d & E & Hw' & Hd); [discriminate|].
    exists (String a w), d. cbn [append all_chars]. rewrite <- E, Ha, Hw'.
    now repeat split.
Qed.

(** With white space only: the last blank is left to the separator. *)
Lemma after_keyword_space (ws h : string) :
  blank ws = true -> ws <> EmptyString ->
  startswith h ":" = false -> startswith h "=" = false ->
  strip h = h -> h <> EmptyString -> all_chars any h = true ->
  run after_keyword (ws ++ h) None found = Some (Some h).
Proof.
  intros Hb Hw Hco Heq Hs Hne Hall.
  pose proof (stripped_head h Hs) as Hh.
  destruct h as [|c h]; [contradiction|].
  assert (Hc : colon_or_equals c = false).
  { unfold colon_or_equals, startswith in *. cbn [prefix] in Hco, Heq.
    destruct (ascii_dec ":" c) as [<-|n1]; [now rewrite prefix_nil in Hco|].
    destruct (ascii_dec "=" c) as [<-|n2]; [now rewrite prefix_nil in Heq|].
    apply orb_false_iff. split; apply Ascii.eqb_neq; congruence. }
  rewrite blank_all in Hb.
  destruct (blank_last ws Hb Hw) as (w & d & -> & Hw' & Hd).
  rewrite append_assoc. cbn [str1 append].
  unfold after_keyword. rewrite run_seq, run_star.
  apply star_back; [exact Hw'|exact Hd| |].
  - rewrite star_stop by exact Hh. cbv beta.
    rewrite run_seq, alt_second by (now rewrite run_class, Hc).
    unfold plus. now rewrite run_seq, run_class, Hh.
  - rewrite run_seq,
      alt_second by (now rewrite run_class, (space_not_sign d Hd)).
    unfold plus at 1. rewrite run_seq, run_class, Hd. cbv beta.
    rewrite run_star, star_stop by exact Hh. cbv beta.
    rewrite run_seq, run_star, star_stop by exact Hh. cbv beta.
    now apply (group_line (String c h)).
Qed.

Definition keywords : list string := ["lang"; "language"; "polyglot"].

Lemma same_char (a : ascii) (A : Type) (x y : A) :
  (if ascii_dec a a then x else y) = x.
Proof. now destruct (ascii_dec a a). Qed.

(** Each keyword, in any case, leads to the rest of the pattern. *)
Lemma keyword_then (kw rest : string) (m : option string) :
  In (lower kw) keywords ->
  run after_keyword rest None found = Some m ->
  match_ template_re (kw ++ rest) = Some m.
Proof.
  intros Hkw Hrest. unfold match_. rewrite template_re_eq.
  fold found. rewrite run_seq.
  assert (Hd : forall w, w = lower kw ->
                         drop (String.length w) (kw ++ rest) = rest).
  { intros w ->. rewrite lower_length. apply drop_app. }
  assert (Hp : forall w, w = lower kw ->
                         startswith (lower (kw ++ rest)) w = true).
  { intros w ->. rewrite lower_app. apply prefix_append. }
  destruct Hkw as [E|[E|[E|[]]]].
  - apply alt_first. now rewrite run_word, (Hp _ E), (Hd _ E).
  - (* [lang] is tried first and stops at the [u] *)
    rewrite alt_second.
    + apply alt_first. now rewrite run_word, (Hp _ E), (Hd _ E).
    + rewrite run_word.
      do 8 (destruct kw as [|? kw]; [discriminate E|]).
      cbn [lower] in E. injection E as E1 E2 E3 E4 E5 E6 E7 E8.
      cbn [lower append]. rewrite <- E1, <- E2, <- E3, <- E4.
      cbn [startswith prefix String.length drop].
      rewrite !same_char. try rewrite prefix_nil.
      apply after_keyword_letter. now rewrite <- E5.
  - rewrite alt_second, alt_second.
    + now rewrite run_word, (Hp _ E), (Hd _ E).
    + rewrite run_word, lower_app, <- E. reflexivity.
    + rewrite run_word, lower_app, <- E. reflexivity.
Qed.

(** What a pattern consumes. *)
Fixpoint denote (r : regex) (w : string) : Prop :=
  match r with
  | Eps => w = EmptyString
  | Lit c => exists d, w = str1 d /\ lower_char d = c
  | Class p => exists d, w = str1 d /\ p d = true
  | Star p => all_chars p w = true
  | Seq r1 r2 => exists a b, w = a ++ b /\ denote r1 a /\ denote r2 b
  | Alt r1 r2 => denote r1 w \/ denote r2 w
  | Group r1 => denote r1 w
  | Eol => w = EmptyString
  end.

Lemma run_denotes (r : regex) :
  forall (s : string) (g : option string) (k : cont) (m : option string),
  run r s g k = Some m ->
  exists pre s' g', s = pre ++ s' /\ denote r pre /\ k s' g' = Some m.
Proof.
  induction r as [|c|p|p|r1 IH1 r2 IH2|r1 IH1 r2 IH2|r1 IH1|];
    intros s g k m; cbn [run]; intros H.
  - now exists EmptyString, s, g.
  - destruct s as [|d s']; [discriminate|].
    destruct (Ascii.eqb_spec (lower_char d) c) as [e|ne]; [|discriminate].
    exists (str1 d), s', g. repeat split; [|exact H]. now exists d.
  - destruct s as [|d s']; [discriminate|].
    destruct (p d) eqn:Ed; [|discriminate].
    exists (str1 d), s', g. repeat split; [|exact H]. now exists d.
  - destruct (star_sound _ _ _ _ _ H) as (h & s' & -> & Hh & Hk).
    now exists h, s', g.
  - destruct (IH1 _ _ _ _ H) as (pre1 & s1 & g1 & -> & D1 & H1).
    destruct (IH2 _ _ _ _ H1) as (pre2 & s2 & g2 & -> & D2 & H2).
    exists (pre1 ++ pre2), s2, g2. rewrite append_assoc.
    repeat split; [|exact H2]. now exists pre1, pre2.
  - destruct (run r1 s g k) as [m'|] eqn:E1.
    + injection H as <-.
      destruct (IH1 _ _ _ _ E1) as (pre & s' & g' & -> & D & Hk).
      exists pre, s', g'. cbn [denote]. now repeat split; [left|].
    + destruct (IH2 _ _ _ _ H) as (pre & s' & g' & -> & D & Hk).
      exists pre, s', g'. cbn [denote]. now repeat split; [right|].
  - destruct (IH1 _ _ _ _ H) as (pre & s' & g' & -> & D & Hk).
    exists pre, s'. eexists. repeat split; [exact D|exact Hk].
  - destruct (is_empty s || String.eqb s nl); [|discriminate].
    now exists EmptyString, s, g.
Qed.

Lemma denote_word (w x : string) : denote (word w) x -> lower x = w.
Proof.
  revert x. induction w as [|c w IH]; intros x; cbn [word denote].
  - now intros ->.
  - intros (a & b & -> & (d & -> & <-) & Hb). cbn [str1 append lower].
    now rewrite (IH _ Hb).
Qed.

(** The group and the end of the subject. *)
Lemma group_sound (p : ascii -> bool) (s : string) (g m : option string) :
  run (Seq (Group (plus p)) Eol) s g found = Some m ->
  exists h s', s = h ++ s' /\ h <> EmptyString /\ all_chars p h = true
               /\ (s' = EmptyString \/ s' = nl) /\ m = Some h.
Proof.
  rewrite run_seq, run_group. unfold plus. rewrite run_seq.
  destruct s as [|d s]; [discriminate|]. rewrite run_class.
  destruct (p d) eqn:Ed; [|discriminate]. cbv beta. rewrite run_star.
  intros H. destruct (star_sound _ _ _ _ _ H) as (h & s' & -> & Hh & Hk).
  cbv beta in Hk. cbn [run] in Hk.
  exists (String d h), s'. cbn [append all_chars]. rewrite Ed, Hh.
  split; [reflexivity|]. split; [discriminate|]. split; [reflexivity|].
  pose proof (take_app (String d h) s') as Ht. cbn [append] in Ht.
  rewrite Ht in Hk. unfold found in Hk.
  destruct (is_empty s') eqn:Ee.
  - destruct s'; [|discriminate Ee]. cbn in Hk. split; [now left|congruence].
  - cbn [orb] in Hk. destruct (String.eqb_spec s' nl) as [->|ne];
      [|discriminate]. split; [now right|congruence].
Qed.

Lemma all_chars_app (p : ascii -> bool) (a b : string) :
  all_chars p (a ++ b) = all_chars p a && all_chars p b.
Proof.
  induction a as [|c a IH]; [reflexivity|]. cbn. now rewrite IH, andb_assoc.
Qed.

Lemma all_chars_weaken (p q : ascii -> bool) (s : string) :
  (forall c, p c = true -> q c = true) ->
  all_chars p s = true -> all_chars q s = true.
Proof.
  intros Hpq. induction s as [|c s IH]; [reflexivity|]. cbn [all_chars].
  rewrite !andb_true_iff. intros [Hc Hs]. split; [now apply Hpq|now apply IH].
Qed.

Lemma rstrip_length (s : string) :
  String.length (rstrip s) <= String.length s.
Proof.
  induction s as [|c s IH]; [reflexivity|]. rewrite rstrip_cons.
  destruct (rstrip s) as [|d r'].
  - destruct (is_space c); cbn; lia.
  - cbn [String.length] in *. lia.
Qed.

(** A stripped text keeps its end. *)
Lemma rstrip_suffix (a b : string) :
  rstrip (a ++ b) = a ++ b -> b <> EmptyString -> rstrip b = b.
Proof.
  intros H Hb. induction a as [|c a IH]; [exact H|].
  cbn [append] in H. rewrite rstrip_cons in H.
  destruct (rstrip (a ++ b)) as [|d r'] eqn:E.
  - destruct (is_space c); [discriminate|].
    injection H as H. destruct a; [|discriminate H]. now destruct b.
  - injection H as H. rewrite <- H in E. now apply IH.
Qed.

Lemma rstrip_app_fixed (a b : string) :
  rstrip b = b -> b <> EmptyString -> rstrip (a ++ b) = a ++ b.
Proof.
  intros H Hb. induction a as [|c a IH]; [exact H|].
  cbn [append]. rewrite rstrip_cons, IH.
  destruct (a ++ b) eqn:E; [|reflexivity].
  destruct a; [|discriminate E]. now destruct b.
Qed.

Lemma lstrip_split (s : string) :
  exists sp, s = sp ++ lstrip s /\ blank sp = true.
Proof.
  induction s as [|c s (sp & IH & Hsp)]; [now exists EmptyString|].
  cbn [lstrip]. destruct (is_space c) eqn:Ec.
  - exists (String c sp). cbn [append blank]. now rewrite Ec, Hsp, <- IH.
  - now exists EmptyString.
Qed.

Lemma strip_rstrip (s : string) : rstrip (strip s) = strip s.
Proof. apply rstrip_fixed. Qed.

Lemma stripped_rstrip (h : string) : strip h = h -> rstrip h = h.
Proof. intros H. rewrite <- H at 1. rewrite strip_rstrip. exact H. Qed.

Lemma any_lower (c : ascii) : any (lower_char c) = any c.
Proof. destruct c as [[] [] [] [] [] [] [] []]; reflexivity. Qed.

Lemma all_any_lower (s : string) :
  all_chars any (lower s) = all_chars any s.
Proof.
  induction s as [|c s IH]; [reflexivity|]. cbn. now rewrite any_lower, IH.
Qed.

Lemma lower_not_empty (s : string) :
  s <> EmptyString -> lower s <> EmptyString.
Proof. now destruct s. Qed.

(** The stripped template around a keyword and a hint. *)
Lemma strip_template (lead kw rest h trail : string) :
  blank lead = true -> blank trail = true ->
  In (lower kw) keywords ->
  strip h = h -> h <> EmptyString ->
  strip (lead ++ (kw ++ rest ++ h) ++ trail) = kw ++ rest ++ h.
Proof.
  intros Hl Ht Hkw Hs Hne. unfold strip.
  rewrite (lstrip_blank _ _ Hl).
  assert (Hk : match kw with
               | EmptyString => False
               | String c _ => is_space c = false
               end).
  { destruct kw as [|c kw]; [now destruct Hkw as [E|[E|[E|[]]]]|].
    apply (letter_separates c).
    cbn [lower] in Hkw.
    destruct Hkw as [E|[E|[E|[]]]]; injection E as <- _; reflexivity. }
  rewrite lstrip_unspaced.
  2:{ destruct kw as [|c kw]; [contradiction|exact Hk]. }
  rewrite (rstrip_blank _ _ Ht), <- append_assoc.
  apply rstrip_app_fixed; [now apply stripped_rstrip|exact Hne].
Qed.

Definition separator_char (c : ascii) : bool :=
  is_space c || colon_or_equals c.

End Template.

(** X20: a template made of a keyword in any case, a colon or an
    equals sign with optional white space on either side, and a hint on
    one line, gives the hint in lower case; white space around the
    template is ignored. *)
Theorem template_hint_after_sign
  (lead kw ws1 ws2 h trail : string) (c : ascii) :
  blank lead = true -> blank trail = true ->
  In (lower kw) ["lang"; "language"; "polyglot"] ->
  blank ws1 = true -> blank ws2 = true ->
  c = ":"%char \/ c = "="%char ->
  strip h = h -> h <> EmptyString -> no_newline h ->
  PfPolyglot._parse_polyglot_template
    (lead ++ (kw ++ (ws1 ++ String c ws2) ++ h) ++ trail)
  = Some (lower h).
Proof.
  intros Hl Ht Hkw H1 H2 Hc Hs Hne Hnl.
  unfold PfPolyglot._parse_polyglot_template.
  rewrite (strip_template lead kw _ h trail Hl Ht Hkw Hs Hne).
  rewrite (keyword_then kw _ (Some h) Hkw).
  - now rewrite Hs.
  - rewrite append_assoc. cbn [append].
    apply after_keyword_sign; try assumption.
    + now destruct Hc as [-> | ->].
    + now apply no_newline_all.
Qed.

Lemma template_hint_after_sign_witness :
  PfPolyglot._parse_polyglot_template " Language = Rust " = Some "rust".
Proof.
  apply (template_hint_after_sign " " "Language" " " " " "Rust" " " "=");
    try reflexivity.
  - right. left. reflexivity.
  - now right.
  - discriminate.
Defined.

(** X21: a template made of a keyword in any case, white space, and a
    hint on one line that does not begin with a colon or an equals sign,
    gives the hint in lower case. *)
Theorem template_hint_after_space (lead kw ws h trail : string) :
  blank lead = true -> blank trail = true ->
  In (lower kw) ["lang"; "language"; "polyglot"] ->
  blank ws = true -> ws <> EmptyString ->
  startswith h ":" = false -> startswith h "=" = false ->
  strip h = h -> h <> EmptyString -> no_newline h ->
  PfPolyglot._parse_polyglot_template (lead ++ (kw ++ ws ++ h) ++ trail)
  = Some (lower h).
Proof.
  intros Hl Ht Hkw Hb Hw Hco Heq Hs Hne Hnl.
  unfold PfPolyglot._parse_polyglot_template.
  rewrite (strip_template lead kw _ h trail Hl Ht Hkw Hs Hne).
  rewrite (keyword_then kw _ (Some h) Hkw).
  - now rewrite Hs.
  - apply after_keyword_space; try assumption. now apply no_newline_all.
Qed.

Lemma template_hint_after_space_witness :
  PfPolyglot._parse_polyglot_template "polyglot  C++" = Some "c++".
Proof.
  apply (template_hint_after_space EmptyString "polyglot" "  " "C++"
           EmptyString); try reflexivity.
  - right. right. left. reflexivity.
  - discriminate.
  - discriminate.
Defined.

(** X22: when [_parse_polyglot_template] gives a hint, the stripped
    template is a keyword, a separator that is not empty and is made of
    white space, colons and equals signs, and then the text of which the
    hint is the lower case; the hint is not empty, is on one line and is
    stripped. *)
Theorem parsed_template_shape (template x : string) :
  PfPolyglot._parse_polyglot_template template = Some x ->
  exists kw sep tail,
    strip template = kw ++ sep ++ tail
    /\ In (lower kw) ["lang"; "language"; "polyglot"]
    /\ sep <> EmptyString /\ all_chars separator_char sep = true
    /\ x = lower tail
    /\ x <> EmptyString /\ no_newline x /\ strip x = x.
Proof.
  unfold PfPolyglot._parse_polyglot_template, Re.match_.
  destruct (Re.run PfPolyglot.template_re (strip template) None (fun _ g => Some g))
    as [[g|]|] eqn:E; try discriminate.
  intros [= <-]. rewrite template_re_eq in E. fold found in E.
  unfold after_keyword in E. rewrite run_seq in E.
  destruct (run_denotes _ _ _ _ _ E) as (kw & s1 & g1 & E0 & Dk & E1).
  rewrite run_seq in E1.
  destruct (run_denotes _ _ _ _ _ E1) as (b & s2 & g2 & -> & Db & E2).
  rewrite run_seq in E2.
  destruct (run_denotes _ _ _ _ _ E2) as (c & s3 & g3 & -> & Dc & E3).
  rewrite run_seq in E3.
  destruct (run_denotes _ _ _ _ _ E3) as (d & s4 & g4 & -> & Dd & E4).
  destruct (group_sound _ _ _ _ E4)
    as (h & s' & -> & Hne & Hall & Hend & [= ->]).
  cbn [denote] in Db, Dd.
  (* the keyword *)
  assert (Hkw : In (lower kw) ["lang"; "language"; "polyglot"]).
  { destruct Dk as [D|[D|D]]; apply denote_word in D; rewrite D.
    - now left.
    - right. now left.
    - right. right. now left. }
  (* the separator in the middle *)
  assert (Hc : c <> EmptyString /\ all_chars separator_char c = true).
  { destruct Dc as [(e & -> & He)|(a1 & a2 & -> & (e & -> & He) & Ha)].
    - split; [discriminate|]. cbn. unfold separator_char.
      now rewrite He, orb_true_r.
    - split; [discriminate|]. cbn [str1 append all_chars].
      unfold separator_char at 1. rewrite He. cbn [orb andb].
      cbn [denote] in Ha. revert Ha. apply all_chars_weaken.
      unfold separator_char. now intros ? ->. }
  destruct Hc as [Hcne Hcall].
  (* nothing follows the group *)
  assert (Hfix : rstrip (strip template) = strip template)
    by apply strip_rstrip.
  assert (Hs' : s' = EmptyString).
  { destruct Hend as [->| ->]; [reflexivity|exfalso].
    rewrite E0 in Hfix.
    rewrite <- !append_assoc in Hfix.
    rewrite rstrip_blank in Hfix by reflexivity.
    pose proof (rstrip_length ((((kw ++ b) ++ c) ++ d) ++ h)) as Hlen.
    rewrite Hfix, append_length in Hlen. cbn in Hlen. lia. }
  subst s'. rewrite append_nil_r in E0.
  assert (Hh : rstrip h = h).
  { rewrite E0 in Hfix. rewrite <- !append_assoc in Hfix.
    exact (rstrip_suffix _ _ Hfix Hne). }
  destruct (lstrip_split h) as (sp & Esp & Hsp).
  assert (Htail : lstrip h <> EmptyString).
  { intros Z. rewrite Z, append_nil_r in Esp. subst sp.
    pose proof (rstrip_blank EmptyString h Hsp) as Hb.
    cbn [append rstrip] in Hb. congruence. }
  assert (Hstrip : strip h = lstrip h).
  { unfold strip. apply (rstrip_suffix sp); [|exact Htail].
    now rewrite <- Esp. }
  assert (Hws : forall s, all_chars is_space s = true ->
                          all_chars separator_char s = true).
  { intros s. apply all_chars_weaken. unfold separator_char.
    now intros ? ->. }
  exists kw, (b ++ c ++ d ++ sp), (lstrip h).
  split.
  { rewrite E0, Esp at 1. now rewrite !append_assoc. }
  split; [exact Hkw|].
  split.
  { intros Z. destruct b; [|discriminate Z]. cbn [append] in Z.
    destruct c; [now apply Hcne|discriminate Z]. }
  split.
  { rewrite !all_chars_app, (Hws _ Db), Hcall, (Hws _ Dd).
    rewrite blank_all in Hsp. now rewrite (Hws _ Hsp). }
  rewrite Hstrip. split; [reflexivity|].
  split; [now apply lower_not_empty|].
  split.
  { apply no_newline_all. rewrite all_any_lower.
    rewrite Esp, all_chars_app in Hall.
    now apply andb_true_iff in Hall. }
  rewrite strip_lower. f_equal. rewrite <- Hstrip. apply strip_fixed.
Qed.

Lemma parsed_template_shape_witness :
  exists kw sep tail,
    strip "LANG : Python 3" = kw ++ sep ++ tail
    /\ In (lower kw) ["lang"; "language"; "polyglot"]
    /\ sep <> EmptyString /\ all_chars separator_char sep = true
    /\ "python 3" = lower tail
    /\ "python 3" <> EmptyString /\ no_newline "python 3"
    /\ strip "python 3" = "python 3".
Proof. apply (parsed_template_shape "LANG : Python 3"). reflexivity. Defined.

(** ** Listing tasks *)

Section Listing.
Import PfBuiltinCommands.

(** The aliases of a task, in the order of the alias map. *)
Definition aliases_of (task : string) (alias_map : dict string)
  : list string :=
  map fst (filter (fun item => String.eqb (snd item) task) alias_map).

Lemma reverse_step_same (rev : dict (list string)) (alias task : string) :
  dict_get task (reverse_step rev (alias, task))
  = Some (match dict_get task rev with
          | Some l => l ++ [alias]
          | None => [alias]
          end)%list.
Proof.
  unfold reverse_step, dict_mem.
  destruct (dict_get task rev) as [l|] eqn:E; cbn [negb].
  - now rewrite E, dict_get_set_same.
  - now rewrite !dict_get_set_same.
Qed.

Lemma reverse_step_other (rev : dict (list string))
  (alias task other : string) :
  other <> task ->
  dict_get other (reverse_step rev (alias, task)) = dict_get other rev.
Proof.
  intros ne. unfold reverse_step, dict_mem.
  destruct (dict_get task rev) as [l|] eqn:E; cbn [negb].
  - rewrite E. now apply dict_get_set_other.
  - rewrite dict_get_set_same.
    now rewrite !dict_get_set_other by exact ne.
Qed.

Lemma reverse_fold (alias_map : dict string) :
  forall (rev : dict (list string)) (task : string),
  dict_get task (fold_left reverse_step alias_map rev)
  = match dict_get task rev, aliases_of task alias_map with
    | Some l, more => Some (l ++ more)%list
    | None, [] => None
    | None, more => Some more
    end.
Proof.
  induction alias_map as [|[alias t] rest IH]; intros rev task.
  - cbn. destruct (dict_get task rev); [now rewrite app_nil_r|reflexivity].
  - cbn [fold_left]. rewrite IH. unfold aliases_of. cbn [filter snd].
    destruct (String.eqb_spec t task) as [->|ne].
    + rewrite reverse_step_same. cbn [map fst].
      destruct (dict_get task rev) as [l|]; [|reflexivity].
      now rewrite <- app_assoc.
    + now rewrite reverse_step_other by congruence.
Qed.

End Listing.

(** X23: the reverse alias map that [handle_list_command] builds groups
    the aliases by task: a task is a key exactly when some alias stands
    for it, and its entry lists those aliases, one for each item of the
    alias map that names the task, in the order of the alias map. *)
Theorem aliases_grouped_by_task (alias_map : dict string) (task : string) :
  dict_get task (PfBuiltinCommands.reverse_aliases alias_map)
  = match aliases_of task alias_map with
    | [] => None
    | aliases => Some aliases
    end.
Proof.
  unfold PfBuiltinCommands.reverse_aliases. now rewrite reverse_fold.
Qed.
